(** * Lucene query analysis and repair (apps/utils/lucene.py)

    A shallow embedding of [LuceneParser] (field extraction) and of the
    inspector pipeline of [LuceneSyntaxResolver] (query repair).

    The grammar itself lives in the third-party luqum package: the
    embedding takes [parser.parse], [str(node)] and
    [UnknownOperationResolver] as section variables and follows
    lucene.py line by line around them. *)

From Stdlib Require Import List Bool Arith NArith ZArith Lia.
From Stdlib Require Import Ascii.
From Stdlib Require String Decimal DecimalString DecimalNat.
Import ListNotations.

Import String.StringSyntax.
Delimit Scope string_scope with string.


(* ================================================================= *)
(** ** Python strings *)

(** A Python [str] is a sequence of Unicode code points; indices, [len],
    slices and regular-expression offsets all count code points. *)
Definition pystr := list N.

(** An ASCII literal as a [pystr]. *)
Definition lit (s : String.string) : pystr :=
  map N_of_ascii (String.list_ascii_of_string s).
Arguments lit s%_string.

Definition LF : N := 10.          (* line feed *)
Definition DQUOTE : N := 34.      (* the ASCII double quote *)
Definition LDQUO : N := 8220.     (* left curly double quote *)
Definition RDQUO : N := 8221.     (* right curly double quote *)

Fixpoint pystr_eqb (a b : pystr) : bool :=
  match a, b with
  | [], [] => true
  | x :: a', y :: b' => N.eqb x y && pystr_eqb a' b'
  | _, _ => false
  end.

(** [s.startswith(p)] *)
Fixpoint startswith (p s : pystr) : bool :=
  match p, s with
  | [], _ => true
  | x :: p', y :: s' => N.eqb x y && startswith p' s'
  | _ :: _, [] => false
  end.

(** [s[lo:hi]] for non-negative bounds (Python clamps them to [len s]). *)
Definition slice (s : pystr) (lo hi : nat) : pystr := firstn (hi - lo) (skipn lo s).

(** [s[:pos] + s[pos + n:]] *)
Definition cut (s : pystr) (pos n : nat) : pystr := firstn pos s ++ skipn (pos + n) s.

(** [s.find(c)] for a one-character [c]: the first index, or -1. *)
Fixpoint find_from (c : N) (s : pystr) (i : Z) : Z :=
  match s with
  | [] => (-1)%Z
  | x :: s' => if N.eqb x c then i else find_from c s' (i + 1)%Z
  end.

Definition find (c : N) (s : pystr) : Z := find_from c s 0%Z.

(** [sep.join(parts)] *)
Fixpoint join (sep : pystr) (parts : list pystr) : pystr :=
  match parts with
  | [] => []
  | [p] => p
  | p :: rest => p ++ sep ++ join sep rest
  end.

(** Code points [str.isspace] accepts; [str.strip()] removes them. *)
Definition isspace (c : N) : bool :=
  ((9 <=? c) && (c <=? 13) || (28 <=? c) && (c <=? 32) || (c =? 133) || (c =? 160)
   || (c =? 5760) || (8192 <=? c) && (c <=? 8202) || (c =? 8232) || (c =? 8233)
   || (c =? 8239) || (c =? 8287) || (c =? 12288))%N.

Fixpoint lstrip (s : pystr) : pystr :=
  match s with
  | c :: s' => if isspace c then lstrip s' else s
  | [] => []
  end.

Definition strip (s : pystr) : pystr := rev (lstrip (rev (lstrip s))).

(** [s.split(sep)[-1]] for a non-empty [sep]: the text after the last
    occurrence of [sep], or all of [s] when there is none. *)
Fixpoint split_last_aux (sep s acc : pystr) : pystr :=
  match s with
  | [] => acc
  | _ :: s' =>
      if startswith sep s then split_last_aux sep s' (skipn (length sep) s)
      else split_last_aux sep s' acc
  end.

Definition split_last (sep s : pystr) : pystr := split_last_aux sep s s.

(** [str(n)] for a non-negative integer. *)
Definition str_of_nat (n : nat) : pystr := lit (DecimalString.NilEmpty.string_of_uint (Nat.to_uint n)).

(** [int(s)] on a run of ASCII digits. *)
Definition isdigit (c : N) : bool := ((48 <=? c) && (c <=? 57))%N.

Definition int_of (s : pystr) : nat :=
  fold_left (fun acc c => 10 * acc + N.to_nat (c - 48)) s 0.

(* ================================================================= *)
(** ** Regular expressions

    The fragment of Python's [re] that lucene.py uses: alternatives of
    flat sequences of literal characters, [.] and [\d] under a lazy or
    greedy star, and unnested capture groups.  Matching is by
    backtracking in priority order, as in [re]: a lazy star tries the
    rest of the pattern before it consumes, a greedy star after. *)
Module Re.

Inductive cls := Dot | Digit.

Definition in_cls (k : cls) (c : N) : bool :=
  match k with
  | Dot => negb (N.eqb c LF)       (* [.] without DOTALL: anything but a newline *)
  | Digit => isdigit c             (* [\d]; ASCII digits, what the [%d] of the messages prints *)
  end.

Inductive atom :=
| Chr (c : N)              (* a literal character *)
| One (k : cls)            (* one character of a class *)
| StarLazy (k : cls)       (* [k*?] *)
| StarGreedy (k : cls)     (* [k*] *)
| GOpen                    (* [(] *)
| GClose.                  (* [)] *)

Definition seq := list atom.
Definition regex := list seq.        (* [a|b|...] *)

(** Group spans closed so far (latest first) and the start of the open group. *)
Record caps := { spans : list (nat * nat); opened : nat }.

(** [match_seq r s pos c]: match [r] against [s], which starts at offset
    [pos] of the subject; the end offset and the groups on success. *)
Fixpoint match_seq (r : seq) : pystr -> nat -> caps -> option (nat * caps) :=
  match r with
  | [] => fun _ pos c => Some (pos, c)
  | a :: r' =>
      let k := match_seq r' in
      match a with
      | Chr x => fun s pos c =>
          match s with
          | y :: s' => if N.eqb y x then k s' (S pos) c else None
          | [] => None
          end
      | One cl => fun s pos c =>
          match s with
          | y :: s' => if in_cls cl y then k s' (S pos) c else None
          | [] => None
          end
      | StarLazy cl =>
          fix loop (s : pystr) : nat -> caps -> option (nat * caps) :=
            fun pos c =>
            match k s pos c with
            | Some res => Some res
            | None =>
                match s with
                | y :: s' => if in_cls cl y then loop s' (S pos) c else None
                | [] => None
                end
            end
      | StarGreedy cl =>
          fix loop (s : pystr) : nat -> caps -> option (nat * caps) :=
            fun pos c =>
            match
              match s with
              | y :: s' => if in_cls cl y then loop s' (S pos) c else None
              | [] => None
              end
            with
            | Some res => Some res
            | None => k s pos c
            end
      | GOpen => fun s pos c => k s pos {| spans := spans c; opened := pos |}
      | GClose => fun s pos c => k s pos {| spans := (opened c, pos) :: spans c; opened := opened c |}
      end
  end.

(** A match object: [m.start()], [m.end()] and the group spans in order. *)
Record mobj := { m_start : nat; m_end : nat; m_groups : list (nat * nat) }.

Fixpoint match_alt (r : regex) (s : pystr) (pos : nat) : option mobj :=
  match r with
  | [] => None
  | alt :: r' =>
      match match_seq alt s pos {| spans := []; opened := pos |} with
      | Some (e, c) => Some {| m_start := pos; m_end := e; m_groups := rev (spans c) |}
      | None => match_alt r' s pos
      end
  end.

(** [re.search(r, s)]: the leftmost match. *)
Fixpoint search_from (r : regex) (s : pystr) (pos : nat) : option mobj :=
  match match_alt r s pos with
  | Some m => Some m
  | None =>
      match s with
      | [] => None
      | _ :: s' => search_from r s' (S pos)
      end
  end.

Definition search (r : regex) (s : pystr) : option mobj := search_from r s 0.

(** [p.finditer(s)]: the non-overlapping matches, left to right.  After a
    match the scan resumes at its end (one further after an empty match). *)
Fixpoint finditer_from (fuel : nat) (r : regex) (s : pystr) (pos : nat) : list mobj :=
  match fuel with
  | 0 => []
  | S fuel' =>
      match match_alt r s pos with
      | Some m =>
          let step := Nat.max 1 (m_end m - pos) in
          m :: (if length s <? step then [] else finditer_from fuel' r (skipn step s) (pos + step))
      | None =>
          match s with
          | [] => []
          | _ :: s' => finditer_from fuel' r s' (S pos)
          end
      end
  end.

Definition finditer (r : regex) (s : pystr) : list mobj :=
  finditer_from (S (length s)) r s 0.

(** [m.group(i)] (1-based) as a substring of the subject [s]. *)
Definition group (s : pystr) (m : mobj) (i : nat) : pystr :=
  match nth_error (m_groups m) (i - 1) with
  | Some (a, b) => slice s a b
  | None => []
  end.

(** A literal string as a pattern fragment. *)
Definition chars (s : String.string) : seq := map Chr (lit s).
Arguments chars s%_string.

End Re.

(* ================================================================= *)
(** ** Exceptions *)

(** The exception classes that reach lucene.py; every one of them is an
    [Exception], so an [except Exception] clause catches them all. *)
Inductive exn :=
| ParseSyntaxError (msg : pystr)            (* luqum.exceptions *)
| IllegalCharacterError (msg : pystr)       (* luqum.exceptions *)
| UnknownLuceneOperatorException            (* apps.exceptions *)
| AttributeError
| TypeError
| IndexError
| OtherException (msg : pystr).

(** The outcome of a call: a value, or an exception on its way up. *)
Inductive outcome (A : Type) :=
| Return (a : A)
| Raise (e : exn).

Arguments Return {A} a.
Arguments Raise {A} e.

Definition bind {A B} (m : outcome A) (k : A -> outcome B) : outcome B :=
  match m with
  | Return a => k a
  | Raise e => Raise e
  end.

Notation "x <- m ;; k" := (bind m (fun x => k))
  (at level 61, m at next level, right associativity).

(* ================================================================= *)
(** ** apps.constants *)

Module constants.

(** Modelled from the spec: apps/constants.py is not among the sources.
    The operator strings are those of the Field record of the data model. *)
Definition DEFAULT_FIELD_OPERATOR : pystr := lit "~=".
Definition FIELD_GROUP_OPERATOR : pystr := lit "()".
Definition NOT_OPERATOR : pystr := lit "NOT".
Definition PLUS_OPERATOR : pystr := lit "+".
Definition PROHIBIT_OPERATOR : pystr := lit "-".

(** Modelled from the spec: the range operator spells the bracket pair,
    a square bracket for an inclusive bound and a brace for an exclusive one. *)
Definition LOW_CHAR (include_low : bool) : pystr := if include_low then lit "[" else lit "{".
Definition HIGH_CHAR (include_high : bool) : pystr := if include_high then lit "]" else lit "}".

(** Modelled from the spec: the syntax kinds are the node classes of the tree. *)
Inductive LuceneSyntaxEnum :=
| WORD | PHRASE | SEARCH_FIELD | FIELD_GROUP | RANGE | FUZZY | REGEX | PROXIMITY
| NOT | PLUS | PROHIBIT.

(** Modelled from the spec: the comparison operators [>=], [<=], [>], [<],
    tried in that order, as one alternation. *)
Definition WORD_RANGE_OPERATORS : Re.regex :=
  [Re.chars ">="; Re.chars "<="; Re.chars ">"; Re.chars "<"].

(** Modelled from the spec: the opening brackets and the bracket each pairs with. *)
Definition BRACKET_DICT : list (N * N) :=
  [(91, 93); (40, 41); (123, 125)]%N.      (* square, round, curly *)

(** Modelled from the spec: the bound on the repair iterations (typically 10). *)
Definition MAX_RESOLVE_TIMES : nat := 10.

End constants.
Import constants.

(* ================================================================= *)
(** ** The luqum tree *)

Local Set Warnings "-register-all".

(** The node classes of luqum.tree with the attributes lucene.py reads:
    [pos], [value], [name], [expr], [children], [operands], [a] and the
    inclusion flags of a range. *)
Inductive Node :=
| Word (pos : nat) (value : pystr)
| Phrase (pos : nat) (value : pystr)
| Regex (pos : nat) (value : pystr)
| SearchField (pos : nat) (name : pystr) (expr : Node)
| FieldGroup (pos : nat) (expr : Node)
| Group (pos : nat) (children : list Node)
| Range (pos : nat) (low high : Node) (include_low include_high : bool)
| Fuzzy (pos : nat) (term : Node) (degree : pystr)
| Proximity (pos : nat) (term : Node) (degree : pystr)
| Boost (pos : nat) (expr : Node) (force : pystr)
| AndOperation (pos : nat) (operands : list Node)
| OrOperation (pos : nat) (operands : list Node)
| UnknownOperation (pos : nat) (operands : list Node)
| Not (pos : nat) (a : Node)
| Plus (pos : nat) (a : Node)
| Prohibit (pos : nat) (a : Node).

(* ================================================================= *)
(** ** LuceneField and LuceneParser *)

Record LuceneField := {
  pos : nat;
  name : pystr;
  type : LuceneSyntaxEnum;
  operator : pystr;
  value : pystr
}.

Definition set_name (f : LuceneField) (n : pystr) : LuceneField :=
  {| pos := pos f; name := n; type := type f; operator := operator f; value := value f |}.

(** What a [parsing_*] handler returns: one field, or a list of fields. *)
Inductive walked :=
| One (field : LuceneField)
| Many (fields : list LuceneField).

(** [fields.extend(r)] for a list [r], [fields.append(r)] otherwise. *)
Definition extend (r : walked) (fields : list LuceneField) : list LuceneField :=
  match r with
  | One f => f :: fields
  | Many fs => fs ++ fields
  end.

(** Attribute access on a handler's result: a list has none of them. *)
Definition attr {A} (get : LuceneField -> A) (r : walked) : outcome A :=
  match r with
  | One f => Return (get f)
  | Many _ => Raise AttributeError
  end.

(** [Counter(names)]: the distinct names in order of first occurrence,
    each with its number of occurrences. *)
Fixpoint counter_add (x : pystr) (c : list (pystr * nat)) : list (pystr * nat) :=
  match c with
  | [] => [(x, 1)]
  | (y, n) :: c' => if pystr_eqb y x then (y, S n) :: c' else (y, n) :: counter_add x c'
  end.

Definition Counter (names : list pystr) : list (pystr * nat) :=
  fold_left (fun c x => counter_add x c) names [].

(** [f"{name}({number})"] *)
Definition numbered (name : pystr) (number : nat) : pystr :=
  name ++ lit "(" ++ str_of_nat number ++ lit ")".

(** The inner loop of [parsing]: every field called [name] gets the next number. *)
Fixpoint rename_from (nm : pystr) (number : nat) (fields : list LuceneField) : list LuceneField :=
  match fields with
  | [] => []
  | f :: fs =>
      if pystr_eqb (name f) nm
      then set_name f (numbered nm number) :: rename_from nm (S number) fs
      else f :: rename_from nm number fs
  end.

(** The outer loop of [parsing], over [names.items()]. *)
Definition rename_duplicates (fields : list LuceneField) : list LuceneField :=
  fold_left (fun fs item => if 1 <? snd item then rename_from (fst item) 1 fs else fs)
            (Counter (map name fields)) fields.

Section LuceneParser.

(** [str(node)], luqum's serializer. *)
Variable node_str : Node -> pystr.
(** Not among the sources: the reserved name of a clause without a field. *)
Variable FULL_TEXT_SEARCH_FIELD_NAME : pystr.

Definition parsing_word (pos : nat) (value : pystr) : LuceneField :=
  let field := {| pos := pos; name := FULL_TEXT_SEARCH_FIELD_NAME; operator := lit "~=";
                  type := WORD; value := value |} in
  match Re.search WORD_RANGE_OPERATORS value with
  | Some m =>
      let operator := slice value (Re.m_start m) (Re.m_end m) in
      {| pos := pos; name := FULL_TEXT_SEARCH_FIELD_NAME; operator := operator;
         type := WORD; value := split_last operator value |}
  | None => field
  end.

(** [_get_method]: dispatch on the class of the node.  A class without a
    [parsing_*] method makes [getattr] raise AttributeError. *)
Fixpoint _get_method (node : Node) : outcome walked :=
  let fix flat_map (nodes : list Node) : outcome (list LuceneField) :=
    match nodes with
    | [] => Return []
    | n :: rest =>
        r <- _get_method n ;;
        fields <- flat_map rest ;;
        Return (extend r fields)
    end in
  match node with
  | Word p v => Return (One (parsing_word p v))
  (* parsing_phrase *)
  | Phrase p v =>
      Return (One {| pos := p; name := FULL_TEXT_SEARCH_FIELD_NAME; operator := lit "=";
                     type := PHRASE; value := v |})
  (* parsing_searchfield *)
  | SearchField p nm expr =>
      new_field <- _get_method expr ;;
      ty <- attr type new_field ;;
      op <- attr operator new_field ;;
      v <- attr value new_field ;;
      Return (One {| pos := p; name := nm; type := ty; operator := op; value := v |})
  (* parsing_fieldgroup *)
  | FieldGroup p expr =>
      Return (One {| pos := p; name := []; type := FIELD_GROUP; operator := FIELD_GROUP_OPERATOR;
                     value := lit "(" ++ node_str expr ++ lit ")" |})
  (* parsing_group *)
  | Group _ children => fields <- flat_map children ;; Return (Many fields)
  (* parsing_range, parsing_fuzzy, parsing_regex, parsing_proximity *)
  | Range p _ _ include_low include_high =>
      Return (One {| pos := p; name := []; type := RANGE;
                     operator := LOW_CHAR include_low ++ HIGH_CHAR include_high;
                     value := node_str node |})
  | Fuzzy p _ _ =>
      Return (One {| pos := p; name := []; operator := DEFAULT_FIELD_OPERATOR;
                     type := FUZZY; value := node_str node |})
  | Regex p _ =>
      Return (One {| pos := p; name := []; operator := DEFAULT_FIELD_OPERATOR;
                     type := REGEX; value := node_str node |})
  | Proximity p _ _ =>
      Return (One {| pos := p; name := FULL_TEXT_SEARCH_FIELD_NAME;
                     operator := DEFAULT_FIELD_OPERATOR; type := PROXIMITY;
                     value := node_str node |})
  (* parsing_oroperation, parsing_andoperation *)
  | OrOperation _ operands => fields <- flat_map operands ;; Return (Many fields)
  | AndOperation _ operands => fields <- flat_map operands ;; Return (Many fields)
  (* parsing_not, parsing_plus, parsing_prohibit *)
  | Not p a =>
      r <- _get_method a ;;
      v <- attr value r ;;
      Return (One {| pos := p; name := FULL_TEXT_SEARCH_FIELD_NAME; operator := NOT_OPERATOR;
                     type := NOT; value := v |})
  | Plus p a =>
      r <- _get_method a ;;
      v <- attr value r ;;
      Return (One {| pos := p; name := FULL_TEXT_SEARCH_FIELD_NAME; operator := PLUS_OPERATOR;
                     type := PLUS; value := v |})
  | Prohibit p a =>
      r <- _get_method a ;;
      v <- attr value r ;;
      Return (One {| pos := p; name := FULL_TEXT_SEARCH_FIELD_NAME;
                     operator := PROHIBIT_OPERATOR; type := PROHIBIT; value := v |})
  (* parsing_unknownoperation *)
  | UnknownOperation _ _ => Raise UnknownLuceneOperatorException
  (* no parsing_boost *)
  | Boost _ _ _ => Raise AttributeError
  end.

(** The loop shared by [parsing_group], [parsing_oroperation] and
    [parsing_andoperation]. *)
Fixpoint flat_map (nodes : list Node) : outcome (list LuceneField) :=
  match nodes with
  | [] => Return []
  | n :: rest =>
      r <- _get_method n ;;
      fields <- flat_map rest ;;
      Return (extend r fields)
  end.

(** [parsing], after [parser.parse] has produced the tree. *)
Definition parsing_tree (tree : Node) : outcome (list LuceneField) :=
  fields <- _get_method tree ;;
  match fields with
  | Many fs =>
      match Counter (map name fs) with
      | [] => Return fs
      | _ => Return (rename_duplicates fs)
      end
  | One f => Return [f]
  end.

End LuceneParser.

(* ================================================================= *)
(** ** Inspectors *)

Record InspectResult := { is_legal : bool; message : pystr }.

(** The instance attributes of an inspector object. *)
Record Inspector := { keyword : pystr; result : InspectResult }.

(** [BaseInspector.__init__] *)
Definition new_inspector (kw : pystr) : Inspector :=
  {| keyword := kw; result := {| is_legal := true; message := [] |} |}.

Definition set_keyword (self : Inspector) (kw : pystr) : Inspector :=
  {| keyword := kw; result := result self |}.

(** [BaseInspector.set_illegal], with the class's [syntax_error_message]. *)
Definition set_illegal (syntax_error_message : pystr) (self : Inspector) : Inspector :=
  {| keyword := keyword self;
     result := {| is_legal := false; message := syntax_error_message |} |}.

(** [BaseInspector.remove_unexpected_character]; [subject] is the text
    the match was found in. *)
Definition remove_unexpected_character (self : Inspector) (subject : pystr) (m : Re.mobj) : Inspector :=
  let unexpect_word_len := length (Re.group subject m 1) in
  let position := int_of (Re.group subject m 2) in
  set_keyword self (cut (keyword self) position unexpect_word_len).

(** [BaseInspector.replace_unexpected_character]: an item assignment on
    a [str], which Python refuses with a TypeError whatever the index. *)
Definition replace_unexpected_character (self : Inspector) (pos : nat) (char : N) : outcome Inspector :=
  Raise TypeError.

(** The inspector classes, in the order of [REGISTERED_INSPECTORS]. *)
Inductive InspectorClass :=
| ChinesePunctuationInspector
| IllegalRangeSyntaxInspector
| IllegalCharacterInspector
| IllegalColonInspector
| IllegalBracketInspector
| UnknownOperatorInspector
| DefaultInspector.

(** The [syntax_error_message] of each class (the message ids, untranslated). *)
Definition syntax_error_message (c : InspectorClass) : pystr :=
  match c with
  | ChinesePunctuationInspector => [20013; 25991; 26631; 28857; 24322; 24120]
  | IllegalCharacterInspector => [24322; 24120; 23383; 31526]
  | IllegalRangeSyntaxInspector => [38750; 27861; 82; 65; 78; 71; 69; 35821; 27861]
  | IllegalBracketInspector => [25324; 21495; 19981; 21305; 37197]
  | IllegalColonInspector => [22810; 20313; 30340; 20882; 21495]
  | UnknownOperatorInspector => [26410; 30693; 25805; 20316; 31526]
  | DefaultInspector => [26410; 30693; 24322; 24120]
  end%N.

(** [chinese_punctuation_re]: one group holding a left curly quote, a lazy
    run of any characters and a right curly quote. *)
Definition chinese_punctuation_re : Re.regex :=
  [[Re.GOpen; Re.Chr LDQUO; Re.StarLazy Re.Dot; Re.Chr RDQUO; Re.GClose]].

(** [illegal_character_re]: the text [Illegal character '], a group with a
    greedy run of any characters, the text [' at position ] and a group
    of one or more digits. *)
Definition illegal_character_re : Re.regex :=
  [Re.chars "Illegal character '" ++ [Re.GOpen; Re.StarGreedy Re.Dot; Re.GClose]
   ++ Re.chars "' at position "
   ++ [Re.GOpen; Re.One Re.Digit; Re.StarGreedy Re.Digit; Re.GClose]].

(** [unexpect_word_re]: the text [Syntax error in input : unexpected  '],
    then the same two groups. *)
Definition unexpect_word_re : Re.regex :=
  [Re.chars "Syntax error in input : unexpected  '" ++ [Re.GOpen; Re.StarGreedy Re.Dot; Re.GClose]
   ++ Re.chars "' at position "
   ++ [Re.GOpen; Re.One Re.Digit; Re.StarGreedy Re.Digit; Re.GClose]].

(** [range_re]: one group holding an opening square bracket, a lazy run,
    the text [TO], a lazy run and a closing square bracket. *)
Definition range_re : Re.regex :=
  [[Re.GOpen; Re.Chr 91; Re.StarLazy Re.Dot] ++ Re.chars "TO"
   ++ [Re.StarLazy Re.Dot; Re.Chr 93; Re.GClose]].

(** [single_range_re]: the same shape with two greedy groups, before and
    after [TO]. *)
Definition single_range_re : Re.regex :=
  [[Re.Chr 91; Re.GOpen; Re.StarGreedy Re.Dot; Re.GClose] ++ Re.chars "TO"
   ++ [Re.GOpen; Re.StarGreedy Re.Dot; Re.GClose; Re.Chr 93]].

(** The message both the colon and the bracket inspector compare with. *)
Definition unexpect_unmatched_re : pystr :=
  lit "Syntax error in input : unexpected end of expression (maybe due to unmatched parenthesis) at the end!".

(** *** ChinesePunctuationInspector *)

Definition inspect_chinese_punctuation (self : Inspector) : outcome Inspector :=
  match Re.finditer chinese_punctuation_re (keyword self) with
  | [] => Return self
  | _ =>
      self' <- fold_left
                 (fun acc m =>
                    self1 <- acc ;;
                    self2 <- replace_unexpected_character self1 (Re.m_start m) DQUOTE ;;
                    replace_unexpected_character self2 (Re.m_end m) DQUOTE)
                 (Re.finditer chinese_punctuation_re (keyword self)) (Return self) ;;
      Return (set_illegal (syntax_error_message ChinesePunctuationInspector) self')
  end.

(** *** IllegalRangeSyntaxInspector *)

(** The loop of [resolve]: [i] is the index of the current match, [n]
    the number of matches, [prev_end] the end of the match before it. *)
Fixpoint resolve_ranges (kw : pystr) (i n prev_end : nat) (match_groups : list (nat * nat))
         (remain_keyword : list pystr) : list pystr :=
  match match_groups with
  | [] => remain_keyword
  | (st, en) :: rest =>
      let remain1 :=
        remain_keyword ++ [if i =? 0 then firstn st kw else slice kw prev_end st] in
      let sub := slice kw st en in
      (* the last match is followed by the rest of the keyword *)
      let with_tail remain :=
        if i =? n - 1 then remain ++ [skipn en kw] else remain in
      match Re.search single_range_re sub with
      | Some m =>
          let start := strip (Re.group sub m 1) in
          let end_ := strip (Re.group sub m 2) in
          match start, end_ with
          | _ :: _, _ :: _ =>
              (* [continue]: nothing more is appended for this match *)
              resolve_ranges kw (S i) n en rest remain1
          | _, _ =>
              let start := match start with [] => lit "*" | _ => start end in
              let end_ := match end_ with [] => lit "*" | _ => end_ end in
              resolve_ranges kw (S i) n en rest
                (with_tail (remain1 ++ [lit "[" ++ start ++ lit " TO " ++ end_ ++ lit "]"]))
          end
      | None => resolve_ranges kw (S i) n en rest (with_tail remain1)
      end
  end.

Definition range_resolve (self : Inspector) (match_groups : list (nat * nat)) : Inspector :=
  set_keyword self
    (join [] (resolve_ranges (keyword self) 0 (length match_groups) 0 match_groups [])).

(** *** IllegalBracketInspector *)

Definition is_open (symbol : N) : bool := existsb (fun kv => N.eqb (fst kv) symbol) BRACKET_DICT.
Definition is_close (symbol : N) : bool := existsb (fun kv => N.eqb (snd kv) symbol) BRACKET_DICT.

(** [BRACKET_DICT.get(symbol, empty) == other] *)
Definition pairs_with (symbol other : N) : bool :=
  match List.find (fun kv => N.eqb (fst kv) symbol) BRACKET_DICT with
  | Some kv => N.eqb (snd kv) other
  | None => false
  end.

(** [kw[:index] + kw[index + 1:]] *)
Definition drop_at (kw : pystr) (index : nat) : pystr := firstn index kw ++ skipn (index + 1) kw.

(** The step after a closing bracket that does not pair with [s[-1]] was
    pushed: [s[-2]] is dropped when the new top pairs with [s[0]],
    [s[-1]] otherwise.  The deque [s] is a list with its right end last. *)
Definition bracket_mismatch (msg : pystr) (self : Inspector) (s : list (N * nat))
  : outcome Inspector :=
  match s, rev s with
  | bottom :: _, top :: below =>
      if pairs_with (fst bottom) (fst top)
      then match below with
           | second :: _ =>
               Return (set_illegal msg (set_keyword self (drop_at (keyword self) (snd second))))
           | [] => Raise IndexError
           end
      else Return (set_illegal msg (set_keyword self (drop_at (keyword self) (snd top))))
  | _, _ => Raise IndexError
  end.

(** The scan of the bracket inspector; [rest] is the keyword from [index] on. *)
Fixpoint bracket_scan (msg : pystr) (self : Inspector) (rest : pystr) (index : nat)
         (s : list (N * nat)) : outcome Inspector :=
  match rest with
  | [] =>
      match rev s with
      | [] => Return self
      | top :: _ => Return (set_illegal msg (set_keyword self (drop_at (keyword self) (snd top))))
      end
  | symbol :: rest' =>
      if is_open symbol then bracket_scan msg self rest' (S index) (s ++ [(symbol, index)])
      else if is_close symbol then
        match rev s with
        | top :: _ =>
            if pairs_with (fst top) symbol
            then bracket_scan msg self rest' (S index) (removelast s)
            else bracket_mismatch msg self (s ++ [(symbol, index)])
        | [] => bracket_mismatch msg self (s ++ [(symbol, index)])
        end
      else bracket_scan msg self rest' (S index) s
  end.

(** *** The inspectors that parse *)

Section Inspect.

(** [parser.parse(keyword, lexer=lexer)] *)
Variable parse : pystr -> outcome Node.
(** [str(node)] *)
Variable node_str : Node -> pystr.
(** [UnknownOperationResolver()], applied to a tree. *)
Variable unknown_operation_resolver : Node -> Node.
Variable FULL_TEXT_SEARCH_FIELD_NAME : pystr.

(** [LuceneParser(keyword).parsing()] *)
Definition parsing (kw : pystr) : outcome (list LuceneField) :=
  tree <- parse kw ;;
  parsing_tree node_str FULL_TEXT_SEARCH_FIELD_NAME tree.

Definition inspect_illegal_range (self : Inspector) : outcome Inspector :=
  match parse (keyword self) with
  | Raise (ParseSyntaxError e) =>
      match Re.search unexpect_word_re e with
      | Some m =>
          if pystr_eqb (Re.group e m 1) (lit "TO") then
            match map (fun m => (Re.m_start m, Re.m_end m)) (Re.finditer range_re (keyword self)) with
            | [] => Return self
            | match_groups =>
                Return (set_illegal (syntax_error_message IllegalRangeSyntaxInspector)
                                    (range_resolve self match_groups))
            end
          else Return self
      | None => Return self
      end
  | Raise _ => Return self
  | Return _ => Return self
  end.

Definition inspect_illegal_character (self : Inspector) : outcome Inspector :=
  match parse (keyword self) with
  | Raise (IllegalCharacterError e) =>
      match Re.search illegal_character_re e with
      | Some m => Return (set_illegal (syntax_error_message IllegalCharacterInspector)
                                      (remove_unexpected_character self e m))
      | None => Return self
      end
  | Raise (ParseSyntaxError e) =>
      match Re.search unexpect_word_re e with
      | Some m => Return (set_illegal (syntax_error_message IllegalCharacterInspector)
                                      (remove_unexpected_character self e m))
      | None => Return self
      end
  | Raise _ => Return self
  | Return _ => Return self
  end.

Definition inspect_illegal_colon (self : Inspector) : outcome Inspector :=
  match parse (keyword self) with
  | Raise (ParseSyntaxError e) =>
      if pystr_eqb e unexpect_unmatched_re then
        if (find 58 (keyword self) =? Z.of_nat (length (keyword self)) - 1)%Z
        then Return (set_illegal (syntax_error_message IllegalColonInspector)
                                 (set_keyword self (removelast (keyword self))))
        else Return self
      else Return self
  | Raise _ => Return self
  | Return _ => Return self
  end.

Definition inspect_illegal_bracket (self : Inspector) : outcome Inspector :=
  match parse (keyword self) with
  | Raise (ParseSyntaxError e) =>
      if pystr_eqb e unexpect_unmatched_re
      then bracket_scan (syntax_error_message IllegalBracketInspector) self (keyword self) 0 []
      else Return self
  | Raise _ => Return self
  | Return _ => Return self
  end.

Definition inspect_unknown_operator (self : Inspector) : outcome Inspector :=
  match parse (keyword self) with
  | Raise UnknownLuceneOperatorException =>
      (* the handler parses again, outside any [try] *)
      tree <- parse (keyword self) ;;
      Return (set_illegal (syntax_error_message UnknownOperatorInspector)
                          (set_keyword self (node_str (unknown_operation_resolver tree))))
  | Raise _ => Return self
  | Return _ => Return self
  end.

Definition inspect_default (self : Inspector) : outcome Inspector :=
  match (_ <- parse (keyword self) ;; parsing (keyword self)) with
  | Return _ => Return self
  | Raise _ => Return (set_illegal (syntax_error_message DefaultInspector) self)
  end.

(** [inspector_class(keyword).inspect()], returning the inspector. *)
Definition inspect (c : InspectorClass) (kw : pystr) : outcome Inspector :=
  let self := new_inspector kw in
  match c with
  | ChinesePunctuationInspector => inspect_chinese_punctuation self
  | IllegalRangeSyntaxInspector => inspect_illegal_range self
  | IllegalCharacterInspector => inspect_illegal_character self
  | IllegalColonInspector => inspect_illegal_colon self
  | IllegalBracketInspector => inspect_illegal_bracket self
  | UnknownOperatorInspector => inspect_unknown_operator self
  | DefaultInspector => inspect_default self
  end.

(* ================================================================= *)
(** ** LuceneSyntaxResolver *)

Definition REGISTERED_INSPECTORS : list InspectorClass :=
  [ChinesePunctuationInspector; IllegalRangeSyntaxInspector; IllegalCharacterInspector;
   IllegalColonInspector; IllegalBracketInspector; UnknownOperatorInspector; DefaultInspector].

(** The instance attributes of the resolver. *)
Record Resolver := { r_keyword : pystr; r_messages : list pystr }.

(** The loop of [LuceneSyntaxResolver.inspect] over the inspector classes:
    the keyword and the local [messages] after it. *)
Fixpoint run_inspectors (classes : list InspectorClass) (kw : pystr) (messages : list pystr)
  : outcome (pystr * list pystr) :=
  match classes with
  | [] => Return (kw, messages)
  | c :: rest =>
      inspector <- inspect c kw ;;
      run_inspectors rest (keyword inspector)
        (if is_legal (result inspector) then messages
         else messages ++ [message (result inspector)])
  end.

(** [LuceneSyntaxResolver.inspect]: [true] for [return True], [false] for
    falling off the end (None), with the resolver after the call. *)
Definition resolver_inspect (self : Resolver) : outcome (bool * Resolver) :=
  r <- run_inspectors REGISTERED_INSPECTORS (r_keyword self) [] ;;
  match snd r with
  | [] => Return (true, {| r_keyword := fst r; r_messages := r_messages self |})
  | messages => Return (false, {| r_keyword := fst r; r_messages := r_messages self ++ messages |})
  end.

(** The loop of [resolve]: [is_resolved] and the resolver after at most
    [times] calls of [inspect]. *)
Fixpoint resolve_loop (times : nat) (self : Resolver) : outcome (bool * Resolver) :=
  match times with
  | 0 => Return (false, self)
  | S times' =>
      r <- resolver_inspect self ;;
      if fst r then Return (true, snd r) else resolve_loop times' (snd r)
  end.

(** [set(messages)], listed in order of first occurrence (Python leaves
    the order of a set open). *)
Fixpoint dedup (l : list pystr) : list pystr :=
  match l with
  | [] => []
  | x :: l' => x :: filter (fun y => negb (pystr_eqb x y)) (dedup l')
  end.

(** The dict [resolve] returns. *)
Record RepairResult := {
  rr_is_legal : bool;
  rr_is_resolved : bool;
  rr_message : pystr;
  rr_keyword : pystr
}.

(** The diagnostics [resolve] reports: the message set, without the
    default inspector's message when the loop ended on a clean pass. *)
Definition final_messages (is_resolved : bool) (messages : list pystr) : list pystr :=
  let messages := dedup messages in
  if is_resolved && existsb (pystr_eqb (syntax_error_message DefaultInspector)) messages
  then filter (fun m => negb (pystr_eqb (syntax_error_message DefaultInspector) m)) messages
  else messages.

(** [LuceneSyntaxResolver(keyword).resolve()] *)
Definition resolve (kw : pystr) : outcome RepairResult :=
  r <- resolve_loop MAX_RESOLVE_TIMES {| r_keyword := kw; r_messages := [] |} ;;
  let is_resolved := fst r in
  let messages := final_messages is_resolved (r_messages (snd r)) in
  Return {| rr_is_legal := match messages with [] => true | _ => false end;
            rr_is_resolved := is_resolved;
            rr_message := join [LF] messages;
            rr_keyword := r_keyword (snd r) |}.

(** The diagnostics of [resolve] as a list. *)
Definition resolve_messages (kw : pystr) : outcome (list pystr) :=
  r <- resolve_loop MAX_RESOLVE_TIMES {| r_keyword := kw; r_messages := [] |} ;;
  Return (final_messages (fst r) (r_messages (snd r))).

End Inspect.

(** *** The messages of luqum's [p_error]

    [p_error] raises ParseSyntaxError with one of two texts: at a token
    [tok] at offset [pos] that the grammar does not expect, and at the end
    of the input (the text the colon and bracket inspectors compare with). *)
Definition unexpected (tok : pystr) (pos : nat) : exn :=
  ParseSyntaxError (lit "Syntax error in input : unexpected  '" ++ tok ++ lit "' at position "
                    ++ str_of_nat pos ++ lit "!").

Definition end_of_expression : exn := ParseSyntaxError unexpect_unmatched_re.

(* ================================================================= *)
(** ** An instance of the luqum interface

    The outcomes of luqum's parser on the queries of the scenarios, a
    serializer and an operation resolver: they instantiate the section
    variables where a statement is tried on a concrete query.  No
    statement below evaluates the parser outside the table. *)
Module Sample.

Definition lookup (table : list (pystr * outcome Node)) (kw : pystr) : option (outcome Node) :=
  option_map snd (List.find (fun entry => pystr_eqb (fst entry) kw) table).

(** A parser that answers from [table] and from [otherwise] elsewhere. *)
Definition patched (table : list (pystr * outcome Node)) (otherwise : pystr -> outcome Node)
  (kw : pystr) : outcome Node :=
  match lookup table kw with
  | Some r => r
  | None => otherwise kw
  end.

Definition a_and_b (at_ : nat) : Node :=
  AndOperation at_ [Word at_ (lit "a"); Word (at_ + 6) (lit "b")].

Definition table : list (pystr * outcome Node) :=
  [ ([], Raise end_of_expression);
    (lit "foo", Return (Word 0 (lit "foo")));
    (lit "foo:", Raise end_of_expression);
    (lit "a:b:", Raise end_of_expression);
    (lit "foo bar", Return (UnknownOperation 0 [Word 0 (lit "foo"); Word 4 (lit "bar")]));
    (lit "ts: [ TO 100]", Raise (unexpected (lit "TO") 6));
    (lit "ts: [* TO 100]",
     Return (SearchField 0 (lit "ts") (Range 4 (Word 5 (lit "*")) (Word 10 (lit "100")) true true)));
    (lit "a: [1 TO 2] AND b: [ TO 3]", Raise (unexpected (lit "TO") 21));
    (lit "((a AND b)", Raise end_of_expression);
    (lit "(a AND b)", Return (Group 0 [a_and_b 1]));
    (lit "NOT (a AND b)", Return (Not 0 (Group 4 [a_and_b 5])));
    (lit "NOT (a b)",
     Return (Not 0 (Group 4 [UnknownOperation 5 [Word 5 (lit "a"); Word 7 (lit "b")]])));
    (lit "f:(NOT (a AND b))",
     Return (SearchField 0 (lit "f") (FieldGroup 2 (Not 3 (Group 7 [a_and_b 8]))))) ].

Definition parse : pystr -> outcome Node := patched table (fun _ => Raise end_of_expression).

(** A serializer for trees without surrounding blanks. *)
Fixpoint node_str (n : Node) : pystr :=
  let sep s := fix go (l : list Node) : pystr :=
    match l with
    | [] => []
    | [x] => node_str x
    | x :: rest => node_str x ++ s ++ go rest
    end in
  match n with
  | Word _ v | Phrase _ v | Regex _ v => v
  | SearchField _ nm e => nm ++ lit ":" ++ node_str e
  | FieldGroup _ e => lit "(" ++ node_str e ++ lit ")"
  | Group _ l => lit "(" ++ sep (lit " ") l ++ lit ")"
  | Range _ lo hi il ih =>
      LOW_CHAR il ++ node_str lo ++ lit " TO " ++ node_str hi ++ HIGH_CHAR ih
  | Fuzzy _ t d | Proximity _ t d => node_str t ++ lit "~" ++ d
  | Boost _ e f => node_str e ++ lit "^" ++ f
  | AndOperation _ l => sep (lit " AND ") l
  | OrOperation _ l => sep (lit " OR ") l
  | UnknownOperation _ l => sep (lit " ") l
  | Not _ a => lit "NOT " ++ node_str a
  | Plus _ a => lit "+" ++ node_str a
  | Prohibit _ a => lit "-" ++ node_str a
  end.

(** Every unknown operation becomes a conjunction. *)
Fixpoint resolver (n : Node) : Node :=
  match n with
  | SearchField p nm e => SearchField p nm (resolver e)
  | FieldGroup p e => FieldGroup p (resolver e)
  | Group p l => Group p (map resolver l)
  | AndOperation p l => AndOperation p (map resolver l)
  | OrOperation p l => OrOperation p (map resolver l)
  | UnknownOperation p l => AndOperation p (map resolver l)
  | Not p a => Not p (resolver a)
  | Plus p a => Plus p (resolver a)
  | Prohibit p a => Prohibit p (resolver a)
  | other => other
  end.

Definition full_text : pystr := lit "*".

End Sample.

(* ================================================================= *)
(** ** The statements' vocabulary *)

(** *** Unary operators over a group *)

Inductive unary := UNot | UPlus | UProhibit.

Definition apply_unary (u : unary) (p : nat) (a : Node) : Node :=
  match u with
  | UNot => Not p a
  | UPlus => Plus p a
  | UProhibit => Prohibit p a
  end.

(** [Visits root n]: the field walk from [root] calls [_get_method] on
    [n].  It descends into the expression of a search field, the operand
    of a unary operator and, in order, the children of a group or of a
    boolean operation as long as the earlier ones return; it does not
    enter a field group, whose content is only serialized. *)
Inductive Visits (node_str : Node -> pystr) (ft : pystr) : Node -> Node -> Prop :=
| visits_root n : Visits node_str ft n n
| visits_field p nm e n : Visits node_str ft e n -> Visits node_str ft (SearchField p nm e) n
| visits_unary u p a n : Visits node_str ft a n -> Visits node_str ft (apply_unary u p a) n
| visits_group p before c after fields n :
    flat_map node_str ft before = Return fields ->
    Visits node_str ft c n -> Visits node_str ft (Group p (before ++ c :: after)) n
| visits_and p before c after fields n :
    flat_map node_str ft before = Return fields ->
    Visits node_str ft c n -> Visits node_str ft (AndOperation p (before ++ c :: after)) n
| visits_or p before c after fields n :
    flat_map node_str ft before = Return fields ->
    Visits node_str ft c n -> Visits node_str ft (OrOperation p (before ++ c :: after)) n.

(** *** The bracket scan in the words of the specification *)

(** The stack holds (bracket, index) entries, the top first. *)
Definition bracket_stack := list (N * nat).

(** A closing bracket [c] at [index] was pushed on [stack]: when the new
    top pairs with the bottom of the stack, which then has two entries or
    more, the second entry from the top is the one to remove, and the
    new top otherwise. *)
Definition after_push (c : N) (index : nat) (stack : bracket_stack) : nat :=
  match stack with
  | second :: _ =>
      if pairs_with (fst (last stack second)) c then snd second else index
  | [] => index
  end.

(** The index of the bracket one invocation removes, if any. *)
Fixpoint offending_from (rest : pystr) (index : nat) (stack : bracket_stack) : option nat :=
  match rest with
  | [] =>
      match stack with
      | top :: _ => Some (snd top)
      | [] => None
      end
  | c :: rest' =>
      if is_open c then offending_from rest' (S index) ((c, index) :: stack)
      else if is_close c then
        match stack with
        | top :: below =>
            if pairs_with (fst top) c then offending_from rest' (S index) below
            else Some (after_push c index stack)
        | [] => Some (after_push c index stack)
        end
      else offending_from rest' (S index) stack
  end.

Definition offending_bracket (kw : pystr) : option nat := offending_from kw 0 [].

(** *** The renaming in the words of the specification *)

(** The number of occurrences of [x] in [l]. *)
Definition occurrences (x : pystr) (l : list pystr) : nat :=
  length (filter (pystr_eqb x) l).

(** A name that occurs more than once in [all] becomes [name(k)], [k]
    counting its occurrences so far; a name that occurs once stays.
    [seen] holds the names already passed. *)
Fixpoint renamed_names (all seen l : list pystr) : list pystr :=
  match l with
  | [] => []
  | x :: l' =>
      (if 1 <? occurrences x all then numbered x (S (occurrences x seen)) else x)
        :: renamed_names all (x :: seen) l'
  end.

(** A name of the shape the renaming produces: it ends in an opening
    parenthesis, one or more digits and a closing parenthesis. *)
Fixpoint drop_digits (s : pystr) : pystr :=
  match s with
  | c :: s' => if isdigit c then drop_digits s' else s
  | [] => []
  end.

Definition looks_numbered (nm : pystr) : bool :=
  match rev nm with
  | close :: d :: r =>
      N.eqb close 41 && isdigit d
      && match drop_digits r with
         | open :: _ => N.eqb open 40
         | [] => false
         end
  | _ => false
  end.

(** The fields a handler's result stands for in the list [parsing] returns. *)
Definition fields_of (w : walked) : list LuceneField :=
  match w with
  | One f => [f]
  | Many fs => fs
  end.

(** Everything of a field but its name. *)
Definition unnamed (f : LuceneField) : nat * LuceneSyntaxEnum * pystr * pystr :=
  (pos f, type f, operator f, value f).

(** A field with only a name, for statements about names. *)
Definition named (nm : pystr) : LuceneField :=
  {| pos := 0; name := nm; type := WORD; operator := lit "~="; value := [] |}.

(** [rename_from] and the outer loop's step, on the names alone. *)
Fixpoint rename_names (nm : pystr) (number : nat) (l : list pystr) : list pystr :=
  match l with
  | [] => []
  | x :: l' =>
      if pystr_eqb x nm then numbered nm number :: rename_names nm (S number) l'
      else x :: rename_names nm number l'
  end.

Definition rename_step (l : list pystr) (item : pystr * nat) : list pystr :=
  if 1 <? snd item then rename_names (fst item) 1 l else l.

(** The names while the outer loop runs: those in [done] are numbered. *)
Fixpoint partly_renamed (done seen l : list pystr) : list pystr :=
  match l with
  | [] => []
  | x :: l' =>
      (if existsb (pystr_eqb x) done then numbered x (S (occurrences x seen)) else x)
        :: partly_renamed done (x :: seen) l'
  end.

(** What the inspector is after the bracket scan, by the index to remove. *)
Definition bracket_verdict (msg : pystr) (self : Inspector) (o : option nat) : Inspector :=
  match o with
  | Some i => set_illegal msg (set_keyword self (drop_at (keyword self) i))
  | None => self
  end.

(** Two outcomes of a handler that a caller cannot tell apart by shape:
    one field each, a list each, or the same exception. *)
Definition same_shape (o1 o2 : outcome walked) : Prop :=
  match o1, o2 with
  | Return (One _), Return (One _) => True
  | Return (Many _), Return (Many _) => True
  | Raise e1, Raise e2 => e1 = e2
  | _, _ => False
  end.

(** Two outcomes that both return, or raise the same exception. *)
Definition same_fate {A} (o1 o2 : outcome A) : Prop :=
  match o1, o2 with
  | Return _, Return _ => True
  | Raise e1, Raise e2 => e1 = e2
  | _, _ => False
  end.

Definition all_digits (s : pystr) : Prop := Forall (fun c => isdigit c = true) s.

(** A name that is not of the numbered shape. *)
Definition plain (x : pystr) : Prop := looks_numbered x = false.

(** An entry of the bracket stack records a bracket of the keyword and its index. *)
Definition records (kw : pystr) (entry : N * nat) : Prop :=
  nth_error kw (snd entry) = Some (fst entry)
  /\ (is_open (fst entry) || is_close (fst entry)) = true.

(** The counter built from the names [seen] is exact. *)
Definition exact_counter (c : list (pystr * nat)) (seen : list pystr) : Prop :=
  NoDup (map fst c)
  /\ (forall k n, In (k, n) c -> n = occurrences k seen)
  /\ (forall k, In k (map fst c) <-> In k seen).

(* ================================================================= *)
(** ** More vocabulary *)

(** The exceptions the field walk itself raises. *)
Definition walk_exception (e : exn) : Prop :=
  e = AttributeError \/ e = UnknownLuceneOperatorException.

(** A node whose handler flat-maps over a list of operands. *)
Inductive container : Node -> list Node -> Prop :=
| container_group p l : container (Group p l) l
| container_and p l : container (AndOperation p l) l
| container_or p l : container (OrOperation p l) l.

(** *** Names as the lexer delivers them *)

(** In a term of luqum's lexer a parenthesis only occurs escaped, right
    after a backslash; the name of a search field is a term.
    [guarded_from prev s]: every closing parenthesis of [s] follows a
    backslash, [prev] being the character before [s]. *)
Fixpoint guarded_from (prev : N) (s : pystr) : bool :=
  match s with
  | [] => true
  | c :: s' => (negb (N.eqb c 41) || N.eqb prev 92) && guarded_from c s'
  end.

Definition term_name (nm : pystr) : bool := guarded_from 0 nm.

(** Every search field of the tree has such a name. *)
Fixpoint lexed (n : Node) : bool :=
  match n with
  | Word _ _ | Phrase _ _ | Regex _ _ => true
  | SearchField _ nm e => term_name nm && lexed e
  | FieldGroup _ e | Boost _ e _ | Fuzzy _ e _ | Proximity _ e _ => lexed e
  | Range _ lo hi _ _ => lexed lo && lexed hi
  | Group _ l | AndOperation _ l | OrOperation _ l | UnknownOperation _ l => forallb lexed l
  | Not _ a | Plus _ a | Prohibit _ a => lexed a
  end.

(** *** Exceptions no inspector has a handler for *)

(** An exception of the parser other than its two syntax errors and the
    application's unknown-operator exception: only the [except
    Exception] clauses catch it. *)
Definition unexpected_exception (e : exn) : bool :=
  match e with
  | ParseSyntaxError _ | IllegalCharacterError _ | UnknownLuceneOperatorException => false
  | _ => true
  end.

(** *** Messages that name a token and its position *)

(** The text both patterns of the character inspector look for: a head
    that ends in a quote, the token, the position, and what follows. *)
Definition positioned (head tok : pystr) (pos : nat) (trailer : pystr) : pystr :=
  head ++ tok ++ lit "' at position " ++ str_of_nat pos ++ trailer.

Definition unexpected_head : pystr := lit "Syntax error in input : unexpected  '".
Definition illegal_head : pystr := lit "Illegal character '".

(** The pattern for a head: the head, a group with a greedy run, the
    text between token and position, a group of digits. *)
Definition positioned_re (head : pystr) : Re.regex :=
  [map Re.Chr head ++ [Re.GOpen; Re.StarGreedy Re.Dot; Re.GClose]
   ++ Re.chars "' at position "
   ++ [Re.GOpen; Re.One Re.Digit; Re.StarGreedy Re.Digit; Re.GClose]].

(** The text ends, or goes on with an ASCII character that is no digit. *)
Definition clear_of_digits (s : pystr) : bool :=
  match s with
  | c :: _ => negb (isdigit c) && (c <? 128)%N
  | [] => true
  end.

(** The single quote. *)
Definition QUOTE : N := 39.

(** [c not in s] *)
Definition without (c : N) (s : pystr) : bool := forallb (fun x => negb (N.eqb x c)) s.

(** The colon. *)
Definition COLON : N := 58.

(** *** The range repair in closed form *)

(** A matched range whose two endpoints are both there. *)
Definition wellformed_range (sub : pystr) : bool :=
  match Re.search single_range_re sub with
  | Some m =>
      match strip (Re.group sub m 1), strip (Re.group sub m 2) with
      | _ :: _, _ :: _ => true
      | _, _ => false
      end
  | None => false
  end.

(** What stands for a matched range [sub] in the rebuilt keyword: the
    range with a star for a missing endpoint, and nothing for a range
    with both endpoints. *)
Definition range_fix (sub : pystr) : pystr :=
  match Re.search single_range_re sub with
  | Some m =>
      match strip (Re.group sub m 1), strip (Re.group sub m 2) with
      | _ :: _, _ :: _ => []
      | start, end_ =>
          lit "[" ++ match start with [] => lit "*" | _ => start end
          ++ lit " TO " ++ match end_ with [] => lit "*" | _ => end_ end ++ lit "]"
      end
  | None => []
  end.

(** The rebuilt keyword from [prev_end] on: the text before each match
    and what stands for the match; the text after the last match, unless
    that match has both endpoints. *)
Fixpoint spliced (kw : pystr) (prev_end : nat) (spans : list (nat * nat)) : pystr :=
  match spans with
  | [] => []
  | (st, en) :: rest =>
      slice kw prev_end st ++ range_fix (slice kw st en)
      ++ match rest with
         | [] => if wellformed_range (slice kw st en) then [] else skipn en kw
         | _ => spliced kw en rest
         end
  end.

(** *** Balanced brackets *)

(** A keyword whose brackets are balanced: every opening bracket is
    closed by its own closing bracket, properly nested. *)
Inductive balanced : pystr -> Prop :=
| balanced_nil : balanced []
| balanced_other c s :
    is_open c = false -> is_close c = false -> balanced s -> balanced (c :: s)
| balanced_pair o c s1 s2 :
    pairs_with o c = true -> balanced s1 -> balanced s2 -> balanced (o :: s1 ++ c :: s2).

(** [closes stack s]: [s] closes the open brackets of [stack], the top
    first, with balanced text before, between and after them. *)
Fixpoint closes (stack : list N) (s : pystr) : Prop :=
  match stack with
  | [] => balanced s
  | o :: below =>
      exists s1 c s2,
        s = s1 ++ c :: s2 /\ balanced s1 /\ pairs_with o c = true /\ closes below s2
  end.

(** *** The trees the field walk accepts *)

(** A node whose handler returns one field, not a list. *)
Definition single (n : Node) : bool :=
  match n with
  | Group _ _ | AndOperation _ _ | OrOperation _ _ => false
  | _ => true
  end.

(** No node the walk visits is an unknown operation or a boost, and
    every search field and unary operator it visits stands over a node
    that yields one field.  The content of a field group is not visited. *)
Fixpoint walkable (n : Node) : bool :=
  match n with
  | Word _ _ | Phrase _ _ | Regex _ _ | FieldGroup _ _ | Range _ _ _ _ _
  | Fuzzy _ _ _ | Proximity _ _ _ => true
  | SearchField _ _ e => single e && walkable e
  | Group _ l | AndOperation _ l | OrOperation _ l => forallb walkable l
  | Not _ a | Plus _ a | Prohibit _ a => single a && walkable a
  | UnknownOperation _ _ | Boost _ _ _ => false
  end.

(** What the walk of a node comes to: one field from a single node, a
    list from a group or a boolean operation, an exception from a tree
    that is not walkable. *)
Definition walk_verdict (n : Node) (o : outcome walked) : Prop :=
  match o with
  | Return (One _) => walkable n = true /\ single n = true
  | Return (Many _) => walkable n = true /\ single n = false
  | Raise e => walkable n = false /\ walk_exception e
  end.

(** A message of the five classes that can report. *)
Definition reportable (m : pystr) : Prop :=
  exists c, c <> ChinesePunctuationInspector /\ c <> UnknownOperatorInspector
            /\ m = syntax_error_message c.

(** *** Occurrences of a separator *)

(** [sep in s] *)
Definition occurs (sep s : pystr) : Prop := exists a b, s = a ++ sep ++ b.

(* ================================================================= *)
(** ** collector_checker/base.py: Report *)

Module Checker.

(** Python lists are objects.  A report holds references to its lists,
    and the constructor keeps a list it is given, so two references can
    be to one list; the store gives the content of every list. *)
Definition ref := nat.
Definition store := list (list pystr).

Definition content (st : store) (r : ref) : list pystr := nth r st [].

(** A new list object. *)
Definition alloc (st : store) (l : list pystr) : store * ref := (st ++ [l], length st).

Fixpoint assign (st : store) (r : ref) (l : list pystr) : store :=
  match st, r with
  | [], _ => []
  | _ :: st', 0 => l :: st'
  | x :: st', S r' => x :: assign st' r' l
  end.

(** [lst.append(message)] *)
Definition append (st : store) (r : ref) (message : pystr) : store :=
  assign st r (content st r ++ [message]).

(** [lst.extend(other)]; [other] may be [lst] itself. *)
Definition extend (st : store) (r other : ref) : store :=
  assign st r (content st r ++ content st other).

(** The truth value of an argument that is [None] or a list. *)
Definition truthy (st : store) (arg : option ref) : bool :=
  match arg with
  | Some r => match content st r with [] => false | _ :: _ => true end
  | None => false
  end.

(** An argument is [None] or a list of the store. *)
Definition known (st : store) (arg : option ref) : bool :=
  match arg with
  | Some r => r <? length st
  | None => true
  end.

(** The attributes of a report; [error] can be [None]. *)
Record Report := { name : pystr; info : ref; warning : ref; error : option ref }.

(** [arg if arg else []]: the list given, or a new empty list. *)
Definition or_new_list (st : store) (arg : option ref) : store * ref :=
  match arg with
  | Some r => if truthy st arg then (st, r) else alloc st []
  | None => alloc st []
  end.

(** [Report.__init__]; the last assignment tests [warning], not [error]. *)
Definition __init__ (st : store) (name : pystr) (info warning error : option ref)
  : store * Report :=
  let (st1, i) := or_new_list st info in
  let (st2, w) := or_new_list st1 warning in
  let (st3, e) :=
    if truthy st2 warning then (st2, error)
    else let (st', r) := alloc st2 [] in (st', Some r) in
  (st3, {| name := name; info := i; warning := w; error := e |}).

(** [self.error != []]: [None] is not the empty list. *)
Definition has_problem (st : store) (self : Report) : bool :=
  match error self with
  | Some r => match content st r with [] => false | _ :: _ => true end
  | None => true
  end.

Definition add_info (st : store) (self : Report) (message : pystr) : store :=
  append st (info self) message.

Definition add_warning (st : store) (self : Report) (message : pystr) : store :=
  append st (warning self) message.

(** The store after the call and its outcome: [None] has no [append]. *)
Definition add_error (st : store) (self : Report) (message : pystr) : store * outcome unit :=
  match error self with
  | Some r => (append st r message, Return tt)
  | None => (st, Raise AttributeError)
  end.

(** [add_report]: three [extend] calls in a row.  [None] has no
    [extend], and [extend(None)] is a TypeError; either comes after the
    first two lists were extended. *)
Definition add_report (st : store) (self report : Report) : store * outcome unit :=
  let st1 := extend st (info self) (info report) in
  let st2 := extend st1 (warning self) (warning report) in
  match error self with
  | None => (st2, Raise AttributeError)
  | Some r =>
      match error report with
      | None => (st2, Raise TypeError)
      | Some r' => (extend st2 r r', Return tt)
      end
  end.

(** The references of a report are lists of the store. *)
Definition valid (st : store) (self : Report) : bool :=
  (info self <? length st) && (warning self <? length st)
  && match error self with Some e => e <? length st | None => true end.

(** The three lists of a report are three objects. *)
Definition separate (self : Report) : bool :=
  negb (info self =? warning self)
  && match error self with
     | Some e => negb (e =? info self) && negb (e =? warning self)
     | None => true
     end.

(** No list that [add_report] reads from [report] is one that it has
    written in [self] before. *)
Definition apart (self report : Report) : bool :=
  negb (warning report =? info self)
  && match error report with
     | Some e => negb (e =? info self) && negb (e =? warning self)
     | None => true
     end.

End Checker.

(* ================================================================= *)
(** ** collector_checker/base.py: BaseStory *)

Module Story.

Definition EQUALS : N := 61.
Definition COMMA : N := 44.

(** [s.split(sep)] for a one-character [sep]. *)
Fixpoint split (sep : N) (s : pystr) : list pystr :=
  match s with
  | [] => [[]]
  | c :: s' =>
      if N.eqb c sep then [] :: split sep s'
      else match split sep s' with
           | piece :: pieces => (c :: piece) :: pieces
           | [] => [[c]]
           end
  end.

(** [sub in s] *)
Fixpoint contains (sub s : pystr) : bool :=
  startswith sub s || match s with [] => false | _ :: s' => contains sub s' end.

(** The exceptions of the constructor: of a list index, of [int], of
    the model query, and the one the constructor raises itself. *)
Inductive error :=
| IndexError
| ValueError (text : pystr)
| QueryError (text : pystr)
| Exception (text : pystr).

Inductive result (A : Type) :=
| Ok (a : A)
| Err (e : error).

Arguments Ok {A} a.
Arguments Err {A} e.

(** [str(e)] *)
Definition error_str (e : error) : pystr :=
  match e with
  | IndexError => lit "list index out of range"
  | ValueError text | QueryError text | Exception text => text
  end.

(** [l[i]] *)
Definition item (l : list pystr) (i : nat) : result pystr :=
  match nth_error l i with
  | Some x => Ok x
  | None => Err IndexError
  end.

(** An entry of [self.hosts]. *)
Record Host := { bk_cloud_id : Z; ip : pystr }.

(** The text before the [str(e)] in the exception of a hosts argument. *)
Definition hosts_error_prefix : pystr :=
  [36755; 20837; 21512; 27861; 30340]%N ++ lit "hosts, err: ".

Section BaseStory.

(** The model instance of a collector configuration. *)
Variable CollectorConfig : Type.
(** [CollectorConfig.objects.get(collector_config_id=...)] *)
Variable get : pystr -> result CollectorConfig.
(** [int(text)]: the number, or the text of the ValueError. *)
Variable int : pystr -> Z + pystr.

(** The attributes of a story; [collector_config] is set by an argument only. *)
Record BaseStory := { hosts : list Host; collector_config : option CollectorConfig }.

(** The dict of one host: the key [bk_cloud_id] is evaluated first. *)
Definition host_of (host : pystr) : result Host :=
  match item (split COLON host) 0 with
  | Err e => Err e
  | Ok first =>
      match int first with
      | inr text => Err (ValueError text)
      | inl cloud =>
          match item (split COLON host) 1 with
          | Err e => Err e
          | Ok address => Ok {| bk_cloud_id := cloud; ip := address |}
          end
      end
  end.

(** The loop over the hosts: the first entry that fails ends it. *)
Fixpoint hosts_of (entries : list pystr) : result (list Host) :=
  match entries with
  | [] => Ok []
  | host :: rest =>
      match host_of host with
      | Err e => Err e
      | Ok h =>
          match hosts_of rest with
          | Err e => Err e
          | Ok hs => Ok (h :: hs)
          end
      end
  end.

(** The body of the [try]. *)
Definition ip_list (arg : pystr) : result (list Host) :=
  match item (split EQUALS arg) 1 with
  | Err e => Err e
  | Ok text => hosts_of (split COMMA text)
  end.

(** One turn of the loop over [sys.argv]. *)
Definition turn (self : BaseStory) (arg : pystr) : result BaseStory :=
  if contains (lit "collector_config_id") arg then
    match item (split EQUALS arg) 1 with
    | Err e => Err e
    | Ok collector_config_id =>
        match get collector_config_id with
        | Err e => Err e
        | Ok config => Ok {| hosts := hosts self; collector_config := Some config |}
        end
    end
  else if contains (lit "hosts") arg then
    match ip_list arg with
    | Ok l => Ok {| hosts := l; collector_config := collector_config self |}
    | Err e => Err (Exception (hosts_error_prefix ++ error_str e))
    end
  else Ok self.

(** [BaseStory.__init__], over the command line [argv]. *)
Definition __init__ (argv : list pystr) : result BaseStory :=
  fold_left (fun acc arg => match acc with Ok self => turn self arg | Err e => Err e end)
            argv (Ok {| hosts := []; collector_config := None |}).

End BaseStory.

(** An entry as it is written on the command line. *)
Definition entry (cloud address : pystr) : pystr := cloud ++ [COLON] ++ address.

(** An instance for trying the statements: [int] on ASCII digits, and a
    query that finds a configuration for every id. *)
Definition digits_int (text : pystr) : Z + pystr :=
  match text with
  | [] => inr (lit "invalid literal")
  | _ => if forallb isdigit text then inl (Z.of_nat (int_of text))
         else inr (lit "invalid literal")
  end.

Definition any_config (id : pystr) : result pystr := Ok id.

End Story.

(* ================================================================= *)
(** ** Basic facts *)

Lemma pystr_eqb_eq (a b : pystr) : pystr_eqb a b = true <-> a = b.
Proof.
  revert b; induction a as [|x a IH]; intros [|y b]; simpl; split; intros H;
    try reflexivity; try discriminate.
  - apply andb_true_iff in H as [Hx Hab].
    apply N.eqb_eq in Hx. apply IH in Hab. now subst.
  - injection H as -> ->. apply andb_true_iff. split.
    + apply N.eqb_refl.
    + now apply IH.
Qed.

Lemma pystr_eqb_refl (a : pystr) : pystr_eqb a a = true.
Proof. now apply pystr_eqb_eq. Qed.

Lemma pystr_eqb_neq (a b : pystr) : pystr_eqb a b = false <-> a <> b.
Proof.
  split.
  - intros H E. apply pystr_eqb_eq in E. congruence.
  - intros H. destruct (pystr_eqb a b) eqn:E; [|reflexivity].
    apply pystr_eqb_eq in E. contradiction.
Qed.

Lemma bind_Return {A B} (a : A) (k : A -> outcome B) : bind (Return a) k = k a.
Proof. reflexivity. Qed.

(** The walk over a list inside [_get_method] is [flat_map]. *)
Lemma get_method_group node_str ft p children :
  _get_method node_str ft (Group p children)
  = (fields <- flat_map node_str ft children ;; Return (Many fields)).
Proof. reflexivity. Qed.

Lemma walk_unary_eq node_str ft u p a :
  _get_method node_str ft (apply_unary u p a)
  = (r <- _get_method node_str ft a ;; v <- attr value r ;;
     Return (One {| pos := p; name := ft;
                    operator := match u with
                                | UNot => NOT_OPERATOR
                                | UPlus => PLUS_OPERATOR
                                | UProhibit => PROHIBIT_OPERATOR
                                end;
                    type := match u with UNot => NOT | UPlus => PLUS | UProhibit => PROHIBIT end;
                    value := v |})).
Proof. destruct u; reflexivity. Qed.

Lemma walk_and_eq node_str ft p operands :
  _get_method node_str ft (AndOperation p operands)
  = (fields <- flat_map node_str ft operands ;; Return (Many fields)).
Proof. reflexivity. Qed.

Lemma walk_or_eq node_str ft p operands :
  _get_method node_str ft (OrOperation p operands)
  = (fields <- flat_map node_str ft operands ;; Return (Many fields)).
Proof. reflexivity. Qed.

Lemma walk_field_eq node_str ft p nm e :
  _get_method node_str ft (SearchField p nm e)
  = (new_field <- _get_method node_str ft e ;; ty <- attr type new_field ;;
     op <- attr operator new_field ;; v <- attr value new_field ;;
     Return (One {| pos := p; name := nm; type := ty; operator := op; value := v |})).
Proof. reflexivity. Qed.

(** *** The pipeline reads the parser only at the keywords it visits *)

Section Extensionality.

Variables parse1 parse2 : pystr -> outcome Node.
Variable node_str : Node -> pystr.
Variable unknown_operation_resolver : Node -> Node.
Variable FULL_TEXT_SEARCH_FIELD_NAME : pystr.
Hypothesis same : forall kw, parse1 kw = parse2 kw.

Lemma parsing_ext kw :
  parsing parse1 node_str FULL_TEXT_SEARCH_FIELD_NAME kw
  = parsing parse2 node_str FULL_TEXT_SEARCH_FIELD_NAME kw.
Proof. unfold parsing. now rewrite same. Qed.

Lemma inspect_ext c kw :
  inspect parse1 node_str unknown_operation_resolver FULL_TEXT_SEARCH_FIELD_NAME c kw
  = inspect parse2 node_str unknown_operation_resolver FULL_TEXT_SEARCH_FIELD_NAME c kw.
Proof.
  destruct c; unfold inspect, inspect_illegal_range, inspect_illegal_character,
    inspect_illegal_colon, inspect_illegal_bracket, inspect_unknown_operator, inspect_default;
    try reflexivity; rewrite ?parsing_ext, ?same; reflexivity.
Qed.

Lemma run_inspectors_ext classes kw messages :
  run_inspectors parse1 node_str unknown_operation_resolver FULL_TEXT_SEARCH_FIELD_NAME
    classes kw messages
  = run_inspectors parse2 node_str unknown_operation_resolver FULL_TEXT_SEARCH_FIELD_NAME
    classes kw messages.
Proof.
  revert kw messages; induction classes as [|c rest IH]; intros kw messages; simpl.
  - reflexivity.
  - rewrite inspect_ext. destruct (inspect parse2 _ _ _ c kw); simpl; [apply IH | reflexivity].
Qed.

Lemma resolve_loop_ext times self :
  resolve_loop parse1 node_str unknown_operation_resolver FULL_TEXT_SEARCH_FIELD_NAME times self
  = resolve_loop parse2 node_str unknown_operation_resolver FULL_TEXT_SEARCH_FIELD_NAME times self.
Proof.
  revert self; induction times as [|n IH]; intros self; simpl.
  - reflexivity.
  - unfold resolver_inspect. rewrite run_inspectors_ext.
    destruct (run_inspectors parse2 _ _ _ _ _ _) as [[kw' [|m ms]]|e]; simpl;
      try reflexivity; apply IH.
Qed.

Lemma resolve_ext kw :
  resolve parse1 node_str unknown_operation_resolver FULL_TEXT_SEARCH_FIELD_NAME kw
  = resolve parse2 node_str unknown_operation_resolver FULL_TEXT_SEARCH_FIELD_NAME kw.
Proof. unfold resolve. now rewrite resolve_loop_ext. Qed.

Lemma resolve_messages_ext kw :
  resolve_messages parse1 node_str unknown_operation_resolver FULL_TEXT_SEARCH_FIELD_NAME kw
  = resolve_messages parse2 node_str unknown_operation_resolver FULL_TEXT_SEARCH_FIELD_NAME kw.
Proof. unfold resolve_messages. now rewrite resolve_loop_ext. Qed.

End Extensionality.

(** A parser that agrees with a table is the table patched over it. *)
Lemma patched_agree (table : list (pystr * outcome Node)) (parse : pystr -> outcome Node) :
  Forall (fun entry => parse (fst entry) = snd entry) table ->
  forall kw, parse kw = Sample.patched table parse kw.
Proof.
  intros H kw. unfold Sample.patched, Sample.lookup.
  induction H as [|[k r] rest Hk _ IH]; simpl.
  - reflexivity.
  - destruct (pystr_eqb k kw) eqn:E; simpl.
    + apply pystr_eqb_eq in E. subst. exact Hk.
    + exact IH.
Qed.

(** The agreement of a parser with a table, from the hypotheses at hand. *)
Ltac agree tbl parse :=
  apply (patched_agree tbl parse); repeat constructor; simpl; assumption.

(* ================================================================= *)
(** ** The repair does not look at field names or serialized text *)

(** Induction on a tree, with the property for every child of a list node. *)
Section NodeInduction.

Variable P : Node -> Prop.
Hypothesis word : forall p v, P (Word p v).
Hypothesis phrase : forall p v, P (Phrase p v).
Hypothesis regex : forall p v, P (Regex p v).
Hypothesis search_field : forall p nm e, P e -> P (SearchField p nm e).
Hypothesis field_group : forall p e, P e -> P (FieldGroup p e).
Hypothesis group : forall p l, Forall P l -> P (Group p l).
Hypothesis range : forall p lo hi il ih, P lo -> P hi -> P (Range p lo hi il ih).
Hypothesis fuzzy : forall p t d, P t -> P (Fuzzy p t d).
Hypothesis proximity : forall p t d, P t -> P (Proximity p t d).
Hypothesis boost : forall p e f, P e -> P (Boost p e f).
Hypothesis and_operation : forall p l, Forall P l -> P (AndOperation p l).
Hypothesis or_operation : forall p l, Forall P l -> P (OrOperation p l).
Hypothesis unknown_operation : forall p l, Forall P l -> P (UnknownOperation p l).
Hypothesis not_ : forall p a, P a -> P (Not p a).
Hypothesis plus : forall p a, P a -> P (Plus p a).
Hypothesis prohibit : forall p a, P a -> P (Prohibit p a).

Fixpoint Node_nested_ind (n : Node) : P n :=
  let all := fix all (l : list Node) : Forall P l :=
    match l with
    | [] => Forall_nil P
    | x :: r => Forall_cons x (Node_nested_ind x) (all r)
    end in
  match n with
  | Word p v => word p v
  | Phrase p v => phrase p v
  | Regex p v => regex p v
  | SearchField p nm e => search_field p nm e (Node_nested_ind e)
  | FieldGroup p e => field_group p e (Node_nested_ind e)
  | Group p l => group p l (all l)
  | Range p lo hi il ih => range p lo hi il ih (Node_nested_ind lo) (Node_nested_ind hi)
  | Fuzzy p t d => fuzzy p t d (Node_nested_ind t)
  | Proximity p t d => proximity p t d (Node_nested_ind t)
  | Boost p e f => boost p e f (Node_nested_ind e)
  | AndOperation p l => and_operation p l (all l)
  | OrOperation p l => or_operation p l (all l)
  | UnknownOperation p l => unknown_operation p l (all l)
  | Not p a => not_ p a (Node_nested_ind a)
  | Plus p a => plus p a (Node_nested_ind a)
  | Prohibit p a => prohibit p a (Node_nested_ind a)
  end.

End NodeInduction.

Section Independence.

Variable parse : pystr -> outcome Node.
Variables node_str1 node_str2 : Node -> pystr.
Variables resolver1 resolver2 : Node -> Node.
Variables ft1 ft2 : pystr.

Lemma flat_map_fate (l : list Node) :
  Forall (fun n => same_shape (_get_method node_str1 ft1 n) (_get_method node_str2 ft2 n)) l ->
  same_fate (flat_map node_str1 ft1 l) (flat_map node_str2 ft2 l).
Proof.
  induction 1 as [|n l Hn _ IH]; simpl.
  - exact I.
  - destruct (_get_method node_str1 ft1 n) as [[f1|fs1]|e1],
             (_get_method node_str2 ft2 n) as [[f2|fs2]|e2];
      simpl in Hn; try contradiction; simpl; try assumption;
      destruct (flat_map node_str1 ft1 l), (flat_map node_str2 ft2 l);
      simpl in IH; try contradiction; simpl; auto.
Qed.

(** Whether the walk returns a field, a list or raises, and what it
    raises, is decided by the tree alone. *)
Lemma get_method_shape (tree : Node) :
  same_shape (_get_method node_str1 ft1 tree) (_get_method node_str2 ft2 tree).
Proof.
  induction tree as [| | |p nm e IH|p e IH|p l IH|p lo hi il ih _ _|p t d _|p t d _
                     |p e f _|p l IH|p l IH|p l _|p a IH|p a IH|p a IH]
    using Node_nested_ind; try exact I; try reflexivity.
  - rewrite !walk_field_eq.
    destruct (_get_method node_str1 ft1 e) as [[f1|fs1]|e1],
             (_get_method node_str2 ft2 e) as [[f2|fs2]|e2];
      simpl in IH; try contradiction; simpl; auto.
  - rewrite !get_method_group. apply flat_map_fate in IH.
    destruct (flat_map node_str1 ft1 l), (flat_map node_str2 ft2 l);
      simpl in IH; try contradiction; simpl; auto.
  - rewrite !walk_and_eq. apply flat_map_fate in IH.
    destruct (flat_map node_str1 ft1 l), (flat_map node_str2 ft2 l);
      simpl in IH; try contradiction; simpl; auto.
  - rewrite !walk_or_eq. apply flat_map_fate in IH.
    destruct (flat_map node_str1 ft1 l), (flat_map node_str2 ft2 l);
      simpl in IH; try contradiction; simpl; auto.
  - rewrite !(walk_unary_eq _ _ UNot).
    destruct (_get_method node_str1 ft1 a) as [[f1|fs1]|e1],
             (_get_method node_str2 ft2 a) as [[f2|fs2]|e2];
      simpl in IH; try contradiction; simpl; auto.
  - rewrite !(walk_unary_eq _ _ UPlus).
    destruct (_get_method node_str1 ft1 a) as [[f1|fs1]|e1],
             (_get_method node_str2 ft2 a) as [[f2|fs2]|e2];
      simpl in IH; try contradiction; simpl; auto.
  - rewrite !(walk_unary_eq _ _ UProhibit).
    destruct (_get_method node_str1 ft1 a) as [[f1|fs1]|e1],
             (_get_method node_str2 ft2 a) as [[f2|fs2]|e2];
      simpl in IH; try contradiction; simpl; auto.
Qed.

Lemma parsing_tree_fate (tree : Node) :
  same_fate (parsing_tree node_str1 ft1 tree) (parsing_tree node_str2 ft2 tree).
Proof.
  unfold parsing_tree. pose proof (get_method_shape tree) as H.
  destruct (_get_method node_str1 ft1 tree) as [[f1|fs1]|e1],
           (_get_method node_str2 ft2 tree) as [[f2|fs2]|e2];
    simpl in H; try contradiction; simpl; auto.
  destruct (Counter (map name fs1)), (Counter (map name fs2)); exact I.
Qed.

Lemma inspect_independent (c : InspectorClass) (kw : pystr) :
  inspect parse node_str1 resolver1 ft1 c kw = inspect parse node_str2 resolver2 ft2 c kw.
Proof.
  destruct c; try reflexivity.
  - unfold inspect, inspect_unknown_operator. cbn [keyword new_inspector].
    destruct (parse kw) as [t|[]] eqn:E; try reflexivity.
  - unfold inspect, inspect_default, parsing. cbn [keyword new_inspector].
    destruct (parse kw) as [t|e]; [|reflexivity]. rewrite !bind_Return.
    pose proof (parsing_tree_fate t) as H.
    destruct (parsing_tree node_str1 ft1 t), (parsing_tree node_str2 ft2 t);
      simpl in H; try contradiction; reflexivity.
Qed.

Lemma run_inspectors_independent classes kw messages :
  run_inspectors parse node_str1 resolver1 ft1 classes kw messages
  = run_inspectors parse node_str2 resolver2 ft2 classes kw messages.
Proof.
  revert kw messages; induction classes as [|c rest IH]; intros kw messages; simpl.
  - reflexivity.
  - rewrite inspect_independent.
    destruct (inspect parse node_str2 resolver2 ft2 c kw); simpl; [apply IH | reflexivity].
Qed.

Lemma resolve_loop_independent times self :
  resolve_loop parse node_str1 resolver1 ft1 times self
  = resolve_loop parse node_str2 resolver2 ft2 times self.
Proof.
  revert self; induction times as [|n IH]; intros self; simpl.
  - reflexivity.
  - unfold resolver_inspect. rewrite run_inspectors_independent.
    destruct (run_inspectors parse node_str2 resolver2 ft2 _ _ _) as [[kw' [|m ms]]|e]; simpl;
      try reflexivity; apply IH.
Qed.

Lemma resolve_independent kw :
  resolve parse node_str1 resolver1 ft1 kw = resolve parse node_str2 resolver2 ft2 kw.
Proof. unfold resolve. now rewrite resolve_loop_independent. Qed.

Lemma resolve_messages_independent kw :
  resolve_messages parse node_str1 resolver1 ft1 kw
  = resolve_messages parse node_str2 resolver2 ft2 kw.
Proof. unfold resolve_messages. now rewrite resolve_loop_independent. Qed.

End Independence.

(** Evaluate [resolve] at concrete keywords, the parser being known at
    the keywords of [tbl]: move to the sample serializer, resolver and
    reserved name, which the repair does not look at, and to the table
    patched over the parser. *)
Ltac resolve_by_table tbl parse node_str resolver ft :=
  let A := fresh "A" in
  assert (A : forall k, parse k = Sample.patched tbl parse k) by agree tbl parse;
  try rewrite !(resolve_independent parse node_str Sample.node_str resolver Sample.resolver
                  ft Sample.full_text);
  try rewrite !(resolve_messages_independent parse node_str Sample.node_str resolver
                  Sample.resolver ft Sample.full_text);
  try rewrite !(resolve_ext parse (Sample.patched tbl parse) Sample.node_str Sample.resolver
                  Sample.full_text A);
  try rewrite !(resolve_messages_ext parse (Sample.patched tbl parse) Sample.node_str
                  Sample.resolver Sample.full_text A).

(* ================================================================= *)
(** ** The Chinese punctuation inspector *)

Lemma fold_left_raise {A B} (f : outcome A -> B -> outcome A) (l : list B) (e : exn) :
  (forall b, f (Raise e) b = Raise e) -> fold_left f l (Raise e) = Raise e.
Proof.
  intros Hf. induction l as [|b l IH]; simpl.
  - reflexivity.
  - now rewrite Hf.
Qed.

(** With a matched pair in the keyword the first replacement is attempted,
    and the item assignment raises. *)
Lemma chinese_punctuation_raises (self : Inspector) :
  Re.finditer chinese_punctuation_re (keyword self) <> [] ->
  inspect_chinese_punctuation self = Raise TypeError.
Proof.
  intros H. unfold inspect_chinese_punctuation.
  destruct (Re.finditer chinese_punctuation_re (keyword self)) as [|m ms]; [congruence|].
  simpl. rewrite fold_left_raise; reflexivity.
Qed.

Lemma chinese_punctuation_quiet (self : Inspector) :
  Re.finditer chinese_punctuation_re (keyword self) = [] ->
  inspect_chinese_punctuation self = Return self.
Proof. intros H. unfold inspect_chinese_punctuation. now rewrite H. Qed.

Lemma chinese_punctuation_returns (self self' : Inspector) :
  inspect_chinese_punctuation self = Return self' -> self' = self.
Proof.
  intros H.
  destruct (Re.finditer chinese_punctuation_re (keyword self)) as [|m ms] eqn:E.
  - rewrite chinese_punctuation_quiet in H by assumption. congruence.
  - rewrite chinese_punctuation_raises in H by (rewrite E; discriminate). discriminate.
Qed.

(* ================================================================= *)
(** ** Frame: a legal result leaves the keyword alone *)

Lemma bracket_mismatch_illegal msg self s self' :
  bracket_mismatch msg self s = Return self' -> is_legal (result self') = false.
Proof.
  unfold bracket_mismatch. intros H.
  destruct s as [|bottom s']; [discriminate|].
  destruct (rev (bottom :: s')) as [|top below]; [discriminate|].
  destruct (pairs_with (fst bottom) (fst top)).
  - destruct below; [discriminate|]. injection H as <-. reflexivity.
  - injection H as <-. reflexivity.
Qed.

Lemma bracket_scan_legal msg self rest index s self' :
  bracket_scan msg self rest index s = Return self' ->
  is_legal (result self') = true -> self' = self.
Proof.
  revert index s. induction rest as [|symbol rest IH]; intros index s H L; simpl in H.
  - destruct (rev s); injection H as <-; [reflexivity | discriminate].
  - destruct (is_open symbol); [now apply IH in H|].
    destruct (is_close symbol); [|now apply IH in H].
    destruct (rev s) as [|top below].
    + apply bracket_mismatch_illegal in H. congruence.
    + destruct (pairs_with (fst top) symbol); [now apply IH in H|].
      apply bracket_mismatch_illegal in H. congruence.
Qed.

Section Frame.

Variable parse : pystr -> outcome Node.
Variable node_str : Node -> pystr.
Variable unknown_operation_resolver : Node -> Node.
Variable FULL_TEXT_SEARCH_FIELD_NAME : pystr.

Local Abbreviation inspect_ :=
  (inspect parse node_str unknown_operation_resolver FULL_TEXT_SEARCH_FIELD_NAME).

(** An inspector that returns with a legal result is the object that
    was constructed. *)
Lemma legal_inspector_untouched (c : InspectorClass) (kw : pystr) (self : Inspector) :
  inspect_ c kw = Return self ->
  is_legal (result self) = true ->
  self = new_inspector kw.
Proof.
  intros H L.
  destruct c; unfold inspect in H.
  - now apply chinese_punctuation_returns in H.
  - unfold inspect_illegal_range in H. simpl keyword in H.
    destruct (parse kw) as [t|[e| | | | | |]]; try (injection H as <-; reflexivity).
    destruct (Re.search unexpect_word_re e) as [m|]; try (injection H as <-; reflexivity).
    destruct (pystr_eqb _ _); try (injection H as <-; reflexivity).
    destruct (map _ _); injection H as <-; [reflexivity | discriminate].
  - unfold inspect_illegal_character in H. simpl keyword in H.
    destruct (parse kw) as [t|[e|e| | | | |]]; try (injection H as <-; reflexivity).
    + destruct (Re.search unexpect_word_re e); injection H as <-; [discriminate | reflexivity].
    + destruct (Re.search illegal_character_re e); injection H as <-; [discriminate | reflexivity].
  - unfold inspect_illegal_colon in H. simpl keyword in H.
    destruct (parse kw) as [t|[e| | | | | |]]; try (injection H as <-; reflexivity).
    destruct (pystr_eqb _ _); try (injection H as <-; reflexivity).
    destruct (Z.eqb _ _); injection H as <-; [discriminate | reflexivity].
  - unfold inspect_illegal_bracket in H. simpl keyword in H.
    destruct (parse kw) as [t|[e| | | | | |]]; try (injection H as <-; reflexivity).
    destruct (pystr_eqb _ _); try (injection H as <-; reflexivity).
    now apply bracket_scan_legal in H.
  - unfold inspect_unknown_operator in H. simpl keyword in H.
    destruct (parse kw) as [t|[e|e| | | | |]] eqn:P; try (injection H as <-; reflexivity).
    discriminate.
  - unfold inspect_default in H.
    destruct (bind _ _); injection H as <-; [reflexivity | discriminate].
Qed.

(** C9. Whichever inspector of the pipeline runs on whichever keyword:
    when [inspect] returns and the inspector's result is still legal (no
    diagnostic was recorded), the inspector's keyword is the keyword it
    was constructed with. *)
Theorem legal_inspection_keeps_keyword (c : InspectorClass) (kw : pystr) (self : Inspector) :
  inspect_ c kw = Return self ->
  is_legal (result self) = true ->
  keyword self = kw.
Proof.
  intros H L. now rewrite (legal_inspector_untouched _ _ _ H L).
Qed.

End Frame.

(** The colon inspector on the sample query [foo], which parses: the
    result is legal and the keyword is still [foo]. *)
Lemma legal_inspection_keeps_keyword_witness :
  inspect Sample.parse Sample.node_str Sample.resolver Sample.full_text
    IllegalColonInspector (lit "foo") = Return (new_inspector (lit "foo"))
  /\ is_legal (result (new_inspector (lit "foo"))) = true
  /\ keyword (new_inspector (lit "foo")) = lit "foo".
Proof.
  split; [reflexivity | split; [reflexivity|]].
  apply (legal_inspection_keeps_keyword Sample.parse Sample.node_str Sample.resolver
           Sample.full_text IllegalColonInspector (lit "foo") (new_inspector (lit "foo")));
    reflexivity.
Defined.

(* ================================================================= *)
(** ** What the pipeline does on the scenarios *)

Section Pipeline.

Variable parse : pystr -> outcome Node.
Variable node_str : Node -> pystr.
Variable unknown_operation_resolver : Node -> Node.
Variable FULL_TEXT_SEARCH_FIELD_NAME : pystr.

Local Abbreviation inspect_ :=
  (inspect parse node_str unknown_operation_resolver FULL_TEXT_SEARCH_FIELD_NAME).
Local Abbreviation resolve_ :=
  (resolve parse node_str unknown_operation_resolver FULL_TEXT_SEARCH_FIELD_NAME).
Local Abbreviation resolve_messages_ :=
  (resolve_messages parse node_str unknown_operation_resolver FULL_TEXT_SEARCH_FIELD_NAME).
Local Abbreviation parsing_ := (parsing parse node_str FULL_TEXT_SEARCH_FIELD_NAME).
Local Abbreviation patched_ tbl :=
  (resolve (Sample.patched tbl parse) node_str unknown_operation_resolver
     FULL_TEXT_SEARCH_FIELD_NAME).

Lemma run_inspectors_cons c rest kw messages :
  run_inspectors parse node_str unknown_operation_resolver FULL_TEXT_SEARCH_FIELD_NAME
    (c :: rest) kw messages
  = (inspector <- inspect_ c kw ;;
     run_inspectors parse node_str unknown_operation_resolver FULL_TEXT_SEARCH_FIELD_NAME
       rest (keyword inspector)
       (if is_legal (result inspector) then messages
        else messages ++ [message (result inspector)])).
Proof. reflexivity. Qed.

Lemma resolve_loop_S times self :
  resolve_loop parse node_str unknown_operation_resolver FULL_TEXT_SEARCH_FIELD_NAME
    (S times) self
  = (r <- resolver_inspect parse node_str unknown_operation_resolver
            FULL_TEXT_SEARCH_FIELD_NAME self ;;
     if fst r then Return (true, snd r)
     else resolve_loop parse node_str unknown_operation_resolver
            FULL_TEXT_SEARCH_FIELD_NAME times (snd r)).
Proof. reflexivity. Qed.

(** A keyword with a curly quote pair stops the first pass at once. *)
Lemma resolve_raises_on_quotes (kw : pystr) :
  Re.finditer chinese_punctuation_re kw <> [] ->
  resolve_ kw = Raise TypeError.
Proof.
  intros H. unfold resolve, MAX_RESOLVE_TIMES. rewrite resolve_loop_S.
  unfold resolver_inspect, REGISTERED_INSPECTORS. simpl r_keyword.
  rewrite run_inspectors_cons. unfold inspect.
  now rewrite chinese_punctuation_raises.
Qed.

(** C1 (the code on the failing inputs). Whatever the parser does, on a
    keyword that holds a matched pair of curly quotes [resolve] does not
    return a result: the TypeError of the item assignment in
    [replace_unexpected_character] leaves the Chinese punctuation
    inspector, [LuceneSyntaxResolver.inspect] and [resolve] uncaught. *)
Theorem repair_raises_on_curly_quotes (kw : pystr) :
  Re.finditer chinese_punctuation_re kw <> [] ->
  resolve_ kw = Raise TypeError.
Proof. exact (resolve_raises_on_quotes kw). Qed.

(** C3 (the code on the failing input). On the keyword of scenario S4, a
    field followed by [bob] in curly quotes, the Chinese punctuation
    inspector replaces nothing and marks nothing: its [inspect] raises
    TypeError, and so does the whole repair. *)
Theorem curly_quotes_are_not_replaced :
  inspect_ ChinesePunctuationInspector (lit "name: " ++ [LDQUO] ++ lit "bob" ++ [RDQUO])
  = Raise TypeError
  /\ resolve_ (lit "name: " ++ [LDQUO] ++ lit "bob" ++ [RDQUO]) = Raise TypeError.
Proof.
  split.
  - unfold inspect. apply chinese_punctuation_raises. vm_compute. discriminate.
  - apply resolve_raises_on_quotes. vm_compute. discriminate.
Qed.

Lemma chinese_quiet_on (kw : pystr) :
  Re.finditer chinese_punctuation_re kw = [] ->
  inspect_ ChinesePunctuationInspector kw = Return (new_inspector kw).
Proof. intros H. unfold inspect. now apply chinese_punctuation_quiet. Qed.

(** The inspectors that only react to a parse error pass a keyword that parses. *)
Lemma parsed_keyword_passes (c : InspectorClass) (kw : pystr) (tree : Node) :
  parse kw = Return tree ->
  c <> ChinesePunctuationInspector -> c <> DefaultInspector ->
  inspect_ c kw = Return (new_inspector kw).
Proof.
  intros Hp H1 H2.
  destruct c; try congruence; unfold inspect, inspect_illegal_range,
    inspect_illegal_character, inspect_illegal_colon, inspect_illegal_bracket,
    inspect_unknown_operator; cbn [keyword new_inspector]; now rewrite Hp.
Qed.

(** One pass over a keyword that parses, holds no curly quote pair, and
    whose field extraction raises: only the default inspector objects. *)
Lemma pass_on_unextractable (kw : pystr) (tree : Node) (e : exn) :
  Re.finditer chinese_punctuation_re kw = [] ->
  parse kw = Return tree ->
  parsing_tree node_str FULL_TEXT_SEARCH_FIELD_NAME tree = Raise e ->
  run_inspectors parse node_str unknown_operation_resolver FULL_TEXT_SEARCH_FIELD_NAME
    REGISTERED_INSPECTORS kw []
  = Return (kw, [syntax_error_message DefaultInspector]).
Proof.
  intros Hq Hp He. unfold REGISTERED_INSPECTORS.
  rewrite run_inspectors_cons, chinese_quiet_on by exact Hq.
  rewrite bind_Return. cbn [keyword result is_legal new_inspector].
  do 5 (rewrite run_inspectors_cons, (parsed_keyword_passes _ kw tree Hp) by (cbv; intuition congruence);
        rewrite bind_Return; cbn [keyword result is_legal new_inspector]).
  rewrite run_inspectors_cons. unfold inspect, inspect_default, parsing.
  cbn [keyword new_inspector]. rewrite Hp, !bind_Return, He. reflexivity.
Qed.

Lemma loop_on_unextractable (kw : pystr) (tree : Node) (e : exn) (times : nat)
      (messages : list pystr) :
  Re.finditer chinese_punctuation_re kw = [] ->
  parse kw = Return tree ->
  parsing_tree node_str FULL_TEXT_SEARCH_FIELD_NAME tree = Raise e ->
  resolve_loop parse node_str unknown_operation_resolver FULL_TEXT_SEARCH_FIELD_NAME times
    {| r_keyword := kw; r_messages := messages |}
  = Return (false, {| r_keyword := kw;
                      r_messages := messages
                                    ++ repeat (syntax_error_message DefaultInspector) times |}).
Proof.
  intros Hq Hp He. revert messages.
  induction times as [|n IH]; intros messages.
  - simpl. now rewrite app_nil_r.
  - rewrite resolve_loop_S. unfold resolver_inspect. simpl r_keyword.
    rewrite (pass_on_unextractable kw tree e Hq Hp He), !bind_Return.
    cbn [fst snd r_messages]. rewrite bind_Return. cbn [fst snd].
    rewrite IH. simpl repeat. now rewrite <- app_assoc.
Qed.

(** C2 (the code on the failing inputs). A keyword that parses (an
    unknown operation is a node of the tree, not a parse error) but whose
    field extraction raises, as it does at an UnknownOperation node, is
    never rewritten: the unknown operator inspector only calls the parser,
    which succeeds, so every pass ends with the default inspector's
    diagnostic alone, and [resolve] returns the keyword as it was,
    unresolved.  For the query of scenario S7 the returned keyword is
    still [foo bar]. *)
Theorem unknown_operation_is_not_rewritten (kw : pystr) (tree : Node) :
  Re.finditer chinese_punctuation_re kw = [] ->
  parse kw = Return tree ->
  _get_method node_str FULL_TEXT_SEARCH_FIELD_NAME tree = Raise UnknownLuceneOperatorException ->
  resolve_ kw
  = Return {| rr_is_legal := false; rr_is_resolved := false;
              rr_message := syntax_error_message DefaultInspector;
              rr_keyword := kw |}.
Proof.
  intros Hq Hp He. unfold resolve.
  rewrite (loop_on_unextractable kw tree UnknownLuceneOperatorException); try assumption.
  - reflexivity.
  - unfold parsing_tree. now rewrite He.
Qed.

(** C7 (the code on the failing inputs). With the end-of-expression
    error, the colon inspector compares the index of the first colon with
    the last index: a keyword whose first colon is not its last character
    is left as it is and gets no diagnostic, also when it ends in a colon. *)
Theorem colon_inspector_looks_at_first_colon (kw : pystr) :
  parse kw = Raise end_of_expression ->
  (find 58 kw =? Z.of_nat (length kw) - 1)%Z = false ->
  inspect_ IllegalColonInspector kw = Return (new_inspector kw).
Proof.
  intros Hp Hf. unfold inspect, inspect_illegal_colon. simpl keyword.
  rewrite Hp. unfold end_of_expression. rewrite pystr_eqb_refl, Hf. reflexivity.
Qed.

(** C5 (the code on the failing input). Two ranges, the first well
    formed, the second without its low endpoint: the range inspector
    repairs the second and drops the text of the first. *)
Theorem range_inspector_drops_wellformed_range :
  parse (lit "a: [1 TO 2] AND b: [ TO 3]") = Raise (unexpected (lit "TO") 21) ->
  inspect_ IllegalRangeSyntaxInspector (lit "a: [1 TO 2] AND b: [ TO 3]")
  = Return {| keyword := lit "a:  AND b: [* TO 3]";
              result := {| is_legal := false;
                           message := syntax_error_message IllegalRangeSyntaxInspector |} |}.
Proof.
  intros Hp. unfold inspect, inspect_illegal_range. simpl keyword. rewrite Hp.
  vm_compute. reflexivity.
Qed.

(** C8, as amended. When the parser rejects the empty string with its
    end-of-expression error, [parsing] raises that error, and [resolve]
    returns a result that is neither legal nor resolved, with the empty
    keyword and the default inspector's diagnostic among its messages. *)
Theorem empty_keyword_is_rejected :
  parse [] = Raise end_of_expression ->
  parsing_ [] = Raise end_of_expression
  /\ exists r messages,
       resolve_ [] = Return r
       /\ rr_is_legal r = false /\ rr_is_resolved r = false /\ rr_keyword r = []
       /\ resolve_messages_ [] = Return messages
       /\ In (syntax_error_message DefaultInspector) messages.
Proof.
  intros Hp. split.
  - unfold parsing. now rewrite Hp.
  - resolve_by_table [(@nil N, @Raise Node end_of_expression)] parse node_str
      unknown_operation_resolver FULL_TEXT_SEARCH_FIELD_NAME.
    do 2 eexists. split; [vm_compute; reflexivity|].
    split; [reflexivity|]. split; [reflexivity|]. split; [reflexivity|].
    split; [vm_compute; reflexivity|]. right. left. reflexivity.
Qed.

End Pipeline.

Lemma repair_raises_on_curly_quotes_witness :
  Re.finditer chinese_punctuation_re [LDQUO; 97%N; RDQUO] <> []
  /\ resolve Sample.parse Sample.node_str Sample.resolver Sample.full_text
       [LDQUO; 97%N; RDQUO] = Raise TypeError.
Proof.
  split.
  - vm_compute. discriminate.
  - apply (repair_raises_on_curly_quotes Sample.parse Sample.node_str Sample.resolver
             Sample.full_text [LDQUO; 97%N; RDQUO]).
    vm_compute. discriminate.
Defined.

Lemma unknown_operation_is_not_rewritten_witness :
  Re.finditer chinese_punctuation_re (lit "foo bar") = []
  /\ Sample.parse (lit "foo bar")
     = Return (UnknownOperation 0 [Word 0 (lit "foo"); Word 4 (lit "bar")])
  /\ _get_method Sample.node_str Sample.full_text
       (UnknownOperation 0 [Word 0 (lit "foo"); Word 4 (lit "bar")])
     = Raise UnknownLuceneOperatorException
  /\ resolve Sample.parse Sample.node_str Sample.resolver Sample.full_text (lit "foo bar")
     = Return {| rr_is_legal := false; rr_is_resolved := false;
                 rr_message := syntax_error_message DefaultInspector;
                 rr_keyword := lit "foo bar" |}.
Proof.
  split; [reflexivity | split; [reflexivity | split; [reflexivity|]]].
  apply (unknown_operation_is_not_rewritten Sample.parse Sample.node_str Sample.resolver
           Sample.full_text (lit "foo bar")
           (UnknownOperation 0 [Word 0 (lit "foo"); Word 4 (lit "bar")])); reflexivity.
Defined.

Lemma colon_inspector_looks_at_first_colon_witness :
  Sample.parse (lit "a:b:") = Raise end_of_expression
  /\ (find 58 (lit "a:b:") =? Z.of_nat (length (lit "a:b:")) - 1)%Z = false
  /\ inspect Sample.parse Sample.node_str Sample.resolver Sample.full_text
       IllegalColonInspector (lit "a:b:") = Return (new_inspector (lit "a:b:")).
Proof.
  split; [reflexivity | split; [reflexivity|]].
  apply (colon_inspector_looks_at_first_colon Sample.parse Sample.node_str Sample.resolver
           Sample.full_text (lit "a:b:")); reflexivity.
Defined.

Lemma range_inspector_drops_wellformed_range_witness :
  Sample.parse (lit "a: [1 TO 2] AND b: [ TO 3]") = Raise (unexpected (lit "TO") 21)
  /\ inspect Sample.parse Sample.node_str Sample.resolver Sample.full_text
       IllegalRangeSyntaxInspector (lit "a: [1 TO 2] AND b: [ TO 3]")
     = Return {| keyword := lit "a:  AND b: [* TO 3]";
                 result := {| is_legal := false;
                              message := syntax_error_message IllegalRangeSyntaxInspector |} |}.
Proof.
  split; [reflexivity|].
  apply (range_inspector_drops_wellformed_range Sample.parse Sample.node_str Sample.resolver
           Sample.full_text); reflexivity.
Defined.

Lemma empty_keyword_is_rejected_witness :
  Sample.parse [] = Raise end_of_expression
  /\ parsing Sample.parse Sample.node_str Sample.full_text [] = Raise end_of_expression
  /\ exists r messages,
       resolve Sample.parse Sample.node_str Sample.resolver Sample.full_text [] = Return r
       /\ rr_is_legal r = false /\ rr_is_resolved r = false /\ rr_keyword r = []
       /\ resolve_messages Sample.parse Sample.node_str Sample.resolver Sample.full_text []
          = Return messages
       /\ In (syntax_error_message DefaultInspector) messages.
Proof.
  split; [reflexivity|].
  apply (empty_keyword_is_rejected Sample.parse Sample.node_str Sample.resolver
           Sample.full_text); reflexivity.
Defined.

(** C8, the claim as stated fails: luqum's parser has no rule for an
    empty input and raises its end-of-expression error on the empty
    string, so [parsing] raises instead of returning the empty list, and
    [resolve] answers with [is_legal = false]. *)
Lemma empty_keyword_counterexample :
  parsing Sample.parse Sample.node_str Sample.full_text [] = Raise end_of_expression
  /\ resolve Sample.parse Sample.node_str Sample.resolver Sample.full_text []
     = Return {| rr_is_legal := false; rr_is_resolved := false;
                 rr_message := join [LF] [syntax_error_message IllegalColonInspector;
                                          syntax_error_message DefaultInspector];
                 rr_keyword := [] |}.
Proof. split; vm_compute; reflexivity. Qed.

(* ================================================================= *)
(** ** Unary operators over a group *)

Section Unary.

Variable parse : pystr -> outcome Node.
Variable node_str : Node -> pystr.
Variable FULL_TEXT_SEARCH_FIELD_NAME : pystr.

Local Abbreviation walk := (_get_method node_str FULL_TEXT_SEARCH_FIELD_NAME).
Local Abbreviation walk_all := (flat_map node_str FULL_TEXT_SEARCH_FIELD_NAME).

(** The first child that raises decides the walk of the list. *)
Lemma walk_all_raises before c after fields e :
  walk_all before = Return fields ->
  walk c = Raise e ->
  walk_all (before ++ c :: after) = Raise e.
Proof.
  revert fields. induction before as [|n before IH]; intros fields Hb Hc; simpl.
  - now rewrite Hc.
  - simpl in Hb. destruct (walk n) as [r|e'] eqn:En; [|discriminate].
    simpl in Hb. simpl.
    destruct (walk_all before) as [fs|e'] eqn:Eb; [|discriminate].
    now rewrite (IH fs eq_refl Hc).
Qed.

(** An exception raised at a node the walk visits is the walk's outcome. *)
Lemma visited_raise_surfaces root n e :
  Visits node_str FULL_TEXT_SEARCH_FIELD_NAME root n ->
  walk n = Raise e -> walk root = Raise e.
Proof.
  intros V Hn. induction V as [n | p nm x n V IH | u p a n V IH
    | p before c after fields n Hb V IH | p before c after fields n Hb V IH
    | p before c after fields n Hb V IH].
  - exact Hn.
  - rewrite walk_field_eq, (IH Hn). reflexivity.
  - rewrite walk_unary_eq, (IH Hn). reflexivity.
  - rewrite get_method_group, (walk_all_raises _ _ _ _ _ Hb (IH Hn)). reflexivity.
  - rewrite walk_and_eq, (walk_all_raises _ _ _ _ _ Hb (IH Hn)). reflexivity.
  - rewrite walk_or_eq, (walk_all_raises _ _ _ _ _ Hb (IH Hn)). reflexivity.
Qed.

(** C10, as amended. When the parser accepts a query and the field walk
    visits a NOT, + or - node applied to a parenthesized group whose own
    fields are extracted without an error, [parsing] raises
    AttributeError: the handler of the unary operator reads [.value] from
    the list the group handler returned. *)
Theorem unary_over_group_raises_attribute_error
        (kw : pystr) (tree : Node) (u : unary) (p q : nat) (children : list Node)
        (fields : list LuceneField) :
  parse kw = Return tree ->
  Visits node_str FULL_TEXT_SEARCH_FIELD_NAME tree (apply_unary u p (Group q children)) ->
  walk_all children = Return fields ->
  parsing parse node_str FULL_TEXT_SEARCH_FIELD_NAME kw = Raise AttributeError.
Proof.
  intros Hp V Hc. unfold parsing, parsing_tree. rewrite Hp, bind_Return.
  rewrite (visited_raise_surfaces tree _ AttributeError V); [reflexivity|].
  rewrite walk_unary_eq, get_method_group, Hc. reflexivity.
Qed.

End Unary.

Lemma unary_over_group_raises_attribute_error_witness :
  Sample.parse (lit "NOT (a AND b)") = Return (Not 0 (Group 4 [Sample.a_and_b 5]))
  /\ Visits Sample.node_str Sample.full_text
       (Not 0 (Group 4 [Sample.a_and_b 5])) (apply_unary UNot 0 (Group 4 [Sample.a_and_b 5]))
  /\ flat_map Sample.node_str Sample.full_text [Sample.a_and_b 5]
     = Return [parsing_word Sample.full_text 5 (lit "a");
               parsing_word Sample.full_text 11 (lit "b")]
  /\ parsing Sample.parse Sample.node_str Sample.full_text (lit "NOT (a AND b)")
     = Raise AttributeError.
Proof.
  split; [reflexivity | split; [apply visits_root | split; [reflexivity|]]].
  apply (unary_over_group_raises_attribute_error Sample.parse Sample.node_str Sample.full_text
           (lit "NOT (a AND b)") (Not 0 (Group 4 [Sample.a_and_b 5])) UNot 0 4
           [Sample.a_and_b 5]
           [parsing_word Sample.full_text 5 (lit "a");
            parsing_word Sample.full_text 11 (lit "b")]).
  - reflexivity.
  - apply visits_root.
  - reflexivity.
Defined.

(** C10, the claim as stated fails twice.  In the field group
    [f:(NOT (a AND b))] a NOT is applied to a parenthesized group and
    [parsing] returns a field list, because the walk serializes a field
    group without entering it.  In [NOT (a b)] the walk of the group
    raises first, and [parsing] raises UnknownLuceneOperatorException,
    not AttributeError. *)
Lemma unary_over_group_counterexample :
  (Sample.parse (lit "f:(NOT (a AND b))")
   = Return (SearchField 0 (lit "f")
               (FieldGroup 2 (apply_unary UNot 3 (Group 7 [Sample.a_and_b 8]))))
   /\ parsing Sample.parse Sample.node_str Sample.full_text (lit "f:(NOT (a AND b))")
      = Return [{| pos := 0; name := lit "f"; type := FIELD_GROUP;
                   operator := lit "()"; value := lit "(NOT (a AND b))" |}])
  /\ (Sample.parse (lit "NOT (a b)")
      = Return (apply_unary UNot 0
                  (Group 4 [UnknownOperation 5 [Word 5 (lit "a"); Word 7 (lit "b")]]))
      /\ parsing Sample.parse Sample.node_str Sample.full_text (lit "NOT (a b)")
         = Raise UnknownLuceneOperatorException).
Proof. repeat split; vm_compute; reflexivity. Qed.

(* ================================================================= *)
(** ** The bracket inspector *)

Lemma not_open_pairs_with_nothing c other : is_open c = false -> pairs_with c other = false.
Proof.
  unfold is_open, pairs_with. intros H.
  destruct (List.find _ BRACKET_DICT) as [kv|] eqn:F; [|reflexivity].
  apply find_some in F as [Hin Hk].
  assert (E : existsb (fun kv => (fst kv =? c)%N) BRACKET_DICT = true).
  { apply existsb_exists. now exists kv. }
  congruence.
Qed.

Lemma rev_cons_inv {A} (s : list A) top below :
  rev s = top :: below -> s = rev below ++ [top].
Proof.
  intros H. rewrite <- (rev_involutive s), H. reflexivity.
Qed.

Lemma last_rev_head {A} (b : A) (s : list A) (d : A) : last (rev (b :: s)) d = b.
Proof. simpl. apply last_last. Qed.

(** The scan of the source, with the deque's right end last, computes the
    scan of the specification, with the top of the stack first. *)
Lemma bracket_scan_refines msg self rest index s :
  bracket_scan msg self rest index s
  = Return (bracket_verdict msg self (offending_from rest index (rev s))).
Proof.
  revert index s. induction rest as [|c rest IH]; intros index s; simpl.
  - destruct (rev s); reflexivity.
  - destruct (is_open c) eqn:Ho.
    + rewrite IH, rev_unit. reflexivity.
    + destruct (is_close c) eqn:Hc; [|apply IH].
      destruct (rev s) as [|top below] eqn:Hs.
      * assert (s = []) as ->.
        { destruct s; [reflexivity|]. apply (f_equal (@length _)) in Hs.
          rewrite length_rev in Hs. discriminate. }
        unfold bracket_mismatch. cbn [app rev fst snd].
        rewrite (not_open_pairs_with_nothing c c Ho). reflexivity.
      * destruct (pairs_with (fst top) c) eqn:Hp.
        -- rewrite IH. apply rev_cons_inv in Hs. subst s.
           rewrite removelast_last, rev_involutive. reflexivity.
        -- destruct s as [|bottom s']; [discriminate|].
           unfold bracket_mismatch. cbn [app].
           change (bottom :: s' ++ [(c, index)]) with ((bottom :: s') ++ [(c, index)]).
           rewrite rev_unit, Hs. unfold after_push.
           rewrite <- Hs, last_rev_head. cbn [fst snd].
           destruct (pairs_with (fst bottom) c); reflexivity.
Qed.

Lemma after_push_recorded kw c index stack :
  nth_error kw index = Some c -> is_close c = true -> Forall (records kw) stack ->
  exists c', nth_error kw (after_push c index stack) = Some c'
             /\ (is_open c' || is_close c') = true.
Proof.
  intros Hc Hcl Hst. unfold after_push. destruct stack as [|second stack'].
  - exists c. rewrite Hcl, orb_true_r. auto.
  - destruct (pairs_with (fst (last (second :: stack') second)) c).
    + apply Forall_inv in Hst. exists (fst second). exact Hst.
    + exists c. rewrite Hcl, orb_true_r. auto.
Qed.

Lemma offending_from_recorded kw before rest index stack i :
  kw = before ++ rest -> index = length before ->
  Forall (records kw) stack ->
  offending_from rest index stack = Some i ->
  exists c, nth_error kw i = Some c /\ (is_open c || is_close c) = true.
Proof.
  revert before index stack. induction rest as [|c rest IH];
    intros before index stack Hkw Hi Hst H; simpl in H.
  - destruct stack as [|top stack]; [discriminate|]. injection H as <-.
    apply Forall_inv in Hst. exists (fst top). exact Hst.
  - assert (Hc : nth_error kw index = Some c).
    { subst. rewrite nth_error_app2, Nat.sub_diag by lia. reflexivity. }
    assert (Hnext : kw = (before ++ [c]) ++ rest /\ S index = length (before ++ [c])).
    { subst. rewrite <- app_assoc, length_app. simpl. split; [reflexivity | lia]. }
    destruct Hnext as [Hkw' Hi'].
    assert (Hpush : is_close c = true ->
                    exists c', nth_error kw (after_push c index stack) = Some c'
                               /\ (is_open c' || is_close c') = true).
    { intros Hcl. now apply after_push_recorded. }
    destruct (is_open c) eqn:Ho.
    + apply (IH (before ++ [c]) (S index) ((c, index) :: stack)); try assumption.
      constructor; [|assumption]. split; [exact Hc | simpl; now rewrite Ho].
    + destruct (is_close c) eqn:Hcl.
      * destruct stack as [|top below].
        -- injection H as <-. now apply Hpush.
        -- destruct (pairs_with (fst top) c).
           ++ apply (IH (before ++ [c]) (S index) below); try assumption.
              now apply Forall_inv_tail in Hst.
           ++ injection H as <-. now apply Hpush.
      * apply (IH (before ++ [c]) (S index) stack); assumption.
Qed.

Lemma drop_at_length (kw : pystr) (i : nat) : i < length kw -> S (length (drop_at kw i)) = length kw.
Proof.
  intros H. unfold drop_at. rewrite length_app, length_firstn, length_skipn. lia.
Qed.

Section Bracket.

Variable parse : pystr -> outcome Node.
Variable node_str : Node -> pystr.
Variable unknown_operation_resolver : Node -> Node.
Variable FULL_TEXT_SEARCH_FIELD_NAME : pystr.

(** C6. On the end-of-expression parse error the bracket inspector does
    what the stack scan of the specification says: it leaves a keyword
    without an offending bracket alone, and otherwise reports illegal and
    removes the character at the index the scan gives, which is a bracket
    of the keyword, so the keyword gets shorter by exactly one character.
    For [((a AND b)] the repair removes one opening parenthesis, the rest
    parses, and the second pass is clean. *)
Theorem bracket_inspector_removes_one_bracket (kw : pystr) :
  parse kw = Raise end_of_expression ->
  parse (lit "((a AND b)") = Raise end_of_expression ->
  parse (lit "(a AND b)")
  = Return (Group 0 [AndOperation 1 [Word 1 (lit "a"); Word 7 (lit "b")]]) ->
  inspect parse node_str unknown_operation_resolver FULL_TEXT_SEARCH_FIELD_NAME
    IllegalBracketInspector kw
  = Return match offending_bracket kw with
           | Some i =>
               {| keyword := drop_at kw i;
                  result := {| is_legal := false;
                               message := syntax_error_message IllegalBracketInspector |} |}
           | None => new_inspector kw
           end
  /\ (forall i, offending_bracket kw = Some i ->
        (exists c, nth_error kw i = Some c /\ (is_open c || is_close c) = true)
        /\ S (length (drop_at kw i)) = length kw)
  /\ offending_bracket (lit "((a AND b)") = Some 0
  /\ resolve parse node_str unknown_operation_resolver FULL_TEXT_SEARCH_FIELD_NAME
       (lit "((a AND b)")
     = Return {| rr_is_legal := false; rr_is_resolved := true;
                 rr_message := syntax_error_message IllegalBracketInspector;
                 rr_keyword := lit "(a AND b)" |}.
Proof.
  intros Hkw H1 H2. split; [|split; [intros i H; split | split]].
  - unfold inspect, inspect_illegal_bracket. cbn [keyword new_inspector].
    rewrite Hkw. unfold end_of_expression. rewrite pystr_eqb_refl, bracket_scan_refines.
    unfold offending_bracket. simpl rev.
    destruct (offending_from kw 0 []); reflexivity.
  - apply (offending_from_recorded kw [] kw 0 [] i eq_refl eq_refl (Forall_nil _) H).
  - apply drop_at_length.
    destruct (offending_from_recorded kw [] kw 0 [] i eq_refl eq_refl (Forall_nil _) H)
      as [c [Hc _]].
    apply nth_error_Some. congruence.
  - vm_compute. reflexivity.
  - resolve_by_table
      [(lit "((a AND b)", @Raise Node end_of_expression);
       (lit "(a AND b)",
        Return (Group 0 [AndOperation 1 [Word 1 (lit "a"); Word 7 (lit "b")]]))] parse node_str
      unknown_operation_resolver FULL_TEXT_SEARCH_FIELD_NAME.
    vm_compute. reflexivity.
Qed.

End Bracket.

Lemma bracket_inspector_removes_one_bracket_witness :
  Sample.parse (lit "((a AND b)") = Raise end_of_expression
  /\ Sample.parse (lit "(a AND b)")
     = Return (Group 0 [AndOperation 1 [Word 1 (lit "a"); Word 7 (lit "b")]])
  /\ inspect Sample.parse Sample.node_str Sample.resolver Sample.full_text
       IllegalBracketInspector (lit "((a AND b)")
     = Return {| keyword := lit "(a AND b)";
                 result := {| is_legal := false;
                              message := syntax_error_message IllegalBracketInspector |} |}.
Proof.
  split; [reflexivity | split; [reflexivity|]].
  apply (bracket_inspector_removes_one_bracket Sample.parse Sample.node_str Sample.resolver
           Sample.full_text (lit "((a AND b)")); reflexivity.
Defined.

(* ================================================================= *)
(** ** Decimal numerals and numbered names *)

Lemma lit_inj (s1 s2 : String.string) : lit s1 = lit s2 -> s1 = s2.
Proof.
  unfold lit. intros H.
  rewrite <- (String.string_of_list_ascii_of_string s1),
          <- (String.string_of_list_ascii_of_string s2).
  f_equal. revert H.
  generalize (String.list_ascii_of_string s1) (String.list_ascii_of_string s2).
  induction l as [|a l IH]; intros [|b l']; simpl; intros H; try discriminate.
  - reflexivity.
  - injection H as Hab Hl. f_equal.
    + rewrite <- (ascii_N_embedding a), <- (ascii_N_embedding b). now rewrite Hab.
    + now apply IH.
Qed.

Lemma uint_digits (d : Decimal.uint) :
  all_digits (lit (DecimalString.NilEmpty.string_of_uint d)).
Proof. induction d; simpl; constructor; (reflexivity || assumption). Qed.

Lemma str_of_nat_digits (n : nat) : all_digits (str_of_nat n).
Proof. apply uint_digits. Qed.

Lemma str_of_nat_inj (n m : nat) : str_of_nat n = str_of_nat m -> n = m.
Proof.
  unfold str_of_nat. intros H. apply lit_inj in H.
  apply DecimalNat.Unsigned.to_uint_inj.
  assert (E : Some (Nat.to_uint n) = Some (Nat.to_uint m)).
  { rewrite <- !DecimalString.NilEmpty.usu. now rewrite H. }
  congruence.
Qed.

Lemma str_of_nat_nonempty (n : nat) : str_of_nat n <> [].
Proof.
  unfold str_of_nat. intros H.
  assert (E : Nat.to_uint n = Decimal.Nil).
  { destruct (Nat.to_uint n); [reflexivity | discriminate..]. }
  pose proof (DecimalNat.Unsigned.to_of (Nat.to_uint n)) as T.
  rewrite DecimalNat.Unsigned.of_to, E in T. discriminate.
Qed.

Lemma numbered_unfold (x : pystr) (k : nat) : numbered x k = x ++ 40%N :: str_of_nat k ++ [41%N].
Proof. reflexivity. Qed.

Lemma rev_numbered (x : pystr) (k : nat) :
  rev (numbered x k) = 41%N :: rev (str_of_nat k) ++ 40%N :: rev x.
Proof.
  rewrite numbered_unfold, rev_app_distr. simpl.
  rewrite rev_app_distr. simpl. now rewrite <- app_assoc.
Qed.

Lemma all_digits_rev (s : pystr) : all_digits s -> all_digits (rev s).
Proof. apply Forall_rev. Qed.

Lemma drop_digits_app (l r : pystr) (y : N) :
  all_digits l -> isdigit y = false -> drop_digits (l ++ y :: r) = y :: r.
Proof.
  intros Hl Hy. induction Hl as [|c l Hc _ IH]; simpl.
  - now rewrite Hy.
  - now rewrite Hc.
Qed.

(** A digit run is delimited by the first character that is no digit. *)
Lemma digits_split (l1 l2 r1 r2 : pystr) (x y : N) :
  all_digits l1 -> all_digits l2 -> isdigit x = false -> isdigit y = false ->
  l1 ++ x :: r1 = l2 ++ y :: r2 -> l1 = l2 /\ r1 = r2.
Proof.
  intros H1. revert l2. induction H1 as [|c l1 Hc _ IH]; intros l2 H2 Hx Hy E.
  - destruct H2 as [|c' l2 Hc' _]; simpl in E.
    + injection E as _ E. auto.
    + injection E as E _. congruence.
  - destruct H2 as [|c' l2 Hc' H2]; simpl in E.
    + injection E as E _. congruence.
    + injection E as -> E. destruct (IH l2 H2 Hx Hy E) as [-> ->]. auto.
Qed.

Lemma numbered_inj (x y : pystr) (k j : nat) : numbered x k = numbered y j -> x = y /\ k = j.
Proof.
  intros H. apply (f_equal (@rev N)) in H. rewrite !rev_numbered in H.
  injection H as H.
  apply digits_split in H as [Hk Hx];
    try (apply all_digits_rev, str_of_nat_digits); try reflexivity.
  split.
  - rewrite <- (rev_involutive x), <- (rev_involutive y). now rewrite Hx.
  - apply str_of_nat_inj. rewrite <- (rev_involutive (str_of_nat k)), Hk.
    apply rev_involutive.
Qed.

Lemma numbered_looks_numbered (x : pystr) (k : nat) : looks_numbered (numbered x k) = true.
Proof.
  unfold looks_numbered. rewrite rev_numbered.
  pose proof (all_digits_rev _ (str_of_nat_digits k)) as D.
  destruct (rev (str_of_nat k)) as [|d r] eqn:E.
  - exfalso. apply (str_of_nat_nonempty k).
    rewrite <- (rev_involutive (str_of_nat k)), E. reflexivity.
  - simpl app. inversion D as [|? ? Hd Hr]; subst.
    rewrite Hd, drop_digits_app by (assumption || reflexivity). reflexivity.
Qed.

Lemma plain_is_not_numbered (x y : pystr) (k : nat) :
  looks_numbered x = false -> x <> numbered y k.
Proof. intros H E. rewrite E, numbered_looks_numbered in H. discriminate. Qed.

(* ================================================================= *)
(** ** Counter *)

Lemma occurrences_cons (x y : pystr) (l : list pystr) :
  occurrences x (y :: l) = (if pystr_eqb x y then 1 else 0) + occurrences x l.
Proof. unfold occurrences. simpl. now destruct (pystr_eqb x y). Qed.

Lemma occurrences_app (x : pystr) (l1 l2 : list pystr) :
  occurrences x (l1 ++ l2) = occurrences x l1 + occurrences x l2.
Proof. unfold occurrences. now rewrite filter_app, length_app. Qed.

Lemma occurrences_in (x : pystr) (l : list pystr) : In x l <-> 1 <= occurrences x l.
Proof.
  induction l as [|y l IH]; simpl.
  - unfold occurrences. simpl. split; [tauto | lia].
  - rewrite occurrences_cons. destruct (pystr_eqb x y) eqn:E.
    + apply pystr_eqb_eq in E. subst. split; [lia | auto].
    + apply pystr_eqb_neq in E. split.
      * intros [H|H]; [congruence | apply IH in H; lia].
      * intros H. right. apply IH. lia.
Qed.

Lemma existsb_pystr (x : pystr) (l : list pystr) : existsb (pystr_eqb x) l = true <-> In x l.
Proof.
  rewrite existsb_exists. split.
  - intros [y [Hy E]]. apply pystr_eqb_eq in E. now subst.
  - intros H. exists x. split; [assumption | apply pystr_eqb_refl].
Qed.

Lemma counter_add_keys (x : pystr) (c : list (pystr * nat)) :
  map fst (counter_add x c) = if existsb (pystr_eqb x) (map fst c) then map fst c
                              else map fst c ++ [x].
Proof.
  induction c as [|[y n] c IH]; simpl.
  - reflexivity.
  - destruct (pystr_eqb y x) eqn:E.
    + apply pystr_eqb_eq in E. subst. now rewrite pystr_eqb_refl.
    + apply pystr_eqb_neq in E.
      assert (E' : pystr_eqb x y = false) by (apply pystr_eqb_neq; congruence).
      rewrite E'. simpl. rewrite IH. now destruct (existsb _ _).
Qed.

Lemma counter_add_nodup (x : pystr) (c : list (pystr * nat)) :
  NoDup (map fst c) -> NoDup (map fst (counter_add x c)).
Proof.
  intros H. rewrite counter_add_keys.
  destruct (existsb (pystr_eqb x) (map fst c)) eqn:E; [assumption|].
  apply NoDup_app; [assumption | repeat constructor; simpl; tauto |].
  intros k Hk [<-|[]].
  apply existsb_pystr in Hk. congruence.
Qed.

(** The counts after one more name [x]. *)
Lemma counter_add_in (x : pystr) (c : list (pystr * nat)) (k : pystr) (n : nat) :
  NoDup (map fst c) ->
  In (k, n) (counter_add x c) ->
  (k <> x /\ In (k, n) c)
  \/ (k = x /\ n = 1 /\ ~ In x (map fst c))
  \/ (k = x /\ exists m, n = S m /\ In (x, m) c).
Proof.
  induction c as [|[y m] c IH]; simpl; intros ND H.
  - destruct H as [H|[]]. injection H as <- <-. right. left. tauto.
  - inversion ND as [|? ? Hy ND']; subst.
    destruct (pystr_eqb y x) eqn:E.
    + apply pystr_eqb_eq in E. subst y. destruct H as [H|H].
      * injection H as <- <-. right. right. split; [reflexivity|].
        exists m. split; [reflexivity | now left].
      * left. split; [|now right].
        intros ->. apply Hy. apply (in_map fst) in H. exact H.
    + apply pystr_eqb_neq in E. destruct H as [H|H].
      * injection H as <- <-. left. split; [assumption | now left].
      * destruct (IH ND' H) as [[Hk Hin]|[[Hk [Hn Hnot]]|[Hk [m' [Hn Hin]]]]].
        -- left. split; [assumption | now right].
        -- right. left. repeat split; try assumption.
           intros [Hx|Hx]; [simpl in Hx; congruence | contradiction].
        -- right. right. split; [assumption|]. exists m'. split; [assumption | now right].
Qed.

Lemma exact_counter_add (x : pystr) (c : list (pystr * nat)) (seen : list pystr) :
  exact_counter c seen -> exact_counter (counter_add x c) (seen ++ [x]).
Proof.
  intros [ND [Hcount Hkeys]]. split; [|split].
  - now apply counter_add_nodup.
  - intros k n H. rewrite occurrences_app, occurrences_cons.
    unfold occurrences at 2. simpl.
    destruct (counter_add_in x c k n ND H) as [[Hk Hin]|[[Hk [Hn Hnot]]|[Hk [m [Hn Hin]]]]].
    + apply pystr_eqb_neq in Hk. rewrite Hk. rewrite (Hcount _ _ Hin). lia.
    + subst. rewrite pystr_eqb_refl.
      assert (Z0 : occurrences x seen = 0).
      { destruct (occurrences x seen) eqn:O; [reflexivity|].
        exfalso. apply Hnot, Hkeys, occurrences_in. lia. }
      lia.
    + subst. rewrite pystr_eqb_refl, (Hcount _ _ Hin). lia.
  - intros k. rewrite counter_add_keys, in_app_iff. simpl.
    destruct (existsb (pystr_eqb x) (map fst c)) eqn:E.
    + apply existsb_pystr in E. rewrite Hkeys. split; [tauto|].
      intros [H|[<-|[]]]; [assumption | now apply Hkeys].
    + rewrite in_app_iff, Hkeys. simpl. tauto.
Qed.

Lemma exact_counter_fold (l : list pystr) (c : list (pystr * nat)) (seen : list pystr) :
  exact_counter c seen ->
  exact_counter (fold_left (fun c x => counter_add x c) l c) (seen ++ l).
Proof.
  revert c seen. induction l as [|x l IH]; intros c seen H; simpl.
  - now rewrite app_nil_r.
  - replace (seen ++ x :: l) with ((seen ++ [x]) ++ l) by now rewrite <- app_assoc.
    apply IH. now apply exact_counter_add.
Qed.

Lemma Counter_exact (l : list pystr) : exact_counter (Counter l) l.
Proof.
  apply (exact_counter_fold l [] []).
  split; [constructor | split; [intros k n [] | intros k; simpl; tauto]].
Qed.

(* ================================================================= *)
(** ** Renaming duplicate names *)

Lemma rename_from_names (nm : pystr) (number : nat) (fields : list LuceneField) :
  map name (rename_from nm number fields) = rename_names nm number (map name fields).
Proof.
  revert number. induction fields as [|f fs IH]; intros number; simpl.
  - reflexivity.
  - destruct (pystr_eqb (name f) nm); simpl; now rewrite IH.
Qed.

Lemma rename_from_unnamed (nm : pystr) (number : nat) (fields : list LuceneField) :
  map unnamed (rename_from nm number fields) = map unnamed fields.
Proof.
  revert number. induction fields as [|f fs IH]; intros number; simpl.
  - reflexivity.
  - destruct (pystr_eqb (name f) nm); simpl; now rewrite IH.
Qed.

Lemma rename_fold_names (items : list (pystr * nat)) (fields : list LuceneField) :
  map name (fold_left (fun fs item => if 1 <? snd item then rename_from (fst item) 1 fs else fs)
                      items fields)
  = fold_left rename_step items (map name fields).
Proof.
  revert fields. induction items as [|[k n] items IH]; intros fields; simpl.
  - reflexivity.
  - rewrite IH. unfold rename_step. simpl.
    destruct (1 <? n); [now rewrite rename_from_names | reflexivity].
Qed.

Lemma rename_fold_unnamed (items : list (pystr * nat)) (fields : list LuceneField) :
  map unnamed (fold_left (fun fs item => if 1 <? snd item then rename_from (fst item) 1 fs
                                         else fs) items fields)
  = map unnamed fields.
Proof.
  revert fields. induction items as [|[k n] items IH]; intros fields; simpl.
  - reflexivity.
  - rewrite IH. destruct (1 <? n); [apply rename_from_unnamed | reflexivity].
Qed.

(** One run of the inner loop numbers one more name. *)
Lemma rename_names_step (d : pystr) (done seen l : list pystr) :
  ~ In d done -> plain d -> Forall plain l ->
  rename_names d (S (occurrences d seen)) (partly_renamed done seen l)
  = partly_renamed (d :: done) seen l.
Proof.
  intros Hd Pd Pl. revert seen. induction Pl as [|x l Px Pl IH]; intros seen; simpl.
  - reflexivity.
  - destruct (pystr_eqb x d) eqn:E.
    + apply pystr_eqb_eq in E. subst x.
      assert (M : existsb (pystr_eqb d) done = false).
      { destruct (existsb _ done) eqn:M; [|reflexivity]. now apply existsb_pystr in M. }
      rewrite M, pystr_eqb_refl. simpl. f_equal.
      rewrite <- IH. f_equal. rewrite occurrences_cons, pystr_eqb_refl. reflexivity.
    + assert (E' : pystr_eqb d x = false).
      { apply pystr_eqb_neq. apply pystr_eqb_neq in E. congruence. }
      simpl. destruct (existsb (pystr_eqb x) done) eqn:M.
      * assert (N : pystr_eqb (numbered x (S (occurrences x seen))) d = false).
        { apply pystr_eqb_neq. intros H. symmetry in H. revert H.
          now apply plain_is_not_numbered. }
        rewrite N. f_equal. rewrite <- IH. f_equal.
        rewrite occurrences_cons, E'. reflexivity.
      * rewrite E. f_equal. rewrite <- IH. f_equal.
        rewrite occurrences_cons, E'. reflexivity.
Qed.

(** The outer loop, over items with distinct keys. *)
Lemma rename_fold_partly (items : list (pystr * nat)) (done l : list pystr) :
  NoDup (map fst items) ->
  (forall k, In k (map fst items) -> ~ In k done /\ plain k) ->
  Forall plain l ->
  exists done',
    (forall x, In x done' <-> In x done \/ exists n, In (x, n) items /\ 1 < n)
    /\ fold_left rename_step items (partly_renamed done [] l) = partly_renamed done' [] l.
Proof.
  revert done. induction items as [|[k n] items IH]; intros done ND Hk Pl; simpl.
  - exists done. split; [|reflexivity]. intros x. split; [tauto|].
    intros [H|[n [[] _]]]. exact H.
  - inversion ND as [|? ? Hnk ND']; subst.
    destruct (Hk k (or_introl eq_refl)) as [Hkd Pk].
    unfold rename_step at 2. simpl. destruct (1 <? n) eqn:L.
    + apply Nat.ltb_lt in L.
      replace (rename_names k 1 (partly_renamed done [] l))
        with (partly_renamed (k :: done) [] l)
        by (symmetry; apply (rename_names_step k done [] l); assumption).
      destruct (IH (k :: done) ND') as [done' [Hd' Hf]]; [|assumption|].
      * intros k' Hk'. destruct (Hk k' (or_intror Hk')) as [H1 H2].
        split; [|assumption]. intros [<-|H]; [contradiction | contradiction].
      * exists done'. split; [|exact Hf]. intros x. rewrite Hd'. simpl. split.
        -- intros [[<-|H]|[m [H Hm]]]; [right; exists n; auto | tauto | right; exists m; auto].
        -- intros [H|[m [[H|H] Hm]]]; [tauto | injection H as <- <-; tauto
                                       | right; exists m; auto].
    + apply Nat.ltb_ge in L.
      destruct (IH done ND') as [done' [Hd' Hf]]; [|assumption|].
      * intros k' Hk'. apply Hk. now right.
      * exists done'. split; [|exact Hf]. intros x. rewrite Hd'. split.
        -- intros [H|[m [H Hm]]]; [tauto | right; exists m; simpl; auto].
        -- intros [H|[m [[H|H] Hm]]]; [tauto | injection H as <- <-; lia
                                       | right; exists m; auto].
Qed.

Lemma partly_renamed_nothing (seen l : list pystr) : partly_renamed [] seen l = l.
Proof.
  revert seen. induction l as [|x l IH]; intros seen; simpl; [reflexivity | now rewrite IH].
Qed.

Lemma partly_renamed_all (done all seen l : list pystr) :
  (forall x, In x l -> (In x done <-> 1 < occurrences x all)) ->
  partly_renamed done seen l = renamed_names all seen l.
Proof.
  revert seen. induction l as [|x l IH]; intros seen H; simpl.
  - reflexivity.
  - rewrite IH by (intros y Hy; apply H; now right). f_equal.
    specialize (H x (or_introl eq_refl)).
    destruct (existsb (pystr_eqb x) done) eqn:M, (1 <? occurrences x all) eqn:L;
      try reflexivity.
    + apply existsb_pystr, H in M. apply Nat.ltb_ge in L. lia.
    + apply Nat.ltb_lt, H, existsb_pystr in L. congruence.
Qed.

(** The names the outer loop of the source leaves are those of the
    specification, when no name is of the numbered shape to begin with. *)
Lemma rename_duplicates_names (fields : list LuceneField) :
  Forall plain (map name fields) ->
  map name (rename_duplicates fields)
  = renamed_names (map name fields) [] (map name fields).
Proof.
  intros P. unfold rename_duplicates. rewrite rename_fold_names.
  set (names := map name fields) in *.
  destruct (Counter_exact names) as [ND [Hcount Hkeys]].
  rewrite <- (partly_renamed_nothing [] names) at 2.
  destruct (rename_fold_partly (Counter names) [] names ND) as [done' [Hd Hf]].
  - intros k Hk. split; [tauto|]. apply Hkeys in Hk.
    rewrite Forall_forall in P. now apply P.
  - exact P.
  - rewrite Hf. apply partly_renamed_all. intros x Hx. rewrite Hd. split.
    + intros [[]|[n [Hin Hn]]]. now rewrite <- (Hcount _ _ Hin).
    + intros H. right. apply Hkeys in Hx. apply in_map_iff in Hx as [[k n] [Ek Hin]].
      simpl in Ek. subst k. exists n. split; [assumption|].
      now rewrite (Hcount _ _ Hin).
Qed.

Lemma rename_duplicates_unnamed (fields : list LuceneField) :
  map unnamed (rename_duplicates fields) = map unnamed fields.
Proof. apply rename_fold_unnamed. Qed.

(** What the renamed names are made of. *)
Lemma renamed_names_in (all seen l : list pystr) (y : pystr) :
  In y (renamed_names all seen l) ->
  (In y l /\ occurrences y all <= 1)
  \/ exists x k, y = numbered x k /\ In x l /\ occurrences x seen < k.
Proof.
  revert seen. induction l as [|x l IH]; intros seen H; simpl in H.
  - contradiction.
  - destruct H as [H|H].
    + destruct (1 <? occurrences x all) eqn:L.
      * right. exists x, (S (occurrences x seen)). repeat split; auto. now left.
      * apply Nat.ltb_ge in L. left. subst. split; [now left | assumption].
    + destruct (IH _ H) as [[Hin Ho]|[x' [k [E [Hin Hk]]]]].
      * left. split; [now right | assumption].
      * right. exists x', k. repeat split; [assumption | now right |].
        rewrite occurrences_cons in Hk. lia.
Qed.

Lemma renamed_names_nodup (all seen l : list pystr) :
  Forall plain l ->
  (forall x, occurrences x all = occurrences x seen + occurrences x l) ->
  NoDup (renamed_names all seen l).
Proof.
  intros P. revert seen. induction P as [|x l Px P IH]; intros seen Hall; simpl.
  - constructor.
  - assert (Hall' : forall y, occurrences y all = occurrences y (x :: seen) + occurrences y l).
    { intros y. rewrite (Hall y), !occurrences_cons. lia. }
    constructor; [|now apply IH].
    intros Hin. apply renamed_names_in in Hin.
    pose proof (Hall x) as Hx. rewrite occurrences_cons, pystr_eqb_refl in Hx.
    destruct (1 <? occurrences x all) eqn:L.
    + destruct Hin as [[Hin _]|[x' [k [E [Hin Hk]]]]].
      * rewrite Forall_forall in P. apply P in Hin.
        unfold plain in Hin. rewrite numbered_looks_numbered in Hin. discriminate.
      * apply numbered_inj in E as [<- <-].
        rewrite occurrences_cons, pystr_eqb_refl in Hk. lia.
    + apply Nat.ltb_ge in L.
      destruct Hin as [[Hin _]|[x' [k [E [Hin Hk]]]]].
      * apply occurrences_in in Hin. lia.
      * now apply plain_is_not_numbered in E.
Qed.

Section Renaming.

Variable parse : pystr -> outcome Node.
Variable node_str : Node -> pystr.
Variable FULL_TEXT_SEARCH_FIELD_NAME : pystr.

(** The renaming on names none of which has the numbered shape. *)
Lemma numbering_of_plain_names (kw : pystr) (tree : Node) (w : walked) :
  parse kw = Return tree ->
  _get_method node_str FULL_TEXT_SEARCH_FIELD_NAME tree = Return w ->
  Forall plain (map name (fields_of w)) ->
  exists out,
    parsing parse node_str FULL_TEXT_SEARCH_FIELD_NAME kw = Return out
    /\ map unnamed out = map unnamed (fields_of w)
    /\ map name out
       = renamed_names (map name (fields_of w)) [] (map name (fields_of w))
    /\ NoDup (map name out).
Proof.
  intros Hp Hw P. unfold parsing, parsing_tree. rewrite Hp, bind_Return, Hw, bind_Return.
  destruct w as [f|fs]; simpl fields_of in *.
  - exists [f]. split; [reflexivity | split; [reflexivity | split]].
    + simpl. unfold occurrences. simpl. now rewrite pystr_eqb_refl.
    + repeat constructor. simpl. tauto.
  - exists (rename_duplicates fs). split; [|split; [|split]].
    + destruct (Counter (map name fs)) eqn:C; [|reflexivity].
      unfold rename_duplicates. now rewrite C.
    + apply rename_duplicates_unnamed.
    + now apply rename_duplicates_names.
    + rewrite rename_duplicates_names by assumption.
      apply renamed_names_nodup; [assumption|].
      intros x. unfold occurrences at 2. simpl. reflexivity.
Qed.

(** *** The names the walk gives to fields *)

Lemma guarded_from_end (prev : N) (s : pystr) (d c : N) :
  guarded_from prev (s ++ [d; c]) = true -> (negb (N.eqb c 41) || N.eqb d 92) = true.
Proof.
  revert prev. induction s as [|x s IH]; intros prev H; simpl in H.
  - apply andb_true_iff in H as [_ H]. apply andb_true_iff in H as [H _]. exact H.
  - apply andb_true_iff in H as [_ H]. now apply IH in H.
Qed.

(** A term is not of the numbered shape: before its last character, if
    that is a closing parenthesis, stands a backslash and not a digit. *)
Lemma term_name_plain (nm : pystr) : term_name nm = true -> plain nm.
Proof.
  unfold term_name, plain, looks_numbered. intros H.
  destruct (rev nm) as [|close [|d r]] eqn:E; [reflexivity | reflexivity|].
  assert (Hnm : nm = rev r ++ [d; close]).
  { rewrite <- (rev_involutive nm), E. simpl. now rewrite <- app_assoc. }
  rewrite Hnm in H. apply guarded_from_end in H.
  destruct (N.eqb close 41) eqn:C; [|reflexivity].
  simpl in H. apply N.eqb_eq in H. subst d. reflexivity.
Qed.

Lemma word_name (p : nat) (v : pystr) :
  name (parsing_word FULL_TEXT_SEARCH_FIELD_NAME p v) = FULL_TEXT_SEARCH_FIELD_NAME.
Proof. unfold parsing_word. destruct (Re.search _ v); reflexivity. Qed.

Lemma flat_map_plain (l : list Node) (fs : list LuceneField) :
  Forall (fun n => lexed n = true ->
                   forall w, _get_method node_str FULL_TEXT_SEARCH_FIELD_NAME n = Return w ->
                             Forall plain (map name (fields_of w))) l ->
  forallb lexed l = true ->
  flat_map node_str FULL_TEXT_SEARCH_FIELD_NAME l = Return fs ->
  Forall plain (map name fs).
Proof.
  intros H. revert fs. induction H as [|n l Hn _ IH]; intros fs Hl Hf; simpl in Hf.
  - injection Hf as <-. constructor.
  - simpl in Hl. apply andb_true_iff in Hl as [Ln Ll].
    destruct (_get_method node_str FULL_TEXT_SEARCH_FIELD_NAME n) as [w|e] eqn:W;
      simpl in Hf; [|discriminate].
    destruct (flat_map node_str FULL_TEXT_SEARCH_FIELD_NAME l) as [rest|e] eqn:R;
      simpl in Hf; [|discriminate].
    injection Hf as <-. specialize (Hn Ln w eq_refl). specialize (IH rest Ll eq_refl).
    destruct w as [f|fs']; simpl in *.
    + constructor; [now apply Forall_inv in Hn | exact IH].
    + rewrite map_app. apply Forall_app. split; assumption.
Qed.

(** With the names of its search fields delivered by the lexer and a
    reserved name that is not of the numbered shape, no name the walk
    gives to a field is of that shape: it is the reserved name, the
    empty name, or the name of a search field. *)
Lemma walk_names_plain (tree : Node) (w : walked) :
  plain FULL_TEXT_SEARCH_FIELD_NAME ->
  lexed tree = true ->
  _get_method node_str FULL_TEXT_SEARCH_FIELD_NAME tree = Return w ->
  Forall plain (map name (fields_of w)).
Proof.
  intros Hft. revert w.
  induction tree as [| | |p nm x IH|p x IH|p l IH|p lo hi il ih _ _|p t d _|p t d _
                     |p x f _|p l IH|p l IH|p l _|p a IH|p a IH|p a IH]
    using Node_nested_ind; intros w L H.
  - simpl in H. injection H as <-. simpl. rewrite word_name. now repeat constructor.
  - simpl in H. injection H as <-. now repeat constructor.
  - simpl in H. injection H as <-. now repeat constructor.
  - rewrite walk_field_eq in H. simpl in L. apply andb_true_iff in L as [Ln _].
    destruct (_get_method node_str FULL_TEXT_SEARCH_FIELD_NAME x) as [[f|fs]|e];
      simpl in H; try discriminate.
    injection H as <-. simpl. constructor; [now apply term_name_plain | constructor].
  - simpl in H. injection H as <-. now repeat constructor.
  - rewrite get_method_group in H.
    destruct (flat_map node_str FULL_TEXT_SEARCH_FIELD_NAME l) as [fs|e] eqn:F;
      simpl in H; [|discriminate].
    injection H as <-. simpl. apply (flat_map_plain l fs); [|exact L | exact F].
    eapply Forall_impl; [|exact IH]. intros n Hn Ln w' Hw'. now apply Hn.
  - simpl in H. injection H as <-. now repeat constructor.
  - simpl in H. injection H as <-. now repeat constructor.
  - simpl in H. injection H as <-. now repeat constructor.
  - discriminate.
  - rewrite walk_and_eq in H.
    destruct (flat_map node_str FULL_TEXT_SEARCH_FIELD_NAME l) as [fs|e] eqn:F;
      simpl in H; [|discriminate].
    injection H as <-. simpl. apply (flat_map_plain l fs); [|exact L | exact F].
    eapply Forall_impl; [|exact IH]. intros n Hn Ln w' Hw'. now apply Hn.
  - rewrite walk_or_eq in H.
    destruct (flat_map node_str FULL_TEXT_SEARCH_FIELD_NAME l) as [fs|e] eqn:F;
      simpl in H; [|discriminate].
    injection H as <-. simpl. apply (flat_map_plain l fs); [|exact L | exact F].
    eapply Forall_impl; [|exact IH]. intros n Hn Ln w' Hw'. now apply Hn.
  - discriminate.
  - rewrite (walk_unary_eq _ _ UNot) in H.
    destruct (_get_method node_str FULL_TEXT_SEARCH_FIELD_NAME a) as [[f|fs]|e];
      simpl in H; try discriminate.
    injection H as <-. now repeat constructor.
  - rewrite (walk_unary_eq _ _ UPlus) in H.
    destruct (_get_method node_str FULL_TEXT_SEARCH_FIELD_NAME a) as [[f|fs]|e];
      simpl in H; try discriminate.
    injection H as <-. now repeat constructor.
  - rewrite (walk_unary_eq _ _ UProhibit) in H.
    destruct (_get_method node_str FULL_TEXT_SEARCH_FIELD_NAME a) as [[f|fs]|e];
      simpl in H; try discriminate.
    injection H as <-. now repeat constructor.
Qed.

(** C4. For every query that [parsing] accepts, the parser delivering
    the names of search fields as terms of its lexer (a parenthesis only
    escaped) and the reserved name of a clause without a field not being
    of the shape [name(k)]: the returned fields are the extracted ones,
    in order, with only their names changed; a name that occurs more
    than once is replaced by [name(1)], [name(2)], ... in the order of
    the list, a name that occurs once is kept; and the returned names
    are pairwise distinct. *)
Theorem duplicate_names_are_numbered (kw : pystr) (tree : Node) (w : walked) :
  parse kw = Return tree ->
  lexed tree = true ->
  plain FULL_TEXT_SEARCH_FIELD_NAME ->
  _get_method node_str FULL_TEXT_SEARCH_FIELD_NAME tree = Return w ->
  exists out,
    parsing parse node_str FULL_TEXT_SEARCH_FIELD_NAME kw = Return out
    /\ map unnamed out = map unnamed (fields_of w)
    /\ map name out
       = renamed_names (map name (fields_of w)) [] (map name (fields_of w))
    /\ NoDup (map name out).
Proof.
  intros Hp Hl Hft Hw.
  apply (numbering_of_plain_names kw tree w Hp Hw).
  now apply walk_names_plain with (tree := tree).
Qed.

End Renaming.

Lemma duplicate_names_are_numbered_witness :
  Sample.parse (lit "(a AND b)") = Return (Group 0 [Sample.a_and_b 1])
  /\ lexed (Group 0 [Sample.a_and_b 1]) = true
  /\ plain Sample.full_text
  /\ exists out,
       parsing Sample.parse Sample.node_str Sample.full_text (lit "(a AND b)") = Return out
       /\ map name out = [lit "*(1)"; lit "*(2)"]
       /\ NoDup (map name out).
Proof.
  split; [reflexivity | split; [reflexivity | split; [reflexivity|]]].
  destruct (duplicate_names_are_numbered Sample.parse Sample.node_str Sample.full_text
              (lit "(a AND b)") (Group 0 [Sample.a_and_b 1])
              (Many [parsing_word Sample.full_text 1 (lit "a");
                     parsing_word Sample.full_text 7 (lit "b")])
              eq_refl eq_refl eq_refl eq_refl) as [out [H1 [_ [H3 H4]]]].
  exists out. split; [exact H1 | split; [exact H3 | exact H4]].
Defined.

(** Why the names must be the lexer's: on a tree with two fields named
    [x] and one named [x(1)], a name no query gives, the first [x]
    becomes [x(1)] and the names returned are not pairwise distinct. *)
Lemma numbered_name_would_clash :
  exists out,
    parsing_tree Sample.node_str Sample.full_text
      (AndOperation 0 [SearchField 0 (lit "x") (Word 3 (lit "a"));
                       SearchField 9 (lit "x") (Word 12 (lit "b"));
                       SearchField 18 (lit "x(1)") (Word 24 (lit "c"))])
    = Return out
    /\ map name out = [lit "x(1)"; lit "x(2)"; lit "x(1)"].
Proof. eexists. split; vm_compute; reflexivity. Qed.


(* ================================================================= *)
(** ** What a finished repair guarantees *)

Lemma dedup_nonempty (l : list pystr) : l <> [] -> dedup l <> [].
Proof. destruct l; [congruence | discriminate]. Qed.

Section Guarantees.

Variable parse : pystr -> outcome Node.
Variable node_str : Node -> pystr.
Variable unknown_operation_resolver : Node -> Node.
Variable FULL_TEXT_SEARCH_FIELD_NAME : pystr.

Local Abbreviation inspect_ :=
  (inspect parse node_str unknown_operation_resolver FULL_TEXT_SEARCH_FIELD_NAME).
Local Abbreviation run_ :=
  (run_inspectors parse node_str unknown_operation_resolver FULL_TEXT_SEARCH_FIELD_NAME).
Local Abbreviation pass_ :=
  (resolver_inspect parse node_str unknown_operation_resolver FULL_TEXT_SEARCH_FIELD_NAME).
Local Abbreviation loop_ :=
  (resolve_loop parse node_str unknown_operation_resolver FULL_TEXT_SEARCH_FIELD_NAME).
Local Abbreviation resolve_ :=
  (resolve parse node_str unknown_operation_resolver FULL_TEXT_SEARCH_FIELD_NAME).
Local Abbreviation parsing_ := (parsing parse node_str FULL_TEXT_SEARCH_FIELD_NAME).

(** In a pass that appends no message every inspector returns the
    inspector it was constructed as. *)
Lemma quiet_pass_all_legal classes kw messages kw' messages' :
  run_ classes kw messages = Return (kw', messages') ->
  length messages <= length messages'
  /\ (length messages' = length messages ->
      kw' = kw /\ Forall (fun c => inspect_ c kw = Return (new_inspector kw)) classes).
Proof.
  revert kw messages. induction classes as [|c rest IH]; intros kw messages H; simpl in H.
  - injection H as <- <-. auto.
  - destruct (inspect_ c kw) as [self|e] eqn:I; simpl in H; [|discriminate].
    apply IH in H as [Hlen Hq].
    destruct (is_legal (result self)) eqn:L.
    + split; [exact Hlen|]. intros E. destruct (Hq E) as [Hkw Hall].
      pose proof (legal_inspector_untouched _ _ _ _ c kw self I L) as ->.
      simpl in Hkw, Hall. split; [assumption|]. constructor; assumption.
    + rewrite length_app in Hlen. simpl in Hlen. split; lia.
Qed.

(** What one call of [LuceneSyntaxResolver.inspect] leaves behind. *)
Lemma pass_outcome self b self' :
  pass_ self = Return (b, self') ->
  (b = true /\ self' = self
   /\ run_ REGISTERED_INSPECTORS (r_keyword self) [] = Return (r_keyword self, []))
  \/ (b = false /\ exists m ms, r_messages self' = r_messages self ++ m :: ms).
Proof.
  unfold resolver_inspect. intros H.
  destruct (run_ REGISTERED_INSPECTORS (r_keyword self) []) as [[kw' msgs]|e] eqn:R;
    simpl in H; [|discriminate].
  destruct msgs as [|m ms]; injection H as <- <-.
  - left. destruct (quiet_pass_all_legal _ _ _ _ _ R) as [_ Hq].
    destruct (Hq eq_refl) as [-> _]. destruct self. auto.
  - right. split; [reflexivity|]. now exists m, ms.
Qed.

Lemma loop_outcome times self b self' :
  loop_ times self = Return (b, self') ->
  (b = true
   /\ run_ REGISTERED_INSPECTORS (r_keyword self') [] = Return (r_keyword self', []))
  \/ (b = false /\ exists added, r_messages self' = r_messages self ++ added
                                 /\ (0 < times -> added <> [])).
Proof.
  revert self. induction times as [|n IH]; intros self H; simpl in H.
  - injection H as <- <-. right. split; [reflexivity|]. exists [].
    split; [now rewrite app_nil_r | lia].
  - destruct (pass_ self) as [[b1 s1]|e] eqn:P; simpl in H; [|discriminate].
    destruct (pass_outcome _ _ _ P) as [[-> [-> R]]|[-> [m [ms E]]]]; simpl in H.
    + injection H as <- <-. now left.
    + destruct (IH _ H) as [[-> R]|[-> [added [E' _]]]].
      * now left.
      * right. split; [reflexivity|]. exists ((m :: ms) ++ added). split.
        -- rewrite E', E, <- app_assoc. reflexivity.
        -- intros _. discriminate.
Qed.

(** Whatever the parser does: a repair that returns without a clean
    pass within [MAX_RESOLVE_TIMES] passes returns [is_legal = false]. *)
Theorem unresolved_repair_is_illegal (kw : pystr) (r : RepairResult) :
  resolve_ kw = Return r ->
  rr_is_resolved r = false ->
  rr_is_legal r = false.
Proof.
  unfold resolve. intros H U.
  destruct (loop_ MAX_RESOLVE_TIMES _) as [[b s]|e] eqn:L; simpl in H; [|discriminate].
  injection H as <-. simpl in U. subst b. simpl.
  destruct (loop_outcome _ _ _ _ L) as [[B _]|[_ [added [E N]]]]; [discriminate|].
  simpl in E. unfold final_messages. simpl.
  assert (D : dedup (r_messages s) <> []).
  { apply dedup_nonempty. rewrite E. apply N. unfold MAX_RESOLVE_TIMES. lia. }
  destruct (dedup (r_messages s)); [congruence | reflexivity].
Qed.

(** A repair that returns resolved returns a keyword that [parsing] accepts. *)
Theorem resolved_keyword_is_extractable (kw : pystr) (r : RepairResult) :
  resolve_ kw = Return r ->
  rr_is_resolved r = true ->
  exists fields, parsing_ (rr_keyword r) = Return fields.
Proof.
  unfold resolve. intros H U.
  destruct (loop_ MAX_RESOLVE_TIMES _) as [[b s]|e] eqn:L; simpl in H; [|discriminate].
  injection H as <-. simpl in U. subst b. simpl.
  destruct (loop_outcome _ _ _ _ L) as [[_ R]|[B _]]; [|discriminate].
  destruct (quiet_pass_all_legal _ _ _ _ _ R) as [_ Hq].
  destruct (Hq eq_refl) as [_ Hall].
  unfold REGISTERED_INSPECTORS in Hall.
  do 6 apply Forall_inv_tail in Hall. apply Forall_inv in Hall.
  unfold inspect, inspect_default in Hall. cbn [keyword new_inspector] in Hall.
  destruct (parse (r_keyword s)) as [t|e] eqn:P; simpl in Hall; [|discriminate].
  destruct (parsing_ (r_keyword s)) as [fields|e] eqn:F; [|discriminate].
  now exists fields.
Qed.

(** A keyword without a curly quote pair that parses and whose fields
    are extracted comes back as it is, legal and resolved. *)
Theorem wellformed_keyword_is_left_alone (kw : pystr) (tree : Node) (fields : list LuceneField) :
  Re.finditer chinese_punctuation_re kw = [] ->
  parse kw = Return tree ->
  parsing_tree node_str FULL_TEXT_SEARCH_FIELD_NAME tree = Return fields ->
  resolve_ kw
  = Return {| rr_is_legal := true; rr_is_resolved := true; rr_message := [];
              rr_keyword := kw |}.
Proof.
  intros Hq Hp Hf.
  assert (R : run_ REGISTERED_INSPECTORS kw [] = Return (kw, [])).
  { unfold REGISTERED_INSPECTORS.
    rewrite run_inspectors_cons, chinese_quiet_on by exact Hq.
    rewrite bind_Return. cbn [keyword result is_legal new_inspector].
    do 5 (rewrite run_inspectors_cons, (parsed_keyword_passes _ _ _ _ _ kw tree Hp)
            by (cbv; intuition congruence);
          rewrite bind_Return; cbn [keyword result is_legal new_inspector]).
    rewrite run_inspectors_cons. unfold inspect, inspect_default, parsing.
    cbn [keyword new_inspector]. rewrite Hp, !bind_Return, Hf. reflexivity. }
  unfold resolve, MAX_RESOLVE_TIMES. rewrite resolve_loop_S.
  unfold resolver_inspect. cbn [r_keyword]. rewrite R. reflexivity.
Qed.

(** The scenarios the pipeline does repair.  With luqum's outcomes on
    the keywords: a lone trailing colon is dropped, and a range without
    its low endpoint gets a star. *)
Theorem repaired_scenarios :
  parse (lit "foo:") = Raise end_of_expression ->
  parse (lit "foo") = Return (Word 0 (lit "foo")) ->
  parse (lit "ts: [ TO 100]") = Raise (unexpected (lit "TO") 6) ->
  parse (lit "ts: [* TO 100]")
  = Return (SearchField 0 (lit "ts")
              (Range 4 (Word 5 (lit "*")) (Word 10 (lit "100")) true true)) ->
  resolve_ (lit "foo:")
  = Return {| rr_is_legal := false; rr_is_resolved := true;
              rr_message := syntax_error_message IllegalColonInspector;
              rr_keyword := lit "foo" |}
  /\ resolve_ (lit "ts: [ TO 100]")
     = Return {| rr_is_legal := false; rr_is_resolved := true;
                 rr_message := syntax_error_message IllegalRangeSyntaxInspector;
                 rr_keyword := lit "ts: [* TO 100]" |}.
Proof.
  intros H1 H2 H3 H4.
  resolve_by_table
    [(lit "foo:", @Raise Node end_of_expression);
     (lit "foo", Return (Word 0 (lit "foo")));
     (lit "ts: [ TO 100]", Raise (unexpected (lit "TO") 6));
     (lit "ts: [* TO 100]",
      Return (SearchField 0 (lit "ts")
                (Range 4 (Word 5 (lit "*")) (Word 10 (lit "100")) true true)))] parse node_str
      unknown_operation_resolver FULL_TEXT_SEARCH_FIELD_NAME.
  split; vm_compute; reflexivity.
Qed.

End Guarantees.

Lemma unresolved_repair_is_illegal_witness :
  resolve Sample.parse Sample.node_str Sample.resolver Sample.full_text (lit "foo bar")
  = Return {| rr_is_legal := false; rr_is_resolved := false;
              rr_message := syntax_error_message DefaultInspector;
              rr_keyword := lit "foo bar" |}
  /\ rr_is_legal {| rr_is_legal := false; rr_is_resolved := false;
                    rr_message := syntax_error_message DefaultInspector;
                    rr_keyword := lit "foo bar" |} = false.
Proof.
  split; [vm_compute; reflexivity|].
  apply (unresolved_repair_is_illegal Sample.parse Sample.node_str Sample.resolver
           Sample.full_text (lit "foo bar")); [vm_compute; reflexivity | reflexivity].
Defined.

Lemma resolved_keyword_is_extractable_witness :
  resolve Sample.parse Sample.node_str Sample.resolver Sample.full_text (lit "foo:")
  = Return {| rr_is_legal := false; rr_is_resolved := true;
              rr_message := syntax_error_message IllegalColonInspector;
              rr_keyword := lit "foo" |}
  /\ exists fields,
       parsing Sample.parse Sample.node_str Sample.full_text (lit "foo") = Return fields.
Proof.
  split; [vm_compute; reflexivity|].
  apply (resolved_keyword_is_extractable Sample.parse Sample.node_str Sample.resolver
           Sample.full_text (lit "foo:")
           {| rr_is_legal := false; rr_is_resolved := true;
              rr_message := syntax_error_message IllegalColonInspector;
              rr_keyword := lit "foo" |}); [vm_compute; reflexivity | reflexivity].
Defined.

Lemma wellformed_keyword_is_left_alone_witness :
  Re.finditer chinese_punctuation_re (lit "foo") = []
  /\ Sample.parse (lit "foo") = Return (Word 0 (lit "foo"))
  /\ resolve Sample.parse Sample.node_str Sample.resolver Sample.full_text (lit "foo")
     = Return {| rr_is_legal := true; rr_is_resolved := true; rr_message := [];
                 rr_keyword := lit "foo" |}.
Proof.
  split; [reflexivity | split; [reflexivity|]].
  apply (wellformed_keyword_is_left_alone Sample.parse Sample.node_str Sample.resolver
           Sample.full_text (lit "foo") (Word 0 (lit "foo"))
           [parsing_word Sample.full_text 0 (lit "foo")]); reflexivity.
Defined.

Lemma repaired_scenarios_witness :
  resolve Sample.parse Sample.node_str Sample.resolver Sample.full_text (lit "foo:")
  = Return {| rr_is_legal := false; rr_is_resolved := true;
              rr_message := syntax_error_message IllegalColonInspector;
              rr_keyword := lit "foo" |}
  /\ resolve Sample.parse Sample.node_str Sample.resolver Sample.full_text
       (lit "ts: [ TO 100]")
     = Return {| rr_is_legal := false; rr_is_resolved := true;
                 rr_message := syntax_error_message IllegalRangeSyntaxInspector;
                 rr_keyword := lit "ts: [* TO 100]" |}.
Proof.
  apply (repaired_scenarios Sample.parse Sample.node_str Sample.resolver Sample.full_text);
    reflexivity.
Defined.

(* ================================================================= *)
(** ** The field walk *)

Section Walk.

Variable parse : pystr -> outcome Node.
Variable node_str : Node -> pystr.
Variable FULL_TEXT_SEARCH_FIELD_NAME : pystr.

Local Abbreviation walk := (_get_method node_str FULL_TEXT_SEARCH_FIELD_NAME).
Local Abbreviation walk_all := (flat_map node_str FULL_TEXT_SEARCH_FIELD_NAME).

(** *** Groups and boolean operations are flattened *)

Lemma walk_all_app (l1 l2 : list Node) :
  walk_all (l1 ++ l2)
  = (f1 <- walk_all l1 ;; f2 <- walk_all l2 ;; Return (f1 ++ f2)).
Proof.
  induction l1 as [|n l1 IH]; simpl.
  - destruct (walk_all l2); reflexivity.
  - destruct (walk n) as [r|e]; simpl; [|reflexivity].
    rewrite IH. destruct (walk_all l1) as [f1|e]; simpl; [|reflexivity].
    destruct (walk_all l2) as [f2|e]; simpl; [|reflexivity].
    destruct r; simpl; [reflexivity | now rewrite app_assoc].
Qed.

Lemma walk_all_container (node : Node) (l : list Node) :
  container node l -> walk_all [node] = walk_all l.
Proof.
  intros C. simpl.
  assert (E : walk node = (fields <- walk_all l ;; Return (Many fields)))
    by (destruct C; reflexivity).
  rewrite E. destruct (walk_all l) as [fs|e]; simpl; [|reflexivity].
  now rewrite app_nil_r.
Qed.

(** Among the operands of a group or a boolean operation, a nested
    group, AND or OR stands for its own operands: putting them in its
    place changes neither the fields extracted, nor their order, nor the
    exception raised.  The field list shows no boolean structure. *)
Theorem nested_operands_are_flattened (node : Node) (l before after : list Node) :
  container node l ->
  walk_all (before ++ node :: after) = walk_all (before ++ l ++ after).
Proof.
  intros C.
  change (node :: after) with ([node] ++ after).
  rewrite !walk_all_app, (walk_all_container node l C). reflexivity.
Qed.

(** *** What [parsing] does to the extracted fields *)

Lemma nodup_occurrences (x : pystr) (l : list pystr) : NoDup l -> occurrences x l <= 1.
Proof.
  induction 1 as [|y l Hy _ IH].
  - unfold occurrences. simpl. lia.
  - rewrite occurrences_cons. destruct (pystr_eqb x y) eqn:E; [|lia].
    apply pystr_eqb_eq in E. subst y.
    destruct (occurrences x l) eqn:O; [lia|].
    exfalso. apply Hy, occurrences_in. lia.
Qed.

Lemma rename_duplicates_distinct (fields : list LuceneField) :
  NoDup (map name fields) -> rename_duplicates fields = fields.
Proof.
  intros ND. unfold rename_duplicates.
  destruct (Counter_exact (map name fields)) as [_ [Hcount _]].
  assert (H : Forall (fun item => snd item <= 1) (Counter (map name fields))).
  { apply Forall_forall. intros [k n] Hin. simpl.
    rewrite (Hcount _ _ Hin). now apply nodup_occurrences. }
  revert H. generalize (Counter (map name fields)) as items.
  induction items as [|[k n] items IH]; intros H; simpl.
  - reflexivity.
  - inversion H as [|? ? Hn Hrest]; subst. simpl in Hn.
    destruct (1 <? n) eqn:L; [apply Nat.ltb_lt in L; lia|].
    now apply IH.
Qed.

(** Whenever the walk returns, [parsing] returns: the fields are the
    extracted ones, as many and in the same order, with the same
    position, type, operator and value; only names can differ.  When
    the extracted names are pairwise distinct nothing differs at all. *)
Theorem parsing_changes_only_names (kw : pystr) (tree : Node) (w : walked) :
  parse kw = Return tree ->
  walk tree = Return w ->
  exists out,
    parsing parse node_str FULL_TEXT_SEARCH_FIELD_NAME kw = Return out
    /\ length out = length (fields_of w)
    /\ map unnamed out = map unnamed (fields_of w)
    /\ (NoDup (map name (fields_of w)) -> out = fields_of w).
Proof.
  intros Hp Hw. unfold parsing, parsing_tree. rewrite Hp, bind_Return, Hw, bind_Return.
  destruct w as [f|fs]; simpl fields_of.
  - exists [f]. auto.
  - exists (rename_duplicates fs).
    assert (U : map unnamed (rename_duplicates fs) = map unnamed fs)
      by apply rename_duplicates_unnamed.
    split; [|split; [|split]].
    + destruct (Counter (map name fs)) eqn:C; [|reflexivity].
      unfold rename_duplicates. now rewrite C.
    + apply (f_equal (@length _)) in U. now rewrite !length_map in U.
    + exact U.
    + apply rename_duplicates_distinct.
Qed.

End Walk.

Lemma nested_operands_are_flattened_witness :
  container (Group 4 [Sample.a_and_b 5]) [Sample.a_and_b 5]
  /\ flat_map Sample.node_str Sample.full_text
       ([Word 0 (lit "x")] ++ Group 4 [Sample.a_and_b 5] :: [Word 13 (lit "y")])
     = flat_map Sample.node_str Sample.full_text
         ([Word 0 (lit "x")] ++ [Sample.a_and_b 5] ++ [Word 13 (lit "y")]).
Proof.
  split; [constructor|].
  apply (nested_operands_are_flattened Sample.node_str Sample.full_text
           (Group 4 [Sample.a_and_b 5]) [Sample.a_and_b 5]
           [Word 0 (lit "x")] [Word 13 (lit "y")]).
  constructor.
Defined.

Lemma parsing_changes_only_names_witness :
  Sample.parse (lit "(a AND b)") = Return (Group 0 [Sample.a_and_b 1])
  /\ exists out,
       parsing Sample.parse Sample.node_str Sample.full_text (lit "(a AND b)") = Return out
       /\ length out = 2
       /\ map unnamed out = [(1, WORD, lit "~=", lit "a"); (7, WORD, lit "~=", lit "b")].
Proof.
  split; [reflexivity|].
  destruct (parsing_changes_only_names Sample.parse Sample.node_str Sample.full_text
              (lit "(a AND b)") (Group 0 [Sample.a_and_b 1])
              (Many [parsing_word Sample.full_text 1 (lit "a");
                     parsing_word Sample.full_text 7 (lit "b")])
              eq_refl eq_refl) as [out [H1 [H2 [H3 _]]]].
  exists out. split; [exact H1 | split; [exact H2 | exact H3]].
Defined.

(* ================================================================= *)
(** ** Messages with a position, and the patterns that read them *)

Lemma int_of_uint (d : Decimal.uint) (acc : nat) :
  fold_left (fun acc c => 10 * acc + N.to_nat (c - 48)) (lit (DecimalString.NilEmpty.string_of_uint d)) acc
  = Nat.of_uint_acc d acc.
Proof.
  unfold lit. revert acc.
  induction d as [|d IH|d IH|d IH|d IH|d IH|d IH|d IH|d IH|d IH|d IH];
    intros acc; [reflexivity|..];
    cbn [DecimalString.NilEmpty.string_of_uint String.list_ascii_of_string map fold_left];
    rewrite IH; cbn [Nat.of_uint_acc]; rewrite Nat.tail_mul_spec;
    f_equal; vm_compute N.to_nat; lia.
Qed.

(** [int(str(n)) == n] *)
Lemma int_of_str_of_nat (n : nat) : int_of (str_of_nat n) = n.
Proof.
  unfold int_of, str_of_nat. rewrite int_of_uint.
  change (Nat.of_uint_acc (Nat.to_uint n) 0) with (Nat.of_uint (Nat.to_uint n)).
  apply DecimalNat.Unsigned.of_to.
Qed.

Lemma match_chars (p : pystr) (r : Re.seq) (s : pystr) (pos : nat) (c : Re.caps) :
  Re.match_seq (map Re.Chr p ++ r) (p ++ s) pos c = Re.match_seq r s (pos + length p) c.
Proof.
  revert pos. induction p as [|x p IH]; intros pos; simpl.
  - now rewrite Nat.add_0_r.
  - rewrite N.eqb_refl, IH. f_equal. lia.
Qed.

Lemma match_gopen (r : Re.seq) (s : pystr) (pos : nat) (c : Re.caps) :
  Re.match_seq (Re.GOpen :: r) s pos c
  = Re.match_seq r s pos {| Re.spans := Re.spans c; Re.opened := pos |}.
Proof. reflexivity. Qed.

Lemma match_gclose (r : Re.seq) (s : pystr) (pos : nat) (c : Re.caps) :
  Re.match_seq (Re.GClose :: r) s pos c
  = Re.match_seq r s pos {| Re.spans := (Re.opened c, pos) :: Re.spans c;
                            Re.opened := Re.opened c |}.
Proof. reflexivity. Qed.

Lemma match_chr (x : N) (r : Re.seq) (s : pystr) (pos : nat) (c : Re.caps) :
  Re.match_seq (Re.Chr x :: r) (x :: s) pos c = Re.match_seq r s (S pos) c.
Proof. simpl. now rewrite N.eqb_refl. Qed.

Lemma match_one (cl : Re.cls) (y : N) (r : Re.seq) (s : pystr) (pos : nat) (c : Re.caps) :
  Re.in_cls cl y = true ->
  Re.match_seq (Re.One cl :: r) (y :: s) pos c = Re.match_seq r s (S pos) c.
Proof. intros H. simpl. now rewrite H. Qed.

(** The unfolding equation of a greedy star. *)
Lemma star_greedy_eq (cl : Re.cls) (r : Re.seq) (s : pystr) (pos : nat) (c : Re.caps) :
  Re.match_seq (Re.StarGreedy cl :: r) s pos c
  = match
      match s with
      | y :: s' =>
          if Re.in_cls cl y then Re.match_seq (Re.StarGreedy cl :: r) s' (S pos) c else None
      | [] => None
      end
    with
    | Some res => Some res
    | None => Re.match_seq r s pos c
    end.
Proof. destruct s; reflexivity. Qed.

(** A run that is to be followed by a character the text does not hold
    finds no match. *)
Lemma star_without (cl : Re.cls) (q : N) (r : Re.seq) (u : pystr) (pos : nat) (c : Re.caps) :
  ~ In q u ->
  Re.match_seq (Re.StarGreedy cl :: Re.GClose :: Re.Chr q :: r) u pos c = None.
Proof.
  revert pos. induction u as [|y u IH]; intros pos H; rewrite star_greedy_eq.
  - reflexivity.
  - assert (Hy : N.eqb y q = false) by (apply N.eqb_neq; intros ->; apply H; now left).
    assert (Hu : ~ In q u) by (intros Hin; apply H; now right).
    rewrite (IH (S pos) Hu). destruct (Re.in_cls cl y); simpl; now rewrite Hy.
Qed.

(** A greedy run before the last [q] of the text takes everything up to
    that [q], provided the rest of the pattern matches from there. *)
Lemma star_takes_token (q : N) (r : Re.seq) (tok tail : pystr) (pos : nat) (c : Re.caps) :
  ~ In LF tok -> ~ In q tail ->
  (forall p c', Re.match_seq (Re.GClose :: Re.Chr q :: r) (q :: tail) p c' <> None) ->
  Re.match_seq (Re.StarGreedy Re.Dot :: Re.GClose :: Re.Chr q :: r) (tok ++ q :: tail) pos c
  = Re.match_seq (Re.GClose :: Re.Chr q :: r) (q :: tail) (pos + length tok) c.
Proof.
  intros Htok Htail Hok. revert pos.
  induction tok as [|y tok IH]; intros pos; rewrite star_greedy_eq; cbn [app length].
  - rewrite Nat.add_0_r, (star_without Re.Dot q r tail (S pos) c Htail).
    destruct (Re.in_cls Re.Dot q); reflexivity.
  - assert (Hy : Re.in_cls Re.Dot y = true).
    { simpl. apply negb_true_iff, N.eqb_neq. intros ->. apply Htok. now left. }
    rewrite Hy, IH by (intros Hin; apply Htok; now right).
    replace (S pos + length tok) with (pos + S (length tok)) by lia.
    destruct (Re.match_seq (Re.GClose :: Re.Chr q :: r) (q :: tail) (pos + S (length tok)) c)
      eqn:E; [reflexivity|]. now apply Hok in E.
Qed.

(** A greedy run of digits at the end of the pattern takes all the digits. *)
Lemma digits_run (ds rest : pystr) (pos : nat) (c : Re.caps) :
  all_digits ds -> clear_of_digits rest = true ->
  Re.match_seq [Re.StarGreedy Re.Digit; Re.GClose] (ds ++ rest) pos c
  = Some (pos + length ds,
          {| Re.spans := (Re.opened c, pos + length ds) :: Re.spans c;
             Re.opened := Re.opened c |}).
Proof.
  intros Hds Hrest. revert pos.
  induction Hds as [|d ds Hd _ IH]; intros pos; rewrite star_greedy_eq; cbn [app length].
  - rewrite Nat.add_0_r. destruct rest as [|x rest]; [reflexivity|].
    simpl in Hrest. apply andb_true_iff in Hrest as [Hrest _].
    apply negb_true_iff in Hrest. simpl. now rewrite Hrest.
  - simpl Re.in_cls. rewrite Hd, IH.
    replace (S pos + length ds) with (pos + S (length ds)) by lia. reflexivity.
Qed.

Lemma digit_is_no_quote (s : pystr) : all_digits s -> ~ In QUOTE s.
Proof.
  intros H Hin. unfold all_digits in H. rewrite Forall_forall in H.
  apply H in Hin. discriminate.
Qed.

Lemma slice_middle (a b c : pystr) : slice (a ++ b ++ c) (length a) (length a + length b) = b.
Proof.
  unfold slice. rewrite skipn_app, skipn_all, Nat.sub_diag. simpl.
  replace (length a + length b - length a) with (length b + 0) by lia.
  rewrite firstn_app_2. simpl. apply app_nil_r.
Qed.

Lemma search_from_eq (r : Re.regex) (s : pystr) (pos : nat) :
  Re.search_from r s pos
  = match Re.match_alt r s pos with
    | Some m => Some m
    | None => match s with [] => None | _ :: s' => Re.search_from r s' (S pos) end
    end.
Proof. destruct s; reflexivity. Qed.

(** On a message of the expected shape the pattern finds the token in
    its first group and the position in its second. *)
Lemma search_positioned (head tok : pystr) (pos : nat) (trailer : pystr) :
  ~ In LF tok -> ~ In QUOTE trailer -> clear_of_digits trailer = true ->
  exists m,
    Re.search (positioned_re head) (positioned head tok pos trailer) = Some m
    /\ Re.group (positioned head tok pos trailer) m 1 = tok
    /\ Re.group (positioned head tok pos trailer) m 2 = str_of_nat pos.
Proof.
  intros Htok Htr Hcl.
  pose (sep := lit " at position ").
  pose (digits := [Re.GOpen; Re.One Re.Digit; Re.StarGreedy Re.Digit; Re.GClose]).
  assert (Hdig : exists d ds, str_of_nat pos = d :: ds /\ isdigit d = true /\ all_digits ds).
  { pose proof (str_of_nat_digits pos) as D. pose proof (str_of_nat_nonempty pos) as NE.
    destruct (str_of_nat pos) as [|d ds]; [congruence|].
    exists d, ds. inversion D; subst. auto. }
  destruct Hdig as [d [ds [Epos [Hd Hds]]]].
  assert (Htail : ~ In QUOTE (sep ++ str_of_nat pos ++ trailer)).
  { rewrite !in_app_iff. intros [H|[H|H]].
    - vm_compute in H. intuition discriminate.
    - now apply (digit_is_no_quote _ (str_of_nat_digits pos)).
    - now apply Htr. }
  assert (Hrest : forall p c',
             Re.match_seq (Re.GClose :: Re.Chr QUOTE :: map Re.Chr sep ++ digits)
               (QUOTE :: sep ++ str_of_nat pos ++ trailer) p c'
             = Some (S p + length sep + length (str_of_nat pos),
                     {| Re.spans := (S p + length sep, S p + length sep + length (str_of_nat pos))
                                    :: (Re.opened c', p) :: Re.spans c';
                        Re.opened := S p + length sep |})).
  { intros p c'. rewrite match_gclose, match_chr, match_chars.
    unfold digits. rewrite Epos, match_gopen. cbn [app].
    rewrite match_one by exact Hd.
    rewrite digits_run by assumption. cbn [length Re.opened Re.spans].
    replace (S (p + length sep)) with (S p + length sep) by lia.
    replace (S (S p + length sep) + length ds) with (S p + length sep + S (length ds)) by lia.
    reflexivity. }
  set (msg := positioned head tok pos trailer).
  exists {| Re.m_start := 0;
            Re.m_end := S (length head + length tok) + length sep + length (str_of_nat pos);
            Re.m_groups := [(length head, length head + length tok);
                            (S (length head + length tok) + length sep,
                             S (length head + length tok) + length sep
                             + length (str_of_nat pos))] |}.
  split; [|split].
  - unfold Re.search. rewrite search_from_eq. unfold positioned_re, Re.match_alt.
    unfold msg, positioned.
    change (Re.chars "' at position ") with (Re.Chr QUOTE :: map Re.Chr sep).
    change (lit "' at position ") with (QUOTE :: sep).
    cbn [app]. rewrite match_chars, match_gopen.
    rewrite star_takes_token; [| assumption | assumption | intros p c'; rewrite Hrest; discriminate].
    rewrite Hrest. reflexivity.
  - unfold Re.group. cbn [nth_error Re.m_groups Nat.sub]. unfold msg, positioned.
    apply slice_middle.
  - unfold Re.group. cbn [nth_error Re.m_groups Nat.sub]. unfold msg, positioned.
    change (lit "' at position ") with (QUOTE :: sep).
    replace (head ++ tok ++ (QUOTE :: sep) ++ str_of_nat pos ++ trailer)
      with ((head ++ tok ++ QUOTE :: sep) ++ str_of_nat pos ++ trailer)
      by (now rewrite <- !app_assoc).
    replace (S (length head + length tok) + length sep)
      with (length (head ++ tok ++ QUOTE :: sep))
      by (rewrite !length_app; simpl; lia).
    apply slice_middle.
Qed.

Lemma without_In (c : N) (s : pystr) : without c s = true <-> ~ In c s.
Proof.
  unfold without. rewrite forallb_forall. split.
  - intros H Hin. apply H in Hin. now rewrite N.eqb_refl in Hin.
  - intros H x Hin. apply negb_true_iff, N.eqb_neq. intros ->. now apply H.
Qed.

Lemma unexpect_word_re_positioned : unexpect_word_re = positioned_re unexpected_head.
Proof. reflexivity. Qed.

Lemma illegal_character_re_positioned : illegal_character_re = positioned_re illegal_head.
Proof. reflexivity. Qed.

(* ================================================================= *)
(** ** The inspectors, one by one *)

Lemma find_from_last (c : N) (s : pystr) (i : Z) :
  (0 <= i)%Z ->
  (find_from c s i = i + Z.of_nat (length s) - 1)%Z
  <-> (s = [] /\ i = 0%Z) \/ (exists body, s = body ++ [c] /\ ~ In c body).
Proof.
  revert i. induction s as [|x s IH]; intros i Hi.
  - simpl. split.
    + intros H. left. split; [reflexivity | lia].
    + intros [[_ ->]|[body [H _]]]; [reflexivity|]. now destruct body.
  - cbn [find_from length]. destruct (N.eqb x c) eqn:E.
    + apply N.eqb_eq in E. subst x. split.
      * intros H. right. exists []. destruct s; [auto | simpl in H; lia].
      * intros [[H _]|[body [H Hb]]]; [discriminate|].
        destruct body as [|b body].
        -- injection H as ->. simpl. lia.
        -- injection H as <- _. exfalso. apply Hb. now left.
    + apply N.eqb_neq in E.
      replace (i + Z.of_nat (S (length s)) - 1)%Z with ((i + 1) + Z.of_nat (length s) - 1)%Z by lia.
      rewrite IH by lia. split.
      * intros [[_ H]|[body [-> Hb]]]; [lia|]. right. exists (x :: body). split; [reflexivity|].
        intros [H|H]; [congruence | contradiction].
      * intros [[H _]|[body [H Hb]]]; [discriminate|]. right.
        destruct body as [|b body].
        -- injection H as -> _. congruence.
        -- injection H as <- ->. exists body. split; [reflexivity|].
           intros Hin. apply Hb. now right.
Qed.

Lemma join_nil (parts : list pystr) : join [] parts = concat parts.
Proof.
  induction parts as [|p parts IH]; [reflexivity|].
  destruct parts as [|p' parts]; simpl in *.
  - now rewrite app_nil_r.
  - now rewrite IH.
Qed.

Lemma resolve_ranges_spliced (kw : pystr) (spans : list (nat * nat)) :
  forall i n prev_end remain,
    n = i + length spans -> (i = 0 -> prev_end = 0) ->
    concat (resolve_ranges kw i n prev_end spans remain)
    = concat remain ++ spliced kw prev_end spans.
Proof.
  induction spans as [|[st en] rest IH]; intros i n prev_end remain Hn H0.
  - simpl. now rewrite app_nil_r.
  - assert (Hgap : (if i =? 0 then firstn st kw else slice kw prev_end st) = slice kw prev_end st).
    { destruct (i =? 0) eqn:E; [|reflexivity]. apply Nat.eqb_eq in E.
      rewrite (H0 E). unfold slice. now rewrite Nat.sub_0_r. }
    assert (Hlast : (i =? n - 1) = match rest with [] => true | _ => false end).
    { simpl in Hn. destruct rest; simpl in Hn.
      - apply Nat.eqb_eq. lia.
      - apply Nat.eqb_neq. lia. }
    assert (Hrec : forall remain',
               concat (resolve_ranges kw (S i) n en rest remain')
               = concat remain' ++ match rest with [] => [] | _ => spliced kw en rest end).
    { intros remain'. rewrite IH; [| simpl in Hn; lia | discriminate].
      destruct rest; reflexivity. }
    cbn [resolve_ranges spliced]. rewrite Hgap, Hlast.
    unfold range_fix, wellformed_range.
    destruct (Re.search single_range_re (slice kw st en)) as [m|].
    + destruct (strip (Re.group (slice kw st en) m 1)) as [|a start];
        destruct (strip (Re.group (slice kw st en) m 2)) as [|b end_];
        rewrite Hrec; destruct rest;
          rewrite ?concat_app; cbn [concat]; rewrite ?app_nil_r, <- ?app_assoc;
            reflexivity.
    + rewrite Hrec. destruct rest;
        rewrite ?concat_app; cbn [concat]; rewrite ?app_nil_r, <- ?app_assoc; reflexivity.
Qed.

Section Inspectors.

Variable parse : pystr -> outcome Node.
Variable node_str : Node -> pystr.
Variable unknown_operation_resolver : Node -> Node.
Variable FULL_TEXT_SEARCH_FIELD_NAME : pystr.

Local Abbreviation inspect_ :=
  (inspect parse node_str unknown_operation_resolver FULL_TEXT_SEARCH_FIELD_NAME).

(** On the end-of-expression error the colon inspector reports exactly
    when the keyword is empty or its only colon is its last character;
    then the keyword loses its last character (the empty keyword stays
    empty), and otherwise nothing changes. *)
Theorem colon_inspector_drops_lone_trailing_colon (kw : pystr) :
  parse kw = Raise end_of_expression ->
  exists self,
    inspect_ IllegalColonInspector kw = Return self
    /\ (is_legal (result self) = false
        <-> kw = [] \/ exists body, kw = body ++ [COLON] /\ without COLON body = true)
    /\ (is_legal (result self) = false ->
        keyword self = removelast kw
        /\ message (result self) = syntax_error_message IllegalColonInspector)
    /\ (is_legal (result self) = true -> keyword self = kw).
Proof.
  intros Hp. unfold inspect, inspect_illegal_colon. cbn [keyword new_inspector].
  rewrite Hp. unfold end_of_expression. rewrite pystr_eqb_refl.
  pose proof (find_from_last COLON kw 0 (Z.le_refl 0)) as F.
  change (find_from COLON kw 0) with (find 58 kw) in F.
  assert (F' : (find 58 kw =? Z.of_nat (length kw) - 1)%Z = true
               <-> kw = [] \/ exists body, kw = body ++ [COLON] /\ without COLON body = true).
  { rewrite Z.eqb_eq.
    replace (Z.of_nat (length kw) - 1)%Z with (0 + Z.of_nat (length kw) - 1)%Z by lia.
    rewrite F. split.
    - intros [[H _]|[body [H Hb]]]; [now left|]. right. exists body.
      now rewrite without_In.
    - intros [H|[body [H Hb]]]; [now left|]. right. exists body.
      now rewrite <- without_In. }
  destruct (find 58 kw =? Z.of_nat (length kw) - 1)%Z eqn:E.
  - eexists. split; [reflexivity|]. cbn [result is_legal keyword message set_illegal set_keyword].
    split; [|split].
    + split; [intros _; now apply F' | reflexivity].
    + auto.
    + discriminate.
  - exists (new_inspector kw). split; [reflexivity|]. cbn [result is_legal keyword new_inspector].
    split; [|split].
    + split; [discriminate|]. intros H. apply F' in H. discriminate.
    + discriminate.
    + reflexivity.
Qed.

(** When the parser's error names a token and a position in the text
    the inspector's patterns expect, the character inspector removes
    from the keyword the [len(token)] characters at that position (what
    a slice does past the end of the keyword included), and reports.
    The token may hold quotes and the words of the message itself, but
    no line feed. *)
Theorem character_inspector_cuts_reported_token
        (kw tok : pystr) (pos : nat) (trailer : pystr) (e : exn) :
  e = ParseSyntaxError (positioned unexpected_head tok pos trailer)
  \/ e = IllegalCharacterError (positioned illegal_head tok pos trailer) ->
  parse kw = Raise e ->
  without LF tok = true -> without QUOTE trailer = true -> clear_of_digits trailer = true ->
  inspect_ IllegalCharacterInspector kw
  = Return {| keyword := cut kw pos (length tok);
              result := {| is_legal := false;
                           message := syntax_error_message IllegalCharacterInspector |} |}.
Proof.
  intros He Hp Htok Htr Hcl.
  apply without_In in Htok. apply without_In in Htr.
  unfold inspect, inspect_illegal_character. cbn [keyword new_inspector]. rewrite Hp.
  destruct He as [-> | ->].
  - destruct (search_positioned unexpected_head tok pos trailer Htok Htr Hcl) as [m [S [G1 G2]]].
    rewrite unexpect_word_re_positioned, S.
    unfold remove_unexpected_character. rewrite G1, G2, int_of_str_of_nat. reflexivity.
  - destruct (search_positioned illegal_head tok pos trailer Htok Htr Hcl) as [m [S [G1 G2]]].
    rewrite illegal_character_re_positioned, S.
    unfold remove_unexpected_character. rewrite G1, G2, int_of_str_of_nat. reflexivity.
Qed.

(** When the parser stumbles over [TO], wherever it says so, the range
    inspector rebuilds the keyword from the matches of [range_re]: the
    text between the matches stays, a range without an endpoint gets a
    star there, a range with both endpoints is left out, and the text
    after the last match is left out too when that match has both
    endpoints.  Without a match nothing changes. *)
Theorem range_inspector_rebuilds_keyword (kw : pystr) (pos : nat) :
  parse kw = Raise (unexpected (lit "TO") pos) ->
  inspect_ IllegalRangeSyntaxInspector kw
  = Return match map (fun m => (Re.m_start m, Re.m_end m)) (Re.finditer range_re kw) with
           | [] => new_inspector kw
           | spans =>
               {| keyword := spliced kw 0 spans;
                  result := {| is_legal := false;
                               message := syntax_error_message IllegalRangeSyntaxInspector |} |}
           end.
Proof.
  intros Hp. unfold inspect, inspect_illegal_range. cbn [keyword new_inspector].
  rewrite Hp. unfold unexpected.
  change (lit "Syntax error in input : unexpected  '" ++ lit "TO" ++ lit "' at position "
          ++ str_of_nat pos ++ lit "!")
    with (positioned unexpected_head (lit "TO") pos (lit "!")).
  destruct (search_positioned unexpected_head (lit "TO") pos (lit "!")) as [m [S [G1 _]]].
  - apply without_In. reflexivity.
  - apply without_In. reflexivity.
  - reflexivity.
  - rewrite unexpect_word_re_positioned, S, G1, pystr_eqb_refl.
    destruct (map _ (Re.finditer range_re kw)) as [|sp spans] eqn:E; [reflexivity|].
    unfold range_resolve, set_illegal, set_keyword. cbn [keyword result new_inspector].
    rewrite join_nil, (resolve_ranges_spliced kw (sp :: spans) 0 (length (sp :: spans)) 0 []);
      [reflexivity | reflexivity | reflexivity].
Qed.

End Inspectors.

Lemma colon_inspector_drops_lone_trailing_colon_witness :
  Sample.parse (lit "foo:") = Raise end_of_expression
  /\ exists self,
       inspect Sample.parse Sample.node_str Sample.resolver Sample.full_text
         IllegalColonInspector (lit "foo:") = Return self
       /\ (is_legal (result self) = false ->
           keyword self = lit "foo"
           /\ message (result self) = syntax_error_message IllegalColonInspector).
Proof.
  split; [reflexivity|].
  destruct (colon_inspector_drops_lone_trailing_colon Sample.parse Sample.node_str
              Sample.resolver Sample.full_text (lit "foo:") eq_refl)
    as [self [H1 [_ [H3 _]]]].
  exists self. split; [exact H1 | exact H3].
Defined.

Lemma character_inspector_cuts_reported_token_witness :
  Sample.parse (lit "ts: [ TO 100]")
  = Raise (ParseSyntaxError (positioned unexpected_head (lit "TO") 6 (lit "!")))
  /\ inspect Sample.parse Sample.node_str Sample.resolver Sample.full_text
       IllegalCharacterInspector (lit "ts: [ TO 100]")
     = Return {| keyword := lit "ts: [  100]";
                 result := {| is_legal := false;
                              message := syntax_error_message IllegalCharacterInspector |} |}.
Proof.
  split; [reflexivity|].
  apply (character_inspector_cuts_reported_token Sample.parse Sample.node_str Sample.resolver
           Sample.full_text (lit "ts: [ TO 100]") (lit "TO") 6 (lit "!")
           (ParseSyntaxError (positioned unexpected_head (lit "TO") 6 (lit "!"))));
    [left; reflexivity | reflexivity | reflexivity | reflexivity | reflexivity].
Defined.

Lemma range_inspector_rebuilds_keyword_witness :
  Sample.parse (lit "a: [1 TO 2] AND b: [ TO 3]") = Raise (unexpected (lit "TO") 21)
  /\ inspect Sample.parse Sample.node_str Sample.resolver Sample.full_text
       IllegalRangeSyntaxInspector (lit "a: [1 TO 2] AND b: [ TO 3]")
     = Return {| keyword := lit "a:  AND b: [* TO 3]";
                 result := {| is_legal := false;
                              message := syntax_error_message IllegalRangeSyntaxInspector |} |}.
Proof.
  split; [reflexivity|].
  apply (range_inspector_rebuilds_keyword Sample.parse Sample.node_str Sample.resolver
           Sample.full_text (lit "a: [1 TO 2] AND b: [ TO 3]") 21).
  reflexivity.
Defined.

(* ================================================================= *)
(** ** The bracket inspector and balanced keywords *)

Lemma pairs_with_kinds (o c : N) :
  pairs_with o c = true -> is_open o = true /\ is_open c = false /\ is_close c = true.
Proof.
  unfold pairs_with, is_open, is_close, BRACKET_DICT. cbn [List.find existsb fst snd].
  destruct (N.eqb 91 o) eqn:E1; [apply N.eqb_eq in E1; subst o|];
    [intros H; apply N.eqb_eq in H; subst c; auto|].
  destruct (N.eqb 40 o) eqn:E2; [apply N.eqb_eq in E2; subst o|];
    [intros H; apply N.eqb_eq in H; subst c; auto|].
  destruct (N.eqb 123 o) eqn:E3; [apply N.eqb_eq in E3; subst o|];
    [intros H; apply N.eqb_eq in H; subst c; auto | discriminate].
Qed.

Lemma balanced_app (s1 s2 : pystr) : balanced s1 -> balanced s2 -> balanced (s1 ++ s2).
Proof.
  intros H1 H2. induction H1 as [|c s Ho Hc _ IH|o c a b Hp Ha _ _ IHb]; simpl.
  - exact H2.
  - apply balanced_other; assumption.
  - rewrite <- app_assoc. simpl. apply balanced_pair; assumption.
Qed.

Lemma closes_after (stack : list N) (b s : pystr) :
  balanced b -> closes stack s -> closes stack (b ++ s).
Proof.
  intros Hb H. destruct stack as [|o below]; simpl in *.
  - now apply balanced_app.
  - destruct H as [s1 [c [s2 [-> [H1 [Hp H2]]]]]].
    exists (b ++ s1), c, s2. rewrite <- app_assoc.
    split; [reflexivity|]. split; [now apply balanced_app | auto].
Qed.

(** Balanced text leaves the stack of the scan as it found it. *)
Lemma balanced_neutral (s : pystr) :
  balanced s ->
  forall rest index stack,
    offending_from (s ++ rest) index stack = offending_from rest (index + length s) stack.
Proof.
  induction 1 as [|c s Ho Hc _ IH|o c a b Hp _ IHa _ IHb]; intros rest index stack.
  - simpl. now rewrite Nat.add_0_r.
  - cbn [app offending_from length]. rewrite Ho, Hc, IH. f_equal. lia.
  - destruct (pairs_with_kinds o c Hp) as [Ho [Hco Hcc]].
    cbn [app offending_from]. rewrite Ho, <- app_assoc, IHa.
    cbn [app offending_from fst]. rewrite Hco, Hcc, Hp, IHb.
    f_equal. cbn [length]. rewrite length_app. simpl. lia.
Qed.

(** A scan that ends without an offending bracket has closed its stack. *)
Lemma quiet_scan_closes (s : pystr) :
  forall index stack,
    offending_from s index stack = None -> closes (map fst stack) s.
Proof.
  induction s as [|c s IH]; intros index stack H; simpl in H.
  - destruct stack; [constructor | discriminate].
  - destruct (is_open c) eqn:Ho.
    + apply IH in H. simpl in H. destruct H as [s1 [c' [s2 [-> [H1 [Hp H2]]]]]].
      replace (c :: s1 ++ c' :: s2) with ((c :: s1 ++ c' :: []) ++ s2)
        by (simpl; now rewrite <- app_assoc).
      apply closes_after; [|assumption].
      apply balanced_pair; [assumption | assumption | constructor].
    + destruct (is_close c) eqn:Hc.
      * destruct stack as [|top below]; [discriminate|].
        destruct (pairs_with (fst top) c) eqn:Hp; [|discriminate].
        apply IH in H. simpl. exists [], c, s.
        split; [reflexivity|]. split; [constructor|]. split; assumption.
      * apply IH in H. change (c :: s) with ([c] ++ s).
        apply closes_after; [|assumption].
        apply balanced_other; [assumption | assumption | constructor].
Qed.

Lemma quiet_scan_iff_balanced (kw : pystr) : offending_bracket kw = None <-> balanced kw.
Proof.
  unfold offending_bracket. split.
  - intros H. apply (quiet_scan_closes kw 0 [] H).
  - intros H. rewrite <- (app_nil_r kw), (balanced_neutral kw H). reflexivity.
Qed.

Section Balanced.

Variable parse : pystr -> outcome Node.
Variable node_str : Node -> pystr.
Variable unknown_operation_resolver : Node -> Node.
Variable FULL_TEXT_SEARCH_FIELD_NAME : pystr.

(** On the end-of-expression error the bracket inspector leaves the
    keyword alone exactly when its brackets are balanced, quotes and
    escapes not considered; otherwise it reports and removes one
    character. *)
Theorem bracket_inspector_accepts_balanced (kw : pystr) :
  parse kw = Raise end_of_expression ->
  exists self,
    inspect parse node_str unknown_operation_resolver FULL_TEXT_SEARCH_FIELD_NAME
      IllegalBracketInspector kw = Return self
    /\ (is_legal (result self) = true <-> balanced kw)
    /\ (balanced kw -> keyword self = kw)
    /\ (is_legal (result self) = false ->
        S (length (keyword self)) = length kw
        /\ message (result self) = syntax_error_message IllegalBracketInspector).
Proof.
  intros Hp. unfold inspect, inspect_illegal_bracket. cbn [keyword new_inspector].
  rewrite Hp. unfold end_of_expression. rewrite pystr_eqb_refl, bracket_scan_refines.
  eexists. split; [reflexivity|]. simpl rev.
  pose proof (quiet_scan_iff_balanced kw) as B. unfold offending_bracket in B.
  destruct (offending_from kw 0 []) as [i|] eqn:O; cbn [bracket_verdict].
  - cbn [result is_legal keyword message set_illegal set_keyword new_inspector].
    split; [|split].
    + split; [discriminate|]. intros H. apply B in H. discriminate.
    + intros H. apply B in H. discriminate.
    + intros _. split; [|reflexivity]. apply drop_at_length.
      destruct (offending_from_recorded kw [] kw 0 [] i eq_refl eq_refl (Forall_nil _) O)
        as [c [Hc _]].
      apply nth_error_Some. congruence.
  - cbn [result is_legal keyword new_inspector]. split; [|split].
    + split; [intros _; now apply B | reflexivity].
    + reflexivity.
    + discriminate.
Qed.

End Balanced.

Lemma bracket_inspector_accepts_balanced_witness :
  Sample.parse (lit "((a AND b)") = Raise end_of_expression
  /\ exists self,
       inspect Sample.parse Sample.node_str Sample.resolver Sample.full_text
         IllegalBracketInspector (lit "((a AND b)") = Return self
       /\ (is_legal (result self) = false ->
           S (length (keyword self)) = 10
           /\ message (result self) = syntax_error_message IllegalBracketInspector).
Proof.
  split; [reflexivity|].
  destruct (bracket_inspector_accepts_balanced Sample.parse Sample.node_str Sample.resolver
              Sample.full_text (lit "((a AND b)") eq_refl) as [self [H1 [_ [_ H4]]]].
  exists self. split; [exact H1 | exact H4].
Defined.

(* ================================================================= *)
(** ** What [resolve] can and cannot do *)

Lemma dedup_In (x : pystr) (l : list pystr) : In x (dedup l) <-> In x l.
Proof.
  induction l as [|y l IH]; simpl; [reflexivity|].
  rewrite filter_In, IH. split.
  - intros [H|[H _]]; auto.
  - intros [H|H]; [now left|].
    destruct (pystr_eqb y x) eqn:E.
    + left. now apply pystr_eqb_eq.
    + right. auto.
Qed.

Lemma default_message_names_default (c : InspectorClass) :
  syntax_error_message c = syntax_error_message DefaultInspector -> c = DefaultInspector.
Proof. destruct c; intros H; try reflexivity; discriminate. Qed.

(** An empty final message set: nothing was recorded, or the loop ended
    on a clean pass and only the default message was. *)
Lemma final_messages_empty (b : bool) (messages : list pystr) :
  final_messages b messages = [] ->
  messages = [] \/ (b = true /\ Forall (eq (syntax_error_message DefaultInspector)) messages).
Proof.
  unfold final_messages. intros H.
  destruct (b && existsb (pystr_eqb (syntax_error_message DefaultInspector)) (dedup messages))
    eqn:E.
  - right. apply andb_true_iff in E as [-> _]. split; [reflexivity|].
    apply Forall_forall. intros x Hx. apply dedup_In in Hx.
    destruct (pystr_eqb (syntax_error_message DefaultInspector) x) eqn:Ex.
    + now apply pystr_eqb_eq.
    + assert (Hin : In x (filter (fun m => negb (pystr_eqb (syntax_error_message DefaultInspector) m))
                            (dedup messages))).
      { apply filter_In. split; [assumption | now rewrite Ex]. }
      rewrite H in Hin. contradiction.
  - left. destruct messages; [reflexivity | discriminate].
Qed.

Section Limits.

Variable parse : pystr -> outcome Node.
Variable node_str : Node -> pystr.
Variable unknown_operation_resolver : Node -> Node.
Variable FULL_TEXT_SEARCH_FIELD_NAME : pystr.

Local Abbreviation inspect_ :=
  (inspect parse node_str unknown_operation_resolver FULL_TEXT_SEARCH_FIELD_NAME).
Local Abbreviation run_ :=
  (run_inspectors parse node_str unknown_operation_resolver FULL_TEXT_SEARCH_FIELD_NAME).
Local Abbreviation pass_ :=
  (resolver_inspect parse node_str unknown_operation_resolver FULL_TEXT_SEARCH_FIELD_NAME).
Local Abbreviation loop_ :=
  (resolve_loop parse node_str unknown_operation_resolver FULL_TEXT_SEARCH_FIELD_NAME).
Local Abbreviation resolve_ :=
  (resolve parse node_str unknown_operation_resolver FULL_TEXT_SEARCH_FIELD_NAME).
Local Abbreviation resolve_messages_ :=
  (resolve_messages parse node_str unknown_operation_resolver FULL_TEXT_SEARCH_FIELD_NAME).
Local Abbreviation parsing_ := (parsing parse node_str FULL_TEXT_SEARCH_FIELD_NAME).

(** *** One inspector *)

(** An inspector that reports does so with the message of its class. *)
Lemma illegal_inspector_message (c : InspectorClass) (kw : pystr) (self : Inspector) :
  inspect_ c kw = Return self ->
  is_legal (result self) = false ->
  message (result self) = syntax_error_message c.
Proof.
  intros H L.
  destruct c; unfold inspect in H.
  - apply chinese_punctuation_returns in H. subst self. discriminate.
  - unfold inspect_illegal_range in H. simpl keyword in H.
    destruct (parse kw) as [t|[e| | | | | |]]; try (injection H as <-; discriminate).
    destruct (Re.search unexpect_word_re e) as [m|]; try (injection H as <-; discriminate).
    destruct (pystr_eqb _ _); try (injection H as <-; discriminate).
    destruct (map _ _); injection H as <-; [discriminate | reflexivity].
  - unfold inspect_illegal_character in H. simpl keyword in H.
    destruct (parse kw) as [t|[e|e| | | | |]]; try (injection H as <-; discriminate).
    + destruct (Re.search unexpect_word_re e); injection H as <-; [reflexivity | discriminate].
    + destruct (Re.search illegal_character_re e); injection H as <-; [reflexivity | discriminate].
  - unfold inspect_illegal_colon in H. simpl keyword in H.
    destruct (parse kw) as [t|[e| | | | | |]]; try (injection H as <-; discriminate).
    destruct (pystr_eqb _ _); try (injection H as <-; discriminate).
    destruct (Z.eqb _ _); injection H as <-; [reflexivity | discriminate].
  - unfold inspect_illegal_bracket in H. simpl keyword in H.
    destruct (parse kw) as [t|[e| | | | | |]]; try (injection H as <-; discriminate).
    destruct (pystr_eqb _ _); try (injection H as <-; discriminate).
    rewrite bracket_scan_refines in H. injection H as <-. simpl rev in *.
    destruct (offending_from kw 0 []); [reflexivity | discriminate].
  - unfold inspect_unknown_operator in H. simpl keyword in H.
    destruct (parse kw) as [t|[e|e| | | | |]] eqn:P; try (injection H as <-; discriminate).
    discriminate.
  - unfold inspect_default in H.
    destruct (bind _ _); injection H as <-; [discriminate | reflexivity].
Qed.

Lemma default_inspector_keeps_keyword (kw : pystr) (self : Inspector) :
  inspect_ DefaultInspector kw = Return self -> keyword self = kw.
Proof.
  unfold inspect, inspect_default. intros H.
  destruct (bind _ _); injection H as <-; reflexivity.
Qed.


(** *** One pass *)


(** The messages of a pass are appended; when all of them are the
    default inspector's, the pass has not changed the keyword. *)
Lemma run_grows classes kw messages kw' messages' :
  run_ classes kw messages = Return (kw', messages') ->
  exists added,
    messages' = messages ++ added
    /\ (Forall (eq (syntax_error_message DefaultInspector)) added -> kw' = kw).
Proof.
  revert kw messages. induction classes as [|c rest IH]; intros kw messages H; simpl in H.
  - injection H as <- <-. exists []. split; [now rewrite app_nil_r | reflexivity].
  - destruct (inspect_ c kw) as [self|e] eqn:I; simpl in H; [|discriminate].
    apply IH in H as [added [E K]].
    destruct (is_legal (result self)) eqn:L.
    + exists added. split; [exact E|]. intros F. rewrite (K F).
      now rewrite (legal_inspector_untouched parse node_str unknown_operation_resolver
                     FULL_TEXT_SEARCH_FIELD_NAME c kw self I L).
    + exists (message (result self) :: added). split.
      * rewrite E, <- app_assoc. reflexivity.
      * intros F. inversion F as [|? ? Hm Hrest]; subst. rewrite (K Hrest).
        rewrite (illegal_inspector_message c kw self I L) in Hm.
        symmetry in Hm. apply default_message_names_default in Hm. subst c.
        now apply default_inspector_keeps_keyword.
Qed.

Lemma run_app l1 l2 kw messages :
  run_ (l1 ++ l2) kw messages
  = (r <- run_ l1 kw messages ;; run_ l2 (fst r) (snd r)).
Proof.
  revert kw messages. induction l1 as [|c l1 IH]; intros kw messages; simpl.
  - reflexivity.
  - destruct (inspect_ c kw) as [self|e]; simpl; [apply IH | reflexivity].
Qed.

(** A pass over a keyword that holds no curly quote pair, parses, and
    whose fields are extracted is clean. *)
Lemma clean_pass (kw : pystr) (tree : Node) (fields : list LuceneField) :
  Re.finditer chinese_punctuation_re kw = [] ->
  parse kw = Return tree ->
  parsing_ kw = Return fields ->
  run_ REGISTERED_INSPECTORS kw [] = Return (kw, []).
Proof.
  intros Hq Hp Hf. unfold REGISTERED_INSPECTORS.
  rewrite run_inspectors_cons, chinese_quiet_on by exact Hq.
  rewrite bind_Return. cbn [keyword result is_legal new_inspector].
  do 5 (rewrite run_inspectors_cons,
          (parsed_keyword_passes parse node_str unknown_operation_resolver
             FULL_TEXT_SEARCH_FIELD_NAME _ kw tree Hp)
          by (cbv; intuition congruence);
        rewrite bind_Return; cbn [keyword result is_legal new_inspector]).
  rewrite run_inspectors_cons. unfold inspect, inspect_default.
  cbn [keyword new_inspector]. rewrite Hp, !bind_Return, Hf. reflexivity.
Qed.

(** A clean pass has extracted the fields of its keyword. *)
Lemma clean_pass_extracts (kw : pystr) :
  run_ REGISTERED_INSPECTORS kw [] = Return (kw, []) ->
  exists fields, parsing_ kw = Return fields.
Proof.
  intros R.
  destruct (quiet_pass_all_legal parse node_str unknown_operation_resolver
              FULL_TEXT_SEARCH_FIELD_NAME _ _ _ _ _ R) as [_ Hq].
  destruct (Hq eq_refl) as [_ Hall].
  unfold REGISTERED_INSPECTORS in Hall.
  do 6 apply Forall_inv_tail in Hall. apply Forall_inv in Hall.
  unfold inspect, inspect_default in Hall. cbn [keyword new_inspector] in Hall.
  destruct (parse kw) as [t|e] eqn:P; simpl in Hall; [|discriminate].
  destruct (parsing_ kw) as [fields|e] eqn:F; [|discriminate].
  now exists fields.
Qed.

(** What one call of [LuceneSyntaxResolver.inspect] does, with the pass
    it ran. *)
Lemma pass_unfold self b self' :
  pass_ self = Return (b, self') ->
  exists kw' messages,
    run_ REGISTERED_INSPECTORS (r_keyword self) [] = Return (kw', messages)
    /\ r_keyword self' = kw'
    /\ b = match messages with [] => true | _ => false end
    /\ r_messages self' = r_messages self ++ messages.
Proof.
  unfold resolver_inspect. intros H.
  destruct (run_ REGISTERED_INSPECTORS (r_keyword self) []) as [[kw' msgs]|e] eqn:R;
    simpl in H; [|discriminate].
  exists kw', msgs. split; [reflexivity|].
  destruct msgs as [|m ms]; injection H as <- <-; simpl; rewrite ?app_nil_r; auto.
Qed.


(** *** The loop *)


Lemma loop_grows times self b self' :
  loop_ times self = Return (b, self') ->
  exists added, r_messages self' = r_messages self ++ added.
Proof.
  revert self. induction times as [|n IH]; intros self H; simpl in H.
  - injection H as <- <-. exists []. now rewrite app_nil_r.
  - destruct (pass_ self) as [[b1 s1]|e] eqn:P; simpl in H; [|discriminate].
    destruct (pass_unfold _ _ _ P) as [kw' [msgs [_ [_ [_ E]]]]].
    destruct b1.
    + injection H as <- <-. now exists msgs.
    + apply IH in H as [added E']. exists (msgs ++ added).
      now rewrite E', E, <- app_assoc.
Qed.

(** A pass that reports without changing the keyword reports for ever. *)
Lemma loop_stuck kw m ms times self b self' :
  run_ REGISTERED_INSPECTORS kw [] = Return (kw, m :: ms) ->
  r_keyword self = kw ->
  loop_ times self = Return (b, self') ->
  b = false.
Proof.
  intros R. revert self. induction times as [|n IH]; intros self K H; simpl in H.
  - now injection H as <- _.
  - unfold resolver_inspect in H. rewrite K, R in H. simpl in H.
    apply IH in H; [exact H | reflexivity].
Qed.

(** A loop that ends on a clean pass with nothing but default messages
    recorded has run that one pass only. *)
Lemma loop_legal times self self' added :
  loop_ times self = Return (true, self') ->
  r_messages self' = r_messages self ++ added ->
  Forall (eq (syntax_error_message DefaultInspector)) added ->
  self' = self
  /\ run_ REGISTERED_INSPECTORS (r_keyword self) [] = Return (r_keyword self, []).
Proof.
  intros H E F. destruct times as [|n]; simpl in H; [discriminate|].
  destruct (pass_ self) as [[b1 s1]|e] eqn:P; simpl in H; [|discriminate].
  destruct (pass_unfold _ _ _ P) as [kw' [msgs [R [K [B E1]]]]].
  destruct msgs as [|m ms]; subst b1.
  - injection H as <-.
    destruct (pass_outcome parse node_str unknown_operation_resolver
                FULL_TEXT_SEARCH_FIELD_NAME _ _ _ P) as [[_ [-> R']]|[B' _]];
      [auto | discriminate].
  - exfalso.
    destruct (loop_grows _ _ _ _ H) as [added' E'].
    rewrite E1, <- app_assoc in E'. rewrite E in E'. apply app_inv_head in E'.
    subst added. apply Forall_app in F as [F _].
    destruct (run_grows _ _ _ _ _ R) as [added'' [Ea Ka]]. simpl in Ea. subst added''.
    specialize (Ka F). subst kw'. rewrite Ka in R.
    pose proof (loop_stuck _ _ _ _ _ _ _ R Ka H) as Hb. discriminate.
Qed.

(** *** The repair *)


(** A pass over a keyword without a curly quote pair on which the
    parser raises an exception no inspector has a handler for: only the
    default inspector reports, and the keyword stays. *)
Lemma pass_on_unexpected (kw : pystr) (e : exn) :
  Re.finditer chinese_punctuation_re kw = [] ->
  parse kw = Raise e -> unexpected_exception e = true ->
  run_ REGISTERED_INSPECTORS kw [] = Return (kw, [syntax_error_message DefaultInspector]).
Proof.
  intros Hq Hp He. unfold REGISTERED_INSPECTORS.
  rewrite run_inspectors_cons, chinese_quiet_on by exact Hq.
  rewrite bind_Return. cbn [keyword result is_legal new_inspector].
  assert (P : forall c, c <> ChinesePunctuationInspector -> c <> DefaultInspector ->
                inspect_ c kw = Return (new_inspector kw)).
  { intros c H1 H2.
    destruct c; try congruence; unfold inspect, inspect_illegal_range,
      inspect_illegal_character, inspect_illegal_colon, inspect_illegal_bracket,
      inspect_unknown_operator; cbn [keyword new_inspector]; rewrite Hp;
        destruct e; try discriminate; reflexivity. }
  do 5 (rewrite run_inspectors_cons, P by discriminate;
        rewrite bind_Return; cbn [keyword result is_legal new_inspector]).
  rewrite run_inspectors_cons. unfold inspect, inspect_default.
  cbn [keyword new_inspector]. rewrite Hp. reflexivity.
Qed.

Lemma loop_on_unexpected (kw : pystr) (e : exn) (times : nat) (messages : list pystr) :
  Re.finditer chinese_punctuation_re kw = [] ->
  parse kw = Raise e -> unexpected_exception e = true ->
  loop_ times {| r_keyword := kw; r_messages := messages |}
  = Return (false, {| r_keyword := kw;
                      r_messages := messages
                                    ++ repeat (syntax_error_message DefaultInspector) times |}).
Proof.
  intros Hq Hp He. revert messages.
  induction times as [|n IH]; intros messages.
  - simpl. now rewrite app_nil_r.
  - rewrite resolve_loop_S. unfold resolver_inspect. simpl r_keyword.
    rewrite (pass_on_unexpected kw e Hq Hp He), !bind_Return.
    cbn [fst snd r_messages]. rewrite bind_Return. cbn [fst snd].
    rewrite IH. simpl repeat. now rewrite <- app_assoc.
Qed.

(** An exception of the parser that no inspector expects, a TypeError
    for one, does not leave [resolve]: on a keyword without a curly
    quote pair every inspector but the last passes, the default
    inspector reports in each of the [MAX_RESOLVE_TIMES] passes, and
    the keyword comes back as it was, illegal and unresolved, with the
    default message alone. *)
Theorem unexpected_parser_exception_is_swallowed (kw : pystr) (e : exn) :
  Re.finditer chinese_punctuation_re kw = [] ->
  parse kw = Raise e ->
  unexpected_exception e = true ->
  resolve_ kw
  = Return {| rr_is_legal := false; rr_is_resolved := false;
              rr_message := syntax_error_message DefaultInspector;
              rr_keyword := kw |}.
Proof.
  intros Hq Hp He. unfold resolve.
  rewrite (loop_on_unexpected kw e MAX_RESOLVE_TIMES [] Hq Hp He), bind_Return.
  cbn [fst snd r_keyword r_messages app]. reflexivity.
Qed.

(** [is_legal] is true only for a keyword that needed nothing: the
    first pass was clean, the keyword comes back as it was given,
    resolved and without a message, and its fields are extracted.  A
    keyword that [resolve] has changed is never reported legal. *)
Theorem legal_repair_changed_nothing (kw : pystr) (r : RepairResult) :
  resolve_ kw = Return r ->
  rr_is_legal r = true ->
  r = {| rr_is_legal := true; rr_is_resolved := true; rr_message := []; rr_keyword := kw |}
  /\ exists fields, parsing_ kw = Return fields.
Proof.
  unfold resolve. intros H Hl.
  destruct (loop_ MAX_RESOLVE_TIMES _) as [[b s]|e] eqn:L; simpl in H; [|discriminate].
  injection H as <-. cbn [rr_is_legal fst snd] in Hl.
  assert (Hf : final_messages b (r_messages s) = [])
    by (destruct (final_messages b (r_messages s)); [reflexivity | discriminate]).
  assert (Hb : b = true /\ Forall (eq (syntax_error_message DefaultInspector)) (r_messages s)).
  { destruct (final_messages_empty _ _ Hf) as [E|[-> F]]; [|auto].
    rewrite E. split; [|constructor].
    destruct (loop_outcome parse node_str unknown_operation_resolver
                FULL_TEXT_SEARCH_FIELD_NAME _ _ _ _ L) as [[-> _]|[_ [added [Ea N]]]];
      [reflexivity|].
    simpl in Ea. rewrite E in Ea. exfalso. apply N; [unfold MAX_RESOLVE_TIMES; lia | auto]. }
  destruct Hb as [-> F].
  destruct (loop_legal _ _ _ (r_messages s) L eq_refl F) as [-> R].
  cbn [fst snd r_keyword r_messages] in *. split.
  - unfold final_messages. reflexivity.
  - now apply clean_pass_extracts.
Qed.

(** Repairing the keyword of a resolved repair again changes nothing:
    the second repair returns it as it is, legal and resolved. *)
Theorem resolved_keyword_is_a_fixed_point (kw : pystr) (r : RepairResult) :
  resolve_ kw = Return r ->
  rr_is_resolved r = true ->
  resolve_ (rr_keyword r)
  = Return {| rr_is_legal := true; rr_is_resolved := true; rr_message := [];
              rr_keyword := rr_keyword r |}.
Proof.
  unfold resolve at 1. intros H U.
  destruct (loop_ MAX_RESOLVE_TIMES _) as [[b s]|e] eqn:L; simpl in H; [|discriminate].
  injection H as <-. cbn [rr_is_resolved rr_keyword fst snd] in *. subst b.
  destruct (loop_outcome parse node_str unknown_operation_resolver
              FULL_TEXT_SEARCH_FIELD_NAME _ _ _ _ L) as [[_ R]|[B _]]; [|discriminate].
  unfold resolve, MAX_RESOLVE_TIMES. rewrite resolve_loop_S.
  unfold resolver_inspect. cbn [r_keyword]. rewrite R. reflexivity.
Qed.

(** The default inspector's message is among the diagnostics of a
    repair exactly when the repair is unresolved: a loop that uses up
    its passes has met, in its first pass already, a keyword that the
    default inspector rejected. *)
Theorem default_message_marks_unresolved (kw : pystr) (r : RepairResult)
        (messages : list pystr) :
  resolve_ kw = Return r ->
  resolve_messages_ kw = Return messages ->
  (In (syntax_error_message DefaultInspector) messages <-> rr_is_resolved r = false).
Proof.
  unfold resolve, resolve_messages. intros H Hm.
  destruct (loop_ MAX_RESOLVE_TIMES _) as [[b s]|e] eqn:L; simpl in H, Hm; [|discriminate].
  injection H as <-. injection Hm as <-. cbn [rr_is_resolved fst snd].
  split.
  - intros Hin. destruct b; [exfalso | reflexivity].
    unfold final_messages in Hin. cbn [andb] in Hin.
    destruct (existsb _ _) eqn:E.
    + apply filter_In in Hin as [_ Hin]. now rewrite pystr_eqb_refl in Hin.
    + apply existsb_pystr in Hin. congruence.
  - intros ->. unfold final_messages. cbn [andb]. apply dedup_In.
    unfold MAX_RESOLVE_TIMES in L. change 10 with (S (S 8)) in L.
    generalize dependent 8. intros n L.
    rewrite resolve_loop_S in L.
    destruct (pass_ _) as [[b1 s1]|e] eqn:P; [|discriminate].
    rewrite bind_Return in L. cbn [fst snd] in L.
    destruct (pass_unfold _ _ _ P) as [kw1 [msgs [R [K [B E1]]]]].
    cbn [r_keyword r_messages app] in *.
    destruct b1; [discriminate|].
    destruct (loop_grows _ _ _ _ L) as [added E]. rewrite E, E1.
    apply in_or_app. left.
    change REGISTERED_INSPECTORS
      with ([ChinesePunctuationInspector; IllegalRangeSyntaxInspector;
             IllegalCharacterInspector; IllegalColonInspector; IllegalBracketInspector;
             UnknownOperatorInspector] ++ [DefaultInspector]) in R.
    rewrite run_app in R.
    destruct (run_ _ kw []) as [[kw6 msgs6]|e] eqn:R6; [|discriminate].
    rewrite bind_Return in R. cbn [fst snd] in R. rewrite run_inspectors_cons in R.
    destruct (inspect_ DefaultInspector kw6) as [selfD|e] eqn:ID; [|discriminate].
    rewrite bind_Return in R. cbn [run_inspectors] in R.
    pose proof (default_inspector_keeps_keyword _ _ ID) as KD.
    injection R as <- <-.
    destruct (is_legal (result selfD)) eqn:LD.
    + exfalso.
      (* the default inspector accepted: the second pass is clean *)
      unfold inspect, inspect_default in ID. cbn [keyword new_inspector] in ID.
      destruct (parse kw6) as [t|e] eqn:Pk; simpl in ID;
        [| injection ID as <-; discriminate].
      destruct (parsing_ kw6) as [fields|e] eqn:Fk;
        [| injection ID as <-; discriminate].
      rewrite resolve_loop_S in L.
      destruct (pass_ s1) as [[b2 s2]|e] eqn:P2; [|discriminate].
      rewrite bind_Return in L. cbn [fst snd] in L.
      destruct (pass_unfold _ _ _ P2) as [kw2 [msgs2 [R2 [_ [B2 _]]]]].
      rewrite K, KD in R2.
      destruct (Re.finditer chinese_punctuation_re kw6) as [|q qs] eqn:Q.
      * rewrite (clean_pass kw6 t fields Q Pk Fk) in R2. injection R2 as <- <-.
        subst b2. discriminate.
      * unfold REGISTERED_INSPECTORS in R2. rewrite run_inspectors_cons in R2.
        unfold inspect in R2.
        rewrite chinese_punctuation_raises in R2
          by (cbn [keyword new_inspector]; rewrite Q; discriminate).
        discriminate.
    + apply in_or_app. right. left.
      apply (illegal_inspector_message DefaultInspector kw6 selfD); assumption.
Qed.

End Limits.


Lemma unexpected_parser_exception_is_swallowed_witness :
  Sample.patched [(lit "a ^", Raise TypeError)] Sample.parse (lit "a ^") = Raise TypeError
  /\ resolve (Sample.patched [(lit "a ^", Raise TypeError)] Sample.parse)
       Sample.node_str Sample.resolver Sample.full_text (lit "a ^")
     = Return {| rr_is_legal := false; rr_is_resolved := false;
                 rr_message := syntax_error_message DefaultInspector;
                 rr_keyword := lit "a ^" |}.
Proof.
  split; [reflexivity|].
  apply (unexpected_parser_exception_is_swallowed
           (Sample.patched [(lit "a ^", Raise TypeError)] Sample.parse)
           Sample.node_str Sample.resolver Sample.full_text (lit "a ^") TypeError);
    reflexivity.
Defined.

Lemma legal_repair_changed_nothing_witness :
  resolve Sample.parse Sample.node_str Sample.resolver Sample.full_text (lit "foo")
  = Return {| rr_is_legal := true; rr_is_resolved := true; rr_message := [];
              rr_keyword := lit "foo" |}
  /\ exists fields,
       parsing Sample.parse Sample.node_str Sample.full_text (lit "foo") = Return fields.
Proof.
  split; [vm_compute; reflexivity|].
  apply (legal_repair_changed_nothing Sample.parse Sample.node_str Sample.resolver
           Sample.full_text (lit "foo")
           {| rr_is_legal := true; rr_is_resolved := true; rr_message := [];
              rr_keyword := lit "foo" |}); [vm_compute; reflexivity | reflexivity].
Defined.

Lemma resolved_keyword_is_a_fixed_point_witness :
  resolve Sample.parse Sample.node_str Sample.resolver Sample.full_text (lit "((a AND b)")
  = Return {| rr_is_legal := false; rr_is_resolved := true;
              rr_message := syntax_error_message IllegalBracketInspector;
              rr_keyword := lit "(a AND b)" |}
  /\ resolve Sample.parse Sample.node_str Sample.resolver Sample.full_text (lit "(a AND b)")
     = Return {| rr_is_legal := true; rr_is_resolved := true; rr_message := [];
                 rr_keyword := lit "(a AND b)" |}.
Proof.
  split; [vm_compute; reflexivity|].
  apply (resolved_keyword_is_a_fixed_point Sample.parse Sample.node_str Sample.resolver
           Sample.full_text (lit "((a AND b)")
           {| rr_is_legal := false; rr_is_resolved := true;
              rr_message := syntax_error_message IllegalBracketInspector;
              rr_keyword := lit "(a AND b)" |}); [vm_compute; reflexivity | reflexivity].
Defined.

Lemma default_message_marks_unresolved_witness :
  resolve Sample.parse Sample.node_str Sample.resolver Sample.full_text (lit "foo bar")
  = Return {| rr_is_legal := false; rr_is_resolved := false;
              rr_message := syntax_error_message DefaultInspector;
              rr_keyword := lit "foo bar" |}
  /\ resolve_messages Sample.parse Sample.node_str Sample.resolver Sample.full_text
       (lit "foo bar") = Return [syntax_error_message DefaultInspector]
  /\ (In (syntax_error_message DefaultInspector) [syntax_error_message DefaultInspector]
      <-> false = false).
Proof.
  split; [vm_compute; reflexivity | split; [vm_compute; reflexivity|]].
  apply (default_message_marks_unresolved Sample.parse Sample.node_str Sample.resolver
           Sample.full_text (lit "foo bar")
           {| rr_is_legal := false; rr_is_resolved := false;
              rr_message := syntax_error_message DefaultInspector;
              rr_keyword := lit "foo bar" |}
           [syntax_error_message DefaultInspector]); vm_compute; reflexivity.
Defined.

(* ================================================================= *)
(** ** The trees the field walk accepts *)

Section Accepts.

Variable parse : pystr -> outcome Node.
Variable node_str : Node -> pystr.
Variable FULL_TEXT_SEARCH_FIELD_NAME : pystr.

Local Abbreviation walk := (_get_method node_str FULL_TEXT_SEARCH_FIELD_NAME).
Local Abbreviation walk_all := (flat_map node_str FULL_TEXT_SEARCH_FIELD_NAME).

Lemma walk_all_verdict (l : list Node) :
  Forall (fun n => walk_verdict n (walk n)) l ->
  match walk_all l with
  | Return _ => forallb walkable l = true
  | Raise e => forallb walkable l = false /\ walk_exception e
  end.
Proof.
  induction 1 as [|n l Hn _ IH]; simpl; [reflexivity|].
  destruct (walk n) as [[f|fs]|e]; simpl in *.
  - destruct Hn as [-> _]. destruct (walk_all l); simpl; auto.
  - destruct Hn as [-> _]. destruct (walk_all l); simpl; auto.
  - destruct Hn as [-> He]. auto.
Qed.

Lemma walk_has_verdict (n : Node) : walk_verdict n (walk n).
Proof.
  induction n as [| | |p nm x IH|p x IH|p l IH|p lo hi il ih _ _|p t d _|p t d _
                  |p x f _|p l IH|p l IH|p l _|p a IH|p a IH|p a IH]
    using Node_nested_ind; try (simpl; auto; fail).
  - rewrite walk_field_eq. cbn [walkable single].
    destruct (walk x) as [[f|fs]|e]; simpl in *.
    + destruct IH as [-> ->]. auto.
    + destruct IH as [_ ->]. split; [reflexivity | now left].
    + destruct IH as [-> He]. now rewrite andb_false_r.
  - rewrite get_method_group. cbn [walkable single].
    pose proof (walk_all_verdict l IH) as V.
    destruct (walk_all l); simpl; auto.
  - simpl. split; [reflexivity | now left].
  - rewrite walk_and_eq. cbn [walkable single].
    pose proof (walk_all_verdict l IH) as V.
    destruct (walk_all l); simpl; auto.
  - rewrite walk_or_eq. cbn [walkable single].
    pose proof (walk_all_verdict l IH) as V.
    destruct (walk_all l); simpl; auto.
  - simpl. split; [reflexivity | now right].
  - rewrite (walk_unary_eq _ _ UNot). cbn [walkable single].
    destruct (walk a) as [[f|fs]|e]; simpl in *.
    + destruct IH as [-> ->]. auto.
    + destruct IH as [_ ->]. split; [reflexivity | now left].
    + destruct IH as [-> He]. now rewrite andb_false_r.
  - rewrite (walk_unary_eq _ _ UPlus). cbn [walkable single].
    destruct (walk a) as [[f|fs]|e]; simpl in *.
    + destruct IH as [-> ->]. auto.
    + destruct IH as [_ ->]. split; [reflexivity | now left].
    + destruct IH as [-> He]. now rewrite andb_false_r.
  - rewrite (walk_unary_eq _ _ UProhibit). cbn [walkable single].
    destruct (walk a) as [[f|fs]|e]; simpl in *.
    + destruct IH as [-> ->]. auto.
    + destruct IH as [_ ->]. split; [reflexivity | now left].
    + destruct IH as [-> He]. now rewrite andb_false_r.
Qed.

(** For a keyword the parser accepts, [parsing] returns a field list
    exactly when the tree is walkable: no unknown operation and no boost
    where the walk goes, and no group or boolean operation directly
    under a search field or a unary operator.  Otherwise it raises
    AttributeError or UnknownLuceneOperatorException.  A single node
    gives one field. *)
Theorem parsing_accepts_walkable_trees (kw : pystr) (tree : Node) :
  parse kw = Return tree ->
  (walkable tree = true ->
   exists fields, parsing parse node_str FULL_TEXT_SEARCH_FIELD_NAME kw = Return fields
                  /\ (single tree = true -> length fields = 1))
  /\ (walkable tree = false ->
      exists e, parsing parse node_str FULL_TEXT_SEARCH_FIELD_NAME kw = Raise e
                /\ walk_exception e).
Proof.
  intros Hp. unfold parsing, parsing_tree. rewrite Hp, bind_Return.
  pose proof (walk_has_verdict tree) as V.
  destruct (walk tree) as [[f|fs]|e]; simpl in V; destruct V as [V1 V2].
  - split; [|congruence]. intros _. exists [f]. auto.
  - split; [|congruence]. intros _. rewrite bind_Return.
    exists (match Counter (map name fs) with [] => fs | _ => rename_duplicates fs end).
    split; [destruct (Counter (map name fs)); reflexivity | congruence].
  - split; [congruence|]. intros _. exists e. auto.
Qed.

End Accepts.

Lemma parsing_accepts_walkable_trees_witness :
  Sample.parse (lit "NOT (a AND b)") = Return (Not 0 (Group 4 [Sample.a_and_b 5]))
  /\ walkable (Not 0 (Group 4 [Sample.a_and_b 5])) = false
  /\ exists e,
       parsing Sample.parse Sample.node_str Sample.full_text (lit "NOT (a AND b)") = Raise e
       /\ walk_exception e.
Proof.
  split; [reflexivity | split; [reflexivity|]].
  apply (parsing_accepts_walkable_trees Sample.parse Sample.node_str Sample.full_text
           (lit "NOT (a AND b)") (Not 0 (Group 4 [Sample.a_and_b 5])) eq_refl).
  reflexivity.
Defined.

(* ================================================================= *)
(** ** The operator of a word *)

Lemma startswith_spec (p s : pystr) : startswith p s = true <-> exists r, s = p ++ r.
Proof.
  revert s. induction p as [|x p IH]; intros s; simpl.
  - split; [intros _; now exists s | reflexivity].
  - destruct s as [|y s].
    + split; [discriminate | intros [r H]; discriminate].
    + rewrite andb_true_iff, N.eqb_eq, IH. split.
      * intros [-> [r ->]]. now exists r.
      * intros [r H]. injection H as -> ->. split; [reflexivity | now exists r].
Qed.

Lemma match_literal (a s : pystr) (pos : nat) (c : Re.caps) :
  Re.match_seq (map Re.Chr a) s pos c
  = if startswith a s then Some (pos + length a, c) else None.
Proof.
  revert s pos. induction a as [|x a IH]; intros s pos; simpl.
  - now rewrite Nat.add_0_r.
  - destruct s as [|y s]; [reflexivity|].
    rewrite (N.eqb_sym x y). destruct (N.eqb y x); simpl; [|reflexivity].
    rewrite IH. destruct (startswith a s); [|reflexivity]. do 2 f_equal. lia.
Qed.

Lemma match_alt_literals (lits : list pystr) (s : pystr) (pos : nat) :
  Re.match_alt (map (map Re.Chr) lits) s pos
  = match List.find (fun a => startswith a s) lits with
    | Some a => Some {| Re.m_start := pos; Re.m_end := pos + length a; Re.m_groups := [] |}
    | None => None
    end.
Proof.
  induction lits as [|a lits IH]; simpl; [reflexivity|].
  rewrite match_literal. destruct (startswith a s); [reflexivity | exact IH].
Qed.

(** The leftmost match of an alternation of literal strings. *)
Lemma search_literals (lits : list pystr) (s : pystr) (pos : nat) :
  match Re.search_from (map (map Re.Chr) lits) s pos with
  | Some m =>
      exists pre a suf,
        s = pre ++ a ++ suf /\ In a lits
        /\ Re.m_start m = pos + length pre /\ Re.m_end m = pos + length pre + length a
  | None => forall a, In a lits -> ~ occurs a s
  end.
Proof.
  revert pos. induction s as [|x s IH]; intros pos; rewrite search_from_eq, match_alt_literals.
  - destruct (List.find _ lits) as [a|] eqn:F.
    + apply find_some in F as [Hin Hs]. apply startswith_spec in Hs as [r Hr].
      exists [], a, r. cbn [Re.m_start Re.m_end app length]. rewrite Nat.add_0_r. auto.
    + intros a Hin [p [b H]].
      pose proof (find_none _ _ F a Hin) as N. simpl in N.
      destruct p; [|discriminate]. destruct a; [discriminate|discriminate].
  - destruct (List.find _ lits) as [a|] eqn:F.
    + apply find_some in F as [Hin Hs]. apply startswith_spec in Hs as [r Hr].
      exists [], a, r. cbn [Re.m_start Re.m_end app length]. rewrite Nat.add_0_r. auto.
    + specialize (IH (S pos)).
      destruct (Re.search_from (map (map Re.Chr) lits) s (S pos)) as [m|].
      * destruct IH as [pre [a [suf [-> [Hin [Hs He]]]]]].
        exists (x :: pre), a, suf. cbn [length app]. repeat split; auto; lia.
      * intros a Hin [p [b H]].
        pose proof (find_none _ _ F a Hin) as N. simpl in N.
        destruct p as [|y p].
        -- assert (S : startswith a (x :: s) = true) by (apply startswith_spec; now exists b).
           congruence.
        -- injection H as _ ->. apply (IH a Hin). now exists p, b.
Qed.

Lemma occurs_suffix (sep a s : pystr) : occurs sep s -> occurs sep (a ++ s).
Proof. intros [p [b ->]]. exists (a ++ p), b. now rewrite <- app_assoc. Qed.

Lemma skipn_suffix (n : nat) (s : pystr) : exists a, s = a ++ skipn n s.
Proof. exists (firstn n s). now rewrite firstn_skipn. Qed.

(** [split_last] on a separator that occurs: the text after its last
    occurrence. *)
Lemma split_last_aux_spec (sep s acc : pystr) :
  sep <> [] ->
  (~ occurs sep s /\ split_last_aux sep s acc = acc)
  \/ (exists before, s = before ++ sep ++ split_last_aux sep s acc
                     /\ ~ occurs sep (split_last_aux sep s acc)).
Proof.
  intros Hsep. revert acc. induction s as [|x s IH]; intros acc.
  - left. split; [|reflexivity]. intros [a [b H]].
    destruct a; [|discriminate]. destruct sep; [congruence | discriminate].
  - cbn [split_last_aux].
    destruct (startswith sep (x :: s)) eqn:S.
    + destruct (IH (skipn (length sep) (x :: s))) as [[Hno ->]|[before [E Hno]]].
      * right. exists []. apply startswith_spec in S as [r Hr]. split.
        -- rewrite Hr at 1. rewrite Hr, skipn_app, skipn_all, Nat.sub_diag. reflexivity.
        -- intros Hocc. apply Hno.
           destruct sep as [|c sep]; [congruence|]. cbn [length skipn] in Hocc.
           destruct (skipn_suffix (length sep) s) as [a Ha]. rewrite Ha.
           now apply occurs_suffix.
      * right. exists (x :: before). split; [|exact Hno].
        rewrite E at 1. reflexivity.
    + destruct (IH acc) as [[Hno ->]|[before [E Hno]]].
      * left. split; [|reflexivity]. intros [a [b H]]. destruct a as [|y a].
        -- assert (S' : startswith sep (x :: s) = true) by (apply startswith_spec; now exists b).
           congruence.
        -- injection H as _ ->. apply Hno. now exists a, b.
      * right. exists (x :: before). split; [|exact Hno].
        rewrite E at 1. reflexivity.
Qed.

Lemma split_last_spec (sep s : pystr) :
  sep <> [] -> occurs sep s ->
  exists before, s = before ++ sep ++ split_last sep s /\ ~ occurs sep (split_last sep s).
Proof.
  intros Hsep Hocc. unfold split_last.
  destruct (split_last_aux_spec sep s s Hsep) as [[Hno _]|H]; [contradiction | exact H].
Qed.

Lemma word_range_operators_literals :
  WORD_RANGE_OPERATORS = map (map Re.Chr) [lit ">="; lit "<="; lit ">"; lit "<"].
Proof. reflexivity. Qed.

(** [parsing_word] looks for a comparison operator anywhere in the
    word, not only at its start.  A word without [<] and [>] is kept
    whole under the operator [~=].  Otherwise the operator is one of
    the four comparison operators, and the value is what follows the
    last occurrence of that operator in the word: the text before it is
    dropped from the field. *)
Theorem word_value_follows_last_operator (ft : pystr) (p : nat) (v : pystr) :
  pos (parsing_word ft p v) = p
  /\ name (parsing_word ft p v) = ft
  /\ type (parsing_word ft p v) = WORD
  /\ ((operator (parsing_word ft p v) = lit "~=" /\ value (parsing_word ft p v) = v
       /\ without 60 v = true /\ without 62 v = true)
      \/ (In (operator (parsing_word ft p v)) [lit ">="; lit "<="; lit ">"; lit "<"]
          /\ exists before,
               v = before ++ operator (parsing_word ft p v) ++ value (parsing_word ft p v)
               /\ ~ occurs (operator (parsing_word ft p v)) (value (parsing_word ft p v)))).
Proof.
  unfold parsing_word, Re.search. rewrite word_range_operators_literals.
  pose proof (search_literals [lit ">="; lit "<="; lit ">"; lit "<"] v 0) as S.
  destruct (Re.search_from _ v 0) as [m|]; cbn [pos name type operator value].
  - repeat (split; [reflexivity|]). right.
    destruct S as [pre [a [suf [Hv [Hin [Hs He]]]]]].
    assert (Hop : slice v (Re.m_start m) (Re.m_end m) = a).
    { rewrite Hs, He, Hv. cbn [Nat.add]. apply slice_middle. }
    rewrite Hop. split; [exact Hin|].
    apply split_last_spec.
    + intros ->. simpl in Hin. intuition discriminate.
    + now exists pre, suf.
  - repeat (split; [reflexivity|]). left.
    split; [reflexivity | split; [reflexivity|]].
    split; apply without_In; intros Hin; apply in_split in Hin as [l1 [l2 E]].
    + apply (S (lit "<")); [simpl; auto|]. now exists l1, l2.
    + apply (S (lit ">")); [simpl; auto|]. now exists l1, l2.
Qed.

(* ================================================================= *)
(** ** Reports of the collector checker *)

Lemma content_assign_same (st : Checker.store) (r : Checker.ref) (l : list pystr) :
  r < length st -> Checker.content (Checker.assign st r l) r = l.
Proof.
  unfold Checker.content. revert r. induction st as [|x st IH]; intros r H; simpl in *.
  - lia.
  - destruct r; simpl; [reflexivity | apply IH; lia].
Qed.

Lemma content_assign_other (st : Checker.store) (r r' : Checker.ref) (l : list pystr) :
  r' <> r -> Checker.content (Checker.assign st r l) r' = Checker.content st r'.
Proof.
  unfold Checker.content. revert r r'. induction st as [|x st IH]; intros r r' H; simpl.
  - reflexivity.
  - destruct r, r'; simpl; try reflexivity; try congruence. apply IH. congruence.
Qed.

Lemma length_assign (st : Checker.store) (r : Checker.ref) (l : list pystr) :
  length (Checker.assign st r l) = length st.
Proof.
  revert r. induction st as [|x st IH]; intros r; simpl; [reflexivity|].
  destruct r; simpl; [reflexivity | now rewrite IH].
Qed.

Lemma content_alloc_old (st : Checker.store) (l : list pystr) (r : Checker.ref) :
  r < length st -> Checker.content (st ++ [l]) r = Checker.content st r.
Proof. intros H. unfold Checker.content. now rewrite app_nth1. Qed.

Lemma content_alloc_new (st : Checker.store) (l : list pystr) :
  Checker.content (st ++ [l]) (length st) = l.
Proof. unfold Checker.content. now rewrite app_nth2, Nat.sub_diag by lia. Qed.

Lemma or_new_list_keeps (st : Checker.store) (arg : option Checker.ref) (r : Checker.ref) :
  r < length st ->
  Checker.content (fst (Checker.or_new_list st arg)) r = Checker.content st r
  /\ length st <= length (fst (Checker.or_new_list st arg)).
Proof.
  intros H. unfold Checker.or_new_list.
  destruct arg as [a|]; [destruct (Checker.truthy st (Some a))|].
  - simpl. auto.
  - split; [now apply content_alloc_old | simpl; rewrite length_app; lia].
  - split; [now apply content_alloc_old | simpl; rewrite length_app; lia].
Qed.

(** The constructor decides on the [error] list by looking at
    [warning].  Without a non-empty warning list the report starts with
    a new, empty error list, whatever was passed as [error]:
    [has_problem()] is False.  With one, [error] is taken as it is
    passed; when none is passed it is [None], so [has_problem()] is
    True, [add_error] raises AttributeError, and so does [add_report],
    after it has extended [info] and [warning].  No list that exists
    before the call is changed by the constructor. *)
Theorem report_error_follows_warning
        (st : Checker.store) (name : pystr) (info warning error : option Checker.ref)
        (message : pystr) (other : Checker.Report) :
  Checker.known st info = true -> Checker.known st warning = true ->
  Checker.known st error = true ->
  let st' := fst (Checker.__init__ st name info warning error) in
  let self := snd (Checker.__init__ st name info warning error) in
  (forall r, r < length st -> Checker.content st' r = Checker.content st r)
  /\ (Checker.truthy st warning = false ->
      Checker.has_problem st' self = false
      /\ exists e, Checker.error self = Some e /\ length st <= e
                   /\ Checker.content st' e = [])
  /\ (Checker.truthy st warning = true ->
      Checker.error self = error
      /\ (error = None ->
          Checker.has_problem st' self = true
          /\ Checker.add_error st' self message = (st', Raise AttributeError)
          /\ Checker.add_report st' self other
             = (Checker.extend (Checker.extend st' (Checker.info self) (Checker.info other))
                  (Checker.warning self) (Checker.warning other),
                Raise AttributeError))).
Proof.
  intros _ Kw _. cbv zeta. unfold Checker.__init__.
  destruct (Checker.or_new_list st info) as [st1 i] eqn:E1.
  destruct (Checker.or_new_list st1 warning) as [st2 w] eqn:E2.
  assert (K1 : forall r, r < length st ->
                 Checker.content st1 r = Checker.content st r /\ length st <= length st1).
  { intros r H. pose proof (or_new_list_keeps st info r H) as K. now rewrite E1 in K. }
  assert (K2 : forall r, r < length st1 ->
                 Checker.content st2 r = Checker.content st1 r /\ length st1 <= length st2).
  { intros r H. pose proof (or_new_list_keeps st1 warning r H) as K. now rewrite E2 in K. }
  assert (L1 : length st <= length st1).
  { unfold Checker.or_new_list in E1.
    destruct info as [a|]; [destruct (Checker.truthy st (Some a))|];
      injection E1 as <- _; simpl; rewrite ?length_app; lia. }
  assert (L2 : length st1 <= length st2).
  { unfold Checker.or_new_list in E2.
    destruct warning as [a|]; [destruct (Checker.truthy st1 (Some a))|];
      injection E2 as <- _; simpl; rewrite ?length_app; lia. }
  assert (T2 : Checker.truthy st2 warning = Checker.truthy st warning).
  { destruct warning as [a|]; [|reflexivity].
    simpl in Kw. apply Nat.ltb_lt in Kw. unfold Checker.truthy.
    destruct (K1 a Kw) as [C1 _]. destruct (K2 a ltac:(lia)) as [C2 _].
    now rewrite C2, C1. }
  rewrite T2.
  destruct (Checker.truthy st warning) eqn:W; unfold Checker.alloc; cbn [fst snd].
  - split; [|split; [discriminate|]].
    + intros r H. destruct (K1 r H) as [C1 _]. destruct (K2 r ltac:(lia)) as [C2 _]. congruence.
    + intros _. split; [reflexivity|]. intros ->.
      unfold Checker.has_problem, Checker.add_error, Checker.add_report. cbn. auto.
  - split; [|split; [|discriminate]].
    + intros r H. destruct (K1 r H) as [C1 _]. destruct (K2 r ltac:(lia)) as [C2 _].
      rewrite content_alloc_old by lia. congruence.
    + intros _. unfold Checker.has_problem. cbn [Checker.error].
      pose proof (content_alloc_new st2 []) as N.
      rewrite N. split; [reflexivity|].
      exists (length st2). split; [reflexivity | split; [lia | exact N]].
Qed.

(** [add_report] on reports whose lists are lists of their own: every
    list of [self] is followed by the list of [report], [report] may be
    [self] itself (every list is doubled), no other list changes, and
    afterwards [self] has a problem exactly when one of the two had. *)
Theorem add_report_concatenates
        (st : Checker.store) (self report : Checker.Report) (e e' : Checker.ref) :
  Checker.valid st self = true ->
  Checker.separate self = true ->
  Checker.apart self report = true ->
  Checker.error self = Some e ->
  Checker.error report = Some e' ->
  let st' := fst (Checker.add_report st self report) in
  snd (Checker.add_report st self report) = Return tt
  /\ Checker.content st' (Checker.info self)
     = Checker.content st (Checker.info self) ++ Checker.content st (Checker.info report)
  /\ Checker.content st' (Checker.warning self)
     = Checker.content st (Checker.warning self) ++ Checker.content st (Checker.warning report)
  /\ Checker.content st' e = Checker.content st e ++ Checker.content st e'
  /\ (forall r, r <> Checker.info self -> r <> Checker.warning self -> r <> e ->
        Checker.content st' r = Checker.content st r)
  /\ Checker.has_problem st' self
     = Checker.has_problem st self || Checker.has_problem st report.
Proof.
  unfold Checker.valid, Checker.separate, Checker.apart.
  intros V S A E E'. rewrite E in V, S. rewrite E' in A.
  repeat (rewrite andb_true_iff in V || rewrite andb_true_iff in S
          || rewrite andb_true_iff in A).
  destruct V as [[Vi Vw] Ve]. destruct S as [Siw [Sei Sew]]. destruct A as [Awi [Aei Aew]].
  apply Nat.ltb_lt in Vi, Vw, Ve.
  apply negb_true_iff, Nat.eqb_neq in Siw, Sei, Sew, Awi, Aei, Aew.
  cbv zeta. unfold Checker.add_report. rewrite E, E'. cbn [fst snd].
  set (i := Checker.info self) in *. set (w := Checker.warning self) in *.
  set (i' := Checker.info report) in *. set (w' := Checker.warning report) in *.
  set (st1 := Checker.extend st i i').
  set (st2 := Checker.extend st1 w w').
  set (st3 := Checker.extend st2 e e').
  assert (L1 : length st1 = length st) by apply length_assign.
  assert (L2 : length st2 = length st) by (unfold st2, Checker.extend; now rewrite length_assign).
  assert (C1i : Checker.content st1 i = Checker.content st i ++ Checker.content st i')
    by (apply content_assign_same; exact Vi).
  assert (C1 : forall r, r <> i -> Checker.content st1 r = Checker.content st r)
    by (intros r H; now apply content_assign_other).
  assert (C2w : Checker.content st2 w = Checker.content st w ++ Checker.content st w').
  { unfold st2, Checker.extend. rewrite content_assign_same by lia.
    now rewrite (C1 w), (C1 w') by congruence. }
  assert (C2 : forall r, r <> w -> Checker.content st2 r = Checker.content st1 r)
    by (intros r H; now apply content_assign_other).
  assert (C3e : Checker.content st3 e = Checker.content st e ++ Checker.content st e').
  { unfold st3, Checker.extend. rewrite content_assign_same by lia.
    now rewrite (C2 e), (C2 e'), (C1 e), (C1 e') by congruence. }
  assert (C3 : forall r, r <> e -> Checker.content st3 r = Checker.content st2 r)
    by (intros r H; now apply content_assign_other).
  split; [reflexivity|]. split; [|split; [|split; [|split]]].
  - rewrite C3, C2 by congruence. exact C1i.
  - rewrite C3 by congruence. exact C2w.
  - exact C3e.
  - intros r Hi Hw He. now rewrite C3, C2, C1.
  - unfold Checker.has_problem. rewrite E, E', C3e.
    destruct (Checker.content st e), (Checker.content st e'); reflexivity.
Qed.

Lemma report_error_follows_warning_witness :
  Checker.truthy [[lit "disk full"]] None = false
  /\ Checker.has_problem
       (fst (Checker.__init__ [[lit "disk full"]] (lit "agent") None None (Some 0)))
       (snd (Checker.__init__ [[lit "disk full"]] (lit "agent") None None (Some 0)))
     = false.
Proof.
  split; [reflexivity|].
  destruct (report_error_follows_warning [[lit "disk full"]] (lit "agent") None None (Some 0)
              [] (snd (Checker.__init__ [] [] None None None)) eq_refl eq_refl eq_refl)
    as [_ [H _]].
  exact (proj1 (H eq_refl)).
Defined.

Lemma add_report_concatenates_witness :
  let a := {| Checker.name := lit "a"; Checker.info := 0; Checker.warning := 1;
              Checker.error := Some 2 |} in
  let b := {| Checker.name := lit "b"; Checker.info := 3; Checker.warning := 4;
              Checker.error := Some 5 |} in
  let st := [[]; []; []; [lit "started"]; []; [lit "no route"]] in
  Checker.valid st a = true /\ Checker.separate a = true /\ Checker.apart a b = true
  /\ Checker.has_problem (fst (Checker.add_report st a b)) a = true.
Proof.
  cbv zeta. split; [reflexivity | split; [reflexivity | split; [reflexivity|]]].
  destruct (add_report_concatenates
              [[]; []; []; [lit "started"]; []; [lit "no route"]]
              {| Checker.name := lit "a"; Checker.info := 0; Checker.warning := 1;
                 Checker.error := Some 2 |}
              {| Checker.name := lit "b"; Checker.info := 3; Checker.warning := 4;
                 Checker.error := Some 5 |} 2 5
              eq_refl eq_refl eq_refl eq_refl eq_refl) as [_ [_ [_ [_ [_ H]]]]].
  exact H.
Defined.

(* ================================================================= *)
(** ** The command line of a story *)

Lemma split_nonempty (sep : N) (s : pystr) : Story.split sep s <> [].
Proof.
  destruct s as [|c s]; simpl; [discriminate|].
  destruct (N.eqb c sep); [discriminate|]. destruct (Story.split sep s); discriminate.
Qed.

Lemma split_without (sep : N) (s : pystr) :
  without sep s = true -> Story.split sep s = [s].
Proof.
  unfold without. induction s as [|c s IH]; simpl; [reflexivity|].
  intros H. apply andb_true_iff in H as [Hc Hs]. apply negb_true_iff in Hc.
  now rewrite Hc, IH.
Qed.

Lemma split_one_piece (sep : N) (s : pystr) :
  Story.item (Story.split sep s) 1 = Story.Err Story.IndexError -> without sep s = true.
Proof.
  unfold without. induction s as [|c s IH]; simpl; [reflexivity|].
  destruct (N.eqb c sep) eqn:E.
  - unfold Story.item. simpl. pose proof (split_nonempty sep s) as N.
    destruct (Story.split sep s); [congruence | discriminate].
  - simpl. intros H. apply IH.
    pose proof (split_nonempty sep s) as N.
    destruct (Story.split sep s) as [|p ps]; [congruence|]. exact H.
Qed.

Lemma split_app (sep : N) (a b : pystr) :
  without sep a = true -> Story.split sep (a ++ sep :: b) = a :: Story.split sep b.
Proof.
  unfold without. induction a as [|c a IH]; simpl.
  - intros _. now rewrite N.eqb_refl.
  - intros H. apply andb_true_iff in H as [Hc Ha]. apply negb_true_iff in Hc.
    now rewrite Hc, IH.
Qed.

Lemma split_join (sep : N) (parts : list pystr) :
  parts <> [] -> forallb (without sep) parts = true ->
  Story.split sep (join [sep] parts) = parts.
Proof.
  induction parts as [|p parts IH]; [congruence|]. intros _ H.
  simpl in H. apply andb_true_iff in H as [Hp Hps].
  destruct parts as [|q parts].
  - simpl. now apply split_without.
  - change (join [sep] (p :: q :: parts)) with (p ++ sep :: join [sep] (q :: parts)).
    rewrite split_app by exact Hp. f_equal. apply IH; [discriminate | exact Hps].
Qed.

Lemma forallb_mapped {A B} (f : B -> bool) (g : A -> B) (l : list A) :
  forallb f (map g l) = forallb (fun x => f (g x)) l.
Proof. induction l as [|x l IH]; simpl; [reflexivity | now rewrite IH]. Qed.

Section Story.

Variable CollectorConfig : Type.
Variable get : pystr -> Story.result CollectorConfig.
Variable int : pystr -> Z + pystr.

Local Abbreviation turn_ := (Story.turn CollectorConfig get int).
Local Abbreviation init_ := (Story.__init__ CollectorConfig get int).

Lemma init_snoc (argv : list pystr) (arg : pystr) :
  init_ (argv ++ [arg])
  = match init_ argv with
    | Story.Ok self => turn_ self arg
    | Story.Err e => Story.Err e
    end.
Proof. unfold Story.__init__. now rewrite fold_left_app. Qed.

Lemma turn_errors (self : Story.BaseStory CollectorConfig) (arg : pystr) (e : Story.error) :
  turn_ self arg = Story.Err e ->
  (Story.contains (lit "collector_config_id") arg = true
   /\ ((e = Story.IndexError /\ without Story.EQUALS arg = true)
       \/ exists id, get id = Story.Err e))
  \/ (Story.contains (lit "collector_config_id") arg = false
      /\ Story.contains (lit "hosts") arg = true
      /\ exists cause, Story.ip_list int arg = Story.Err cause
                       /\ e = Story.Exception (Story.hosts_error_prefix
                                               ++ Story.error_str cause)).
Proof.
  unfold Story.turn. intros H.
  destruct (Story.contains (lit "collector_config_id") arg).
  - left. split; [reflexivity|].
    destruct (Story.item (Story.split Story.EQUALS arg) 1) as [id|e'] eqn:I.
    + right. exists id. destruct (get id); [discriminate|].
      injection H as <-. reflexivity.
    + left. injection H as <-.
      assert (e' = Story.IndexError) as ->.
      { unfold Story.item in I. destruct (nth_error _ 1); [discriminate | congruence]. }
      split; [reflexivity | now apply split_one_piece].
  - right. split; [reflexivity|].
    destruct (Story.contains (lit "hosts") arg); [|discriminate].
    split; [reflexivity|].
    destruct (Story.ip_list int arg) as [l|cause]; [discriminate|].
    exists cause. split; [reflexivity | congruence].
Qed.

(** Whatever goes wrong in a hosts argument (no [=], an entry without
    a colon, a cloud id that [int] rejects) reaches the caller as an
    Exception whose text is the prefix and the [str] of the cause.  An
    IndexError escapes only from a [collector_config_id] argument
    without [=], and any other exception is the model query's. *)
Theorem story_errors (argv : list pystr) (e : Story.error) :
  init_ argv = Story.Err e ->
  exists arg, In arg argv
    /\ ((Story.contains (lit "collector_config_id") arg = true
         /\ ((e = Story.IndexError /\ without Story.EQUALS arg = true)
             \/ exists id, get id = Story.Err e))
        \/ (Story.contains (lit "collector_config_id") arg = false
            /\ Story.contains (lit "hosts") arg = true
            /\ exists cause, Story.ip_list int arg = Story.Err cause
                             /\ e = Story.Exception (Story.hosts_error_prefix
                                                     ++ Story.error_str cause))).
Proof.
  induction argv as [|arg argv IH] using rev_ind; intros H.
  - discriminate.
  - rewrite init_snoc in H. destruct (init_ argv) as [self|e'] eqn:I.
    + exists arg. split; [apply in_or_app; right; now left|].
      now apply (turn_errors self).
    + injection H as ->. destruct (IH eq_refl) as [a [Hin Ha]].
      exists a. split; [apply in_or_app; now left | exact Ha].
Qed.

Lemma host_of_entry (cloud address : pystr) (number : Z) :
  without COLON cloud = true -> without COLON address = true ->
  int cloud = inl number ->
  Story.host_of int (Story.entry cloud address)
  = Story.Ok {| Story.bk_cloud_id := number; Story.ip := address |}.
Proof.
  intros Hc Ha Hn. unfold Story.host_of, Story.entry. simpl app.
  rewrite split_app by exact Hc. rewrite split_without by exact Ha.
  unfold Story.item. simpl. now rewrite Hn.
Qed.

Lemma hosts_of_entries (entries : list (pystr * Z * pystr)) :
  Forall (fun t => without COLON (fst (fst t)) = true /\ without COLON (snd t) = true
                   /\ int (fst (fst t)) = inl (snd (fst t))) entries ->
  Story.hosts_of int (map (fun t => Story.entry (fst (fst t)) (snd t)) entries)
  = Story.Ok (map (fun t => {| Story.bk_cloud_id := snd (fst t); Story.ip := snd t |}) entries).
Proof.
  induction 1 as [|t entries [Hc [Ha Hn]] _ IH]; simpl; [reflexivity|].
  now rewrite (host_of_entry _ _ _ Hc Ha Hn), IH.
Qed.

(** A hosts argument written as the comment in the source shows it,
    [name=cloud:ip,cloud:ip,...], after any arguments that were
    accepted: when the name holds no [=], the cloud ids and addresses
    hold none of [=], [,] and [:], there is one entry at least and
    [int] accepts every cloud id, the story gets exactly these hosts, in
    order, in place of any earlier ones, and keeps its collector
    configuration. *)
Theorem hosts_argument_round_trip
        (argv : list pystr) (self : Story.BaseStory CollectorConfig)
        (name : pystr) (entries : list (pystr * Z * pystr)) :
  let arg := name ++ [Story.EQUALS]
             ++ join [Story.COMMA] (map (fun t => Story.entry (fst (fst t)) (snd t)) entries) in
  init_ argv = Story.Ok self ->
  Story.contains (lit "collector_config_id") arg = false ->
  Story.contains (lit "hosts") arg = true ->
  without Story.EQUALS name = true ->
  entries <> [] ->
  forallb (fun t => without Story.EQUALS (Story.entry (fst (fst t)) (snd t))
                    && without Story.COMMA (Story.entry (fst (fst t)) (snd t))
                    && without COLON (fst (fst t)) && without COLON (snd t)) entries = true ->
  Forall (fun t => int (fst (fst t)) = inl (snd (fst t))) entries ->
  init_ (argv ++ [arg])
  = Story.Ok {| Story.hosts :=
                  map (fun t => {| Story.bk_cloud_id := snd (fst t); Story.ip := snd t |})
                      entries;
                Story.collector_config := Story.collector_config CollectorConfig self |}.
Proof.
  cbv zeta. intros Hi Hcfg Hhosts Hname Hne Hclean Hint.
  rewrite init_snoc, Hi. unfold Story.turn. rewrite Hcfg, Hhosts.
  set (texts := map (fun t => Story.entry (fst (fst t)) (snd t)) entries) in *.
  assert (Htexts : texts <> []) by (unfold texts; destruct entries; [congruence | discriminate]).
  assert (Heq : without Story.EQUALS (join [Story.COMMA] texts) = true).
  { assert (G : forall l, forallb (without Story.EQUALS) l = true ->
                  without Story.EQUALS (join [Story.COMMA] l) = true).
    { induction l as [|p l IHl]; [reflexivity|]. intros H. simpl in H.
      apply andb_true_iff in H as [Hp Hl]. destruct l as [|q l].
      - exact Hp.
      - change (join [Story.COMMA] (p :: q :: l))
          with (p ++ [Story.COMMA] ++ join [Story.COMMA] (q :: l)).
        unfold without in *. rewrite !forallb_app, Hp, (IHl Hl). reflexivity. }
    apply G. unfold texts. rewrite forallb_mapped.
    rewrite forallb_forall in Hclean |- *. intros t Ht. specialize (Hclean t Ht).
    repeat (apply andb_true_iff in Hclean as [Hclean ?]). exact Hclean. }
  unfold Story.ip_list. simpl app. rewrite split_app by exact Hname.
  rewrite split_without by exact Heq. unfold Story.item. cbn [nth_error].
  rewrite split_join.
  - unfold texts. rewrite hosts_of_entries; [reflexivity|].
    apply Forall_forall. intros t Ht.
    rewrite forallb_forall in Hclean. specialize (Hclean t Ht).
    repeat (apply andb_true_iff in Hclean as [Hclean ?]).
    rewrite Forall_forall in Hint. auto.
  - exact Htexts.
  - unfold texts. rewrite forallb_mapped.
    rewrite forallb_forall in Hclean |- *. intros t Ht. specialize (Hclean t Ht).
    repeat (apply andb_true_iff in Hclean as [Hclean ?]). assumption.
Qed.

End Story.

Lemma story_errors_witness :
  Story.__init__ pystr Story.any_config Story.digits_int [lit "manage.py"; lit "hosts=0"]
  = Story.Err (Story.Exception (Story.hosts_error_prefix ++ lit "list index out of range"))
  /\ exists arg, In arg [lit "manage.py"; lit "hosts=0"]
       /\ ((Story.contains (lit "collector_config_id") arg = true
            /\ ((Story.Exception (Story.hosts_error_prefix ++ lit "list index out of range")
                 = Story.IndexError /\ without Story.EQUALS arg = true)
                \/ exists id,
                     Story.any_config id
                     = Story.Err (Story.Exception
                                    (Story.hosts_error_prefix ++ lit "list index out of range"))))
           \/ (Story.contains (lit "collector_config_id") arg = false
               /\ Story.contains (lit "hosts") arg = true
               /\ exists cause,
                    Story.ip_list Story.digits_int arg = Story.Err cause
                    /\ Story.Exception (Story.hosts_error_prefix ++ lit "list index out of range")
                       = Story.Exception (Story.hosts_error_prefix ++ Story.error_str cause))).
Proof.
  split; [vm_compute; reflexivity|].
  apply (story_errors pystr Story.any_config Story.digits_int
           [lit "manage.py"; lit "hosts=0"]
           (Story.Exception (Story.hosts_error_prefix ++ lit "list index out of range"))).
  vm_compute. reflexivity.
Defined.

Lemma hosts_argument_round_trip_witness :
  Story.__init__ pystr Story.any_config Story.digits_int
    ([lit "manage.py"; lit "collector_config_id=7"] ++ [lit "hosts=0:10.0.0.1,1:10.0.0.2"])
  = Story.Ok {| Story.hosts := [ {| Story.bk_cloud_id := 0; Story.ip := lit "10.0.0.1" |};
                                 {| Story.bk_cloud_id := 1; Story.ip := lit "10.0.0.2" |} ];
                Story.collector_config := Some (lit "7") |}.
Proof.
  apply (hosts_argument_round_trip pystr Story.any_config Story.digits_int
           [lit "manage.py"; lit "collector_config_id=7"]
           {| Story.hosts := []; Story.collector_config := Some (lit "7") |}
           (lit "hosts")
           [(lit "0", 0%Z, lit "10.0.0.1"); (lit "1", 1%Z, lit "10.0.0.2")]).
  - vm_compute. reflexivity.
  - vm_compute. reflexivity.
  - vm_compute. reflexivity.
  - reflexivity.
  - discriminate.
  - vm_compute. reflexivity.
  - repeat constructor.
Defined.

(* ================================================================= *)
(** ** The diagnostics of a repair *)

Lemma dedup_NoDup (l : list pystr) : NoDup (dedup l).
Proof.
  induction l as [|x l IH]; simpl; constructor.
  - rewrite filter_In, pystr_eqb_refl. intros [_ H]. discriminate.
  - now apply NoDup_filter.
Qed.

Lemma final_messages_In (b : bool) (messages : list pystr) (m : pystr) :
  In m (final_messages b messages) -> In m messages.
Proof.
  unfold final_messages. intros H. apply dedup_In.
  destruct (b && existsb _ _); [now apply filter_In in H | exact H].
Qed.

Lemma final_messages_NoDup (b : bool) (messages : list pystr) :
  NoDup (final_messages b messages).
Proof.
  unfold final_messages.
  destruct (b && existsb _ _); [apply NoDup_filter|]; apply dedup_NoDup.
Qed.

Section Diagnostics.

Variable parse : pystr -> outcome Node.
Variable node_str : Node -> pystr.
Variable unknown_operation_resolver : Node -> Node.
Variable FULL_TEXT_SEARCH_FIELD_NAME : pystr.

Local Abbreviation inspect_ :=
  (inspect parse node_str unknown_operation_resolver FULL_TEXT_SEARCH_FIELD_NAME).
Local Abbreviation run_ :=
  (run_inspectors parse node_str unknown_operation_resolver FULL_TEXT_SEARCH_FIELD_NAME).
Local Abbreviation pass_ :=
  (resolver_inspect parse node_str unknown_operation_resolver FULL_TEXT_SEARCH_FIELD_NAME).
Local Abbreviation loop_ :=
  (resolve_loop parse node_str unknown_operation_resolver FULL_TEXT_SEARCH_FIELD_NAME).
Local Abbreviation resolve_messages_ :=
  (resolve_messages parse node_str unknown_operation_resolver FULL_TEXT_SEARCH_FIELD_NAME).

(** The two inspectors that never report: the Chinese punctuation
    inspector passes or raises, and so does the unknown operator
    inspector, whose handler repeats the call that has just raised. *)
Lemma silent_inspectors (c : InspectorClass) (kw : pystr) (self : Inspector) :
  c = ChinesePunctuationInspector \/ c = UnknownOperatorInspector ->
  inspect_ c kw = Return self -> self = new_inspector kw.
Proof.
  intros [-> | ->] H; unfold inspect in H.
  - now apply chinese_punctuation_returns in H.
  - unfold inspect_unknown_operator in H. simpl keyword in H.
    destruct (parse kw) as [t|[e|e| | | | |]] eqn:P; try (injection H as <-; reflexivity).
    discriminate.
Qed.

Lemma run_reportable classes kw messages kw' messages' :
  run_ classes kw messages = Return (kw', messages') ->
  Forall reportable messages -> Forall reportable messages'.
Proof.
  revert kw messages. induction classes as [|c rest IH]; intros kw messages H F; simpl in H.
  - now injection H as <- <-.
  - destruct (inspect_ c kw) as [self|e] eqn:I; simpl in H; [|discriminate].
    apply IH in H; [exact H|].
    destruct (is_legal (result self)) eqn:L; [exact F|].
    apply Forall_app. split; [exact F|]. constructor; [|constructor].
    exists c. split; [|split].
    + intros ->. rewrite (silent_inspectors _ kw self (or_introl eq_refl) I) in L. discriminate.
    + intros ->. rewrite (silent_inspectors _ kw self (or_intror eq_refl) I) in L. discriminate.
    + now apply (illegal_inspector_message parse node_str unknown_operation_resolver
                   FULL_TEXT_SEARCH_FIELD_NAME c kw self).
Qed.

Lemma loop_reportable times self b self' :
  loop_ times self = Return (b, self') ->
  Forall reportable (r_messages self) -> Forall reportable (r_messages self').
Proof.
  revert self. induction times as [|n IH]; intros self H F; simpl in H.
  - now injection H as <- <-.
  - destruct (pass_ self) as [[b1 s1]|e] eqn:P; simpl in H; [|discriminate].
    destruct (pass_unfold parse node_str unknown_operation_resolver
                FULL_TEXT_SEARCH_FIELD_NAME _ _ _ P) as [kw' [msgs [R [_ [_ E]]]]].
    assert (F1 : Forall reportable (r_messages s1)).
    { rewrite E. apply Forall_app. split; [exact F|].
      apply (run_reportable _ _ _ _ _ R). constructor. }
    destruct b1; [injection H as <- <-; exact F1 | now apply IH in H].
Qed.

(** The diagnostics of a repair are pairwise distinct, and each is the
    message of one of the five inspector classes that can report.  The
    messages of the Chinese punctuation inspector and of the unknown
    operator inspector are never among them. *)
Theorem diagnostics_are_reportable (kw : pystr) (messages : list pystr) :
  resolve_messages_ kw = Return messages ->
  NoDup messages
  /\ Forall reportable messages
  /\ ~ In (syntax_error_message ChinesePunctuationInspector) messages
  /\ ~ In (syntax_error_message UnknownOperatorInspector) messages.
Proof.
  unfold resolve_messages. intros H.
  destruct (loop_ MAX_RESOLVE_TIMES _) as [[b s]|e] eqn:L; simpl in H; [|discriminate].
  injection H as <-.
  assert (F : Forall reportable (final_messages b (r_messages s))).
  { apply Forall_forall. intros m Hm. apply final_messages_In in Hm.
    pose proof (loop_reportable _ _ _ _ L (Forall_nil _)) as F.
    rewrite Forall_forall in F. now apply F. }
  split; [apply final_messages_NoDup | split; [exact F|]].
  rewrite Forall_forall in F. split; intros Hin; apply F in Hin as [c [H1 [H2 H3]]];
    destruct c; try congruence; discriminate.
Qed.

End Diagnostics.

Lemma diagnostics_are_reportable_witness :
  resolve_messages Sample.parse Sample.node_str Sample.resolver Sample.full_text
    (lit "foo bar") = Return [syntax_error_message DefaultInspector]
  /\ NoDup [syntax_error_message DefaultInspector].
Proof.
  split; [vm_compute; reflexivity|].
  apply (diagnostics_are_reportable Sample.parse Sample.node_str Sample.resolver
           Sample.full_text (lit "foo bar") [syntax_error_message DefaultInspector]).
  vm_compute. reflexivity.
Defined.
